(** * evtpdl_diff: comparing two EvtGen particle tables

    A shallow embedding of [evtpdl_diff.py] and of the parts of the Python
    runtime it relies on ([math.isclose], [str] methods, [dict], [sorted],
    [difflib.SequenceMatcher]), followed by the properties of the program.

    Conventions of the embedding:
    - a Python [float] is an IEEE 754 binary64 number, [spec_float] with
      [prec = 53] and [emax = 1024];
    - a Python [int] is a [Z];
    - a Python [str] is a [string] whose characters are code points below 256;
    - a [dict] is an association list in insertion order;
    - a raised exception is the [Raise] branch of [result]. *)

From Stdlib Require Import ZArith Bool Lia Ascii.
From Stdlib Require Import Floats.SpecFloat.
From stdpp Require Import gmap strings list pretty sorting.

Local Open Scope Z_scope.
Local Open Scope string_scope.
Local Open Scope list_scope.

(** ** Exceptions *)

Inductive exn :=
  | ValueError (msg : string)
  | TypeError (msg : string)
  | OverflowError (msg : string)
  | IndexError (msg : string)
  | OSError (msg : string)
  | RuntimeError (msg : string).

Inductive result (A : Type) :=
  | Ok (a : A)
  | Raise (e : exn).
Arguments Ok {A} a.
Arguments Raise {A} e.

#[global] Instance result_ret : MRet result := fun A a => Ok a.
#[global] Instance result_bind : MBind result := fun A B f m =>
  match m with
  | Ok a => f a
  | Raise e => Raise e
  end.

Definition is_ok {A} (r : result A) : bool :=
  match r with Ok _ => true | Raise _ => false end.

(** ** binary64 floating point numbers *)

Module Float64.
Definition prec : Z := 53.
Definition emax : Z := 1024.

Abbreviation float := spec_float.

Definition sub : float -> float -> float := SFsub prec emax.
Definition mul : float -> float -> float := SFmul prec emax.
Definition abs : float -> float := SFabs.
Definition eqb : float -> float -> bool := SFeqb.
Definition ltb : float -> float -> bool := SFltb.
Definition leb : float -> float -> bool := SFleb.

Definition zero : float := S754_zero false.
Definition nan : float := S754_nan.
Definition inf : float := S754_infinity false.

Definition is_infinity (x : float) : bool :=
  match x with S754_infinity _ => true | _ => false end.
Definition is_nan (x : float) : bool :=
  match x with S754_nan => true | _ => false end.
Definition is_finite (x : float) : bool :=
  match x with S754_zero _ | S754_finite _ _ _ => true | _ => false end.

(** The larger of two floats, as [fmax] and Python's [max] give it when
    neither is a NaN. *)
Definition max (x y : float) : float := if ltb x y then y else x.

(** [float(z)] for an [int]: the nearest binary64 number, or
    [OverflowError] when that is out of range. *)
Definition of_int (z : Z) : result float :=
  let r := binary_normalize prec emax z 0 false in
  if is_infinity r
  then Raise (OverflowError "int too large to convert to float")
  else Ok r.

(** [z == x] for an [int] and a [float]: the exact comparison. *)
Definition eqb_int (z : Z) (x : float) : bool :=
  match x with
  | S754_zero _ => Z.eqb z 0
  | S754_finite s m e =>
      if Z.leb 0 e
      then Z.eqb z (cond_Zopp s (Zpos m * 2 ^ e))
      else Z.eqb (z * 2 ^ (- e)) (cond_Zopp s (Zpos m))
  | _ => false
  end.

(** Some literals. *)
Definition f_1em5 : float := S754_finite false 5902958103587057 (-69).
Definition f_0_5 : float := S754_finite false 4503599627370496 (-53).
Definition f_1_0 : float := S754_finite false 4503599627370496 (-52).
Definition f_1_25 : float := S754_finite false 5629499534213120 (-52).
End Float64.
Abbreviation float := Float64.float.

(** ** [math.isclose] *)

(** The C implementation: tolerances are checked first, equal numbers are
    close, an infinity is close to nothing else, and otherwise the
    difference is compared with both relative bounds and the absolute one. *)
Definition math_isclose (a b rel_tol abs_tol : float) : result bool :=
  if Float64.ltb rel_tol Float64.zero || Float64.ltb abs_tol Float64.zero
  then Raise (ValueError "tolerances must be non-negative")
  else if Float64.eqb a b then Ok true
  else if Float64.is_infinity a || Float64.is_infinity b then Ok false
  else
    let diff := Float64.abs (Float64.sub b a) in
    Ok (Float64.leb diff (Float64.abs (Float64.mul rel_tol b))
        || Float64.leb diff (Float64.abs (Float64.mul rel_tol a))
        || Float64.leb diff abs_tol).

(** ** Python values held by a record *)

Inductive value :=
  | VStr (s : string)
  | VInt (z : Z)
  | VFloat (x : float).

(** [a == b] *)
Definition py_eq (a b : value) : bool :=
  match a, b with
  | VStr s, VStr t => String.eqb s t
  | VInt z, VInt w => Z.eqb z w
  | VFloat x, VFloat y => Float64.eqb x y
  | VInt z, VFloat x | VFloat x, VInt z => Float64.eqb_int z x
  | _, _ => false
  end.

(** The conversion [math.isclose] applies to its second argument. *)
Definition as_double (v : value) : result float :=
  match v with
  | VFloat x => Ok x
  | VInt z => Float64.of_int z
  | VStr _ => Raise (TypeError "must be real number, not str")
  end.

(** ** Ordered dictionaries *)

Section Dict.
Context {K V : Type} `{EqDecision K}.

Definition dict := list (K * V).

Fixpoint dict_set (k : K) (v : V) (d : dict) : dict :=
  match d with
  | [] => [(k, v)]
  | (k', v') :: d' =>
      if decide (k = k') then (k, v) :: d' else (k', v') :: dict_set k v d'
  end.

Fixpoint dict_get (k : K) (d : dict) : option V :=
  match d with
  | [] => None
  | (k', v') :: d' => if decide (k = k') then Some v' else dict_get k d'
  end.

Fixpoint dict_del (k : K) (d : dict) : dict :=
  match d with
  | [] => []
  | (k', v') :: d' => if decide (k = k') then d' else (k', v') :: dict_del k d'
  end.

(** [d.pop(k, None)] *)
Definition dict_pop (k : K) (d : dict) : option V * dict :=
  (dict_get k d, dict_del k d).

Definition dict_keys (d : dict) : list K := d.*1.
Definition dict_values (d : dict) : list V := d.*2.
End Dict.
Arguments dict : clear implicits.

(** ** The record: class [Particle] *)

Record Particle := mkParticle {
  name : string;
  id : Z;
  mass : float;
  width : float;
  max_dM : float;
  charge : Z;
  spin : Z;
  lifetime : float;
  pythiaId : Z;
  line : Z;
}.

Definition _fields : list string :=
  ["name"; "id"; "mass"; "width"; "max_dM"; "charge"; "spin"; "lifetime";
   "pythiaId"; "line"].

(** The record as the tuple it is. *)
Definition as_tuple (p : Particle) : list value :=
  [VStr (name p); VInt (id p); VFloat (mass p); VFloat (width p);
   VFloat (max_dM p); VInt (charge p); VInt (spin p); VFloat (lifetime p);
   VInt (pythiaId p); VInt (line p)].

(** [__eq__] and [__hash__] look at the id only. *)
Definition Particle_eq (self other : Particle) : bool := Z.eqb (id self) (id other).
Definition Particle_hash (self : Particle) : Z := id self.

(** [l[:-1]] *)
Definition but_last {A} (l : list A) : list A := take (length l - 1)%nat l.

Definition default_tolerance : float := Float64.f_1em5.

(** The local function [isclose] of [diff]. *)
Definition isclose (tolerance : float) (a b : value) : result bool :=
  match a with
  | VFloat x => y ← as_double b; math_isclose x y tolerance tolerance
  | _ => Ok (py_eq a b)
  end.

(** The dictionary comprehension of [diff], over the zipped triples. *)
Fixpoint diff_comprehension (tolerance : float)
    (l : list (string * (value * value))) (acc : dict string (value * value))
    : result (dict string (value * value)) :=
  match l with
  | [] => Ok acc
  | (f, (a, b)) :: l' =>
      c ← isclose tolerance a b;
      diff_comprehension tolerance l'
        (if negb c then dict_set f (a, b) acc else acc)
  end.

Definition diff (self other : Particle) (tolerance : float)
    : result (dict string (value * value)) :=
  diff_comprehension tolerance
    (zip (but_last _fields) (zip (as_tuple self) (as_tuple other))) [].

(** ** [sorted] and [list.sort] with a key *)

(** Python's sort is stable, and a stable sort has one result: insertion
    from the right, each element placed before the first one whose key is
    not smaller. *)
Section Sorted.
Context {A K : Type} (key : A -> K) (le : K -> K -> bool).

Fixpoint insert_sorted (x : A) (l : list A) : list A :=
  match l with
  | [] => [x]
  | y :: l' =>
      if le (key x) (key y) then x :: l else y :: insert_sorted x l'
  end.

Definition sorted (l : list A) : list A := foldr insert_sorted [] l.
End Sorted.

(** ** [difflib.SequenceMatcher] *)

(** The matcher hashes and compares the elements, so all it sees of an
    element is what [__hash__] and [__eq__] look at: its [key].  Indices
    and sizes are natural numbers. *)
Module Difflib.

#[local] Open Scope nat_scope.

Inductive tag := replace | delete | insert | equal.

#[global] Instance tag_eq_dec : EqDecision tag.
Proof. solve_decision. Defined.

(** A matching block [(i, j, k)] and an opcode [(tag, i1, i2, j1, j2)]. *)
Definition Match : Type := nat * nat * nat.
Definition opcode : Type := tag * nat * nat * nat * nat.

Section SequenceMatcher.
Context {E K : Type} `{Countable K} (key : E -> K).
Variables (a b : list E).

(** [a[i] == b[j]] *)
Definition elt_eq (i j : nat) : bool :=
  match a !! i, b !! j with
  | Some x, Some y => bool_decide (key x = key y)
  | _, _ => false
  end.

(** The first loop of [__chain_b]: [b2j.setdefault(elt, []).append(i)]. *)
Definition chain_step (b2j : gmap K (list nat)) (ie : nat * E)
    : gmap K (list nat) :=
  <[key ie.2 := default [] (b2j !! key ie.2) ++ [ie.1]]> b2j.

Definition b2j_all : gmap K (list nat) :=
  foldl chain_step ∅ (imap pair b).

(** The elements [__chain_b] calls popular, when [autojunk] is set and
    [b] has 200 elements or more. *)
Definition popular (autojunk : bool) (ix : K * list nat) : Prop :=
  autojunk = true ∧ 200 ≤ length b ∧ length b / 100 + 1 < length ix.2.

#[local] Instance popular_dec autojunk ix : Decision (popular autojunk ix).
Proof. unfold popular. apply _. Defined.

(** [__chain_b]: no [isjunk] is given, [bjunk] stays empty and the
    popular elements are deleted from [b2j]. *)
Definition chain_b (autojunk : bool) : gmap K (list nat) :=
  filter (fun ix => ¬ popular autojunk ix) b2j_all.

Definition bjunk : gset K := ∅.

Definition isbjunk (j : nat) : bool :=
  match b !! j with
  | Some y => bool_decide (key y ∈ bjunk)
  | None => false
  end.

Section FindLongestMatch.
Variable b2j : gmap K (list nat).
Variables alo ahi blo bhi : nat.

(** [j2len.get(j-1, 0)]; the key [-1] is never in the dictionary. *)
Definition j2lenget (j2len : gmap nat nat) (j : nat) : nat :=
  match j with
  | O => 0
  | S j' => default 0 (j2len !! j')
  end.

(** The loop over the indices of [a[i]] in [b]; [i - k + 1] is written
    [i + 1 - k], the size [k] of a match ending at [i] being at most
    [i + 1]. *)
Fixpoint scan_row (i : nat) (js : list nat) (j2len newj2len : gmap nat nat)
    (best : Match) : gmap nat nat * Match :=
  match js with
  | [] => (newj2len, best)
  | j :: js' =>
      if j <? blo then scan_row i js' j2len newj2len best
      else if bhi <=? j then (newj2len, best)
      else
        let k := j2lenget j2len j + 1 in
        let newj2len := <[j := k]> newj2len in
        let best := if best.2 <? k then (i + 1 - k, j + 1 - k, k)
                    else best in
        scan_row i js' j2len newj2len best
  end.

Definition scan_step (st : gmap nat nat * Match) (i : nat)
    : gmap nat nat * Match :=
  let js := match a !! i with
            | Some x => default [] (b2j !! key x)
            | None => []
            end in
  scan_row i js st.1 ∅ st.2.

Definition scan : Match :=
  (foldl scan_step (∅, (alo, blo, 0)) (seq alo (ahi - alo))).2.

(** The loops that extend the block to the left, over elements that
    are junk ([junk = true]) or not. *)
Fixpoint extend_left (junk : bool) (besti bestj bestsize : nat) : Match :=
  match besti, bestj with
  | S i', S j' =>
      if (alo <? besti) && (blo <? bestj)
         && Bool.eqb (isbjunk j') junk && elt_eq i' j'
      then extend_left junk i' j' (bestsize + 1)
      else (besti, bestj, bestsize)
  | _, _ => (besti, bestj, bestsize)
  end.

(** The loops that extend it to the right; [n] bounds the number of
    passes and is taken as [ahi - (besti + bestsize)], where the
    condition of the loop fails. *)
Fixpoint extend_right (junk : bool) (n : nat) (besti bestj bestsize : nat)
    : nat :=
  match n with
  | O => bestsize
  | S n' =>
      if (besti + bestsize <? ahi) && (bestj + bestsize <? bhi)
         && Bool.eqb (isbjunk (bestj + bestsize)) junk
         && elt_eq (besti + bestsize) (bestj + bestsize)
      then extend_right junk n' besti bestj (bestsize + 1)
      else bestsize
  end.

Definition find_longest_match : Match :=
  let '(besti, bestj, bestsize) := scan in
  let '(besti, bestj, bestsize) :=
    extend_left false besti bestj bestsize in
  let bestsize :=
    extend_right false (ahi - (besti + bestsize)) besti bestj bestsize in
  let '(besti, bestj, bestsize) :=
    extend_left true besti bestj bestsize in
  let bestsize :=
    extend_right true (ahi - (besti + bestsize)) besti bestj bestsize in
  (besti, bestj, bestsize).
End FindLongestMatch.

Section Blocks.
Variable b2j : gmap K (list nat).

(** The loop over [queue], whose head is the element [queue.pop()]
    takes; [None] when [fuel] passes do not empty it. *)
Fixpoint matching_loop (fuel : nat) (queue : list (nat * nat * nat * nat))
    (matching_blocks : list Match) : option (list Match) :=
  match queue with
  | [] => Some matching_blocks
  | (alo, ahi, blo, bhi) :: queue =>
      match fuel with
      | O => None
      | S fuel' =>
          let '(i, j, k) := find_longest_match b2j alo ahi blo bhi in
          if 0 <? k then
            let queue :=
              if (alo <? i) && (blo <? j) then (alo, i, blo, j) :: queue
              else queue in
            let queue :=
              if (i + k <? ahi) && (j + k <? bhi)
              then (i + k, ahi, j + k, bhi) :: queue
              else queue in
            matching_loop fuel' queue (matching_blocks ++ [(i, j, k)])
          else matching_loop fuel' queue matching_blocks
      end
  end.

(** The order of tuples. *)
Definition Match_le (x y : Match) : bool :=
  let '(i1, j1, k1) := x in
  let '(i2, j2, k2) := y in
  (i1 <? i2) || (i1 =? i2) && ((j1 <? j2) || (j1 =? j2) && (k1 <=? k2)).

(** The loop that collapses adjacent blocks; [cur] is [(i1, j1, k1)]. *)
Fixpoint collapse (cur : Match) (blocks : list Match)
    (non_adjacent : list Match) : list Match :=
  let '(i1, j1, k1) := cur in
  match blocks with
  | [] => if 0 <? k1 then non_adjacent ++ [cur] else non_adjacent
  | (i2, j2, k2) :: blocks' =>
      if (i1 + k1 =? i2) && (j1 + k1 =? j2)
      then collapse (i1, j1, k1 + k2) blocks' non_adjacent
      else collapse (i2, j2, k2) blocks'
             (if 0 <? k1 then non_adjacent ++ [cur] else non_adjacent)
  end.

Definition get_matching_blocks : option (list Match) :=
  let la := length a in
  let lb := length b in
  matching_blocks ← matching_loop (2 * la + 1) [(0, la, 0, lb)] [];
  let matching_blocks := sorted (fun x => x) Match_le matching_blocks in
  let non_adjacent := collapse (0, 0, 0) matching_blocks [] in
  Some (non_adjacent ++ [(la, lb, 0)]).

(** The loop of [get_opcodes]; the state is [(i, j, answer)]. *)
Definition opcode_step (st : nat * nat * list opcode) (m : Match)
    : nat * nat * list opcode :=
  let '(i, j, answer) := st in
  let '(ai, bj, size) := m in
  let answer :=
    if (i <? ai) && (j <? bj) then answer ++ [(replace, i, ai, j, bj)]
    else if i <? ai then answer ++ [(delete, i, ai, j, bj)]
    else if j <? bj then answer ++ [(insert, i, ai, j, bj)]
    else answer in
  let '(i, j) := (ai + size, bj + size) in
  let answer :=
    if 0 <? size then answer ++ [(equal, ai, i, bj, j)] else answer in
  (i, j, answer).

Definition get_opcodes : option (list opcode) :=
  blocks ← get_matching_blocks;
  Some (foldl opcode_step (0, 0, []) blocks).2.
End Blocks.

(** [SequenceMatcher(a=a, b=b).get_opcodes()]: [autojunk] is [True]. *)
Definition opcodes : option (list opcode) := get_opcodes (chain_b true).
End SequenceMatcher.

(** [l[i1:i2]] *)
Definition slice {A} (l : list A) (i1 i2 : nat) : list A :=
  take (i2 - i1) (drop i1 l).

End Difflib.

(** ** [str] methods *)

(** [c.isspace()] for a code point below 256. *)
Definition isspace (c : ascii) : bool :=
  let n := nat_of_ascii c in
  ((9 <=? n) && (n <=? 13) || (28 <=? n) && (n <=? 32)
   || (n =? 133) || (n =? 160))%nat.

Fixpoint lstrip (s : string) : string :=
  match s with
  | String c s' => if isspace c then lstrip s' else s
  | EmptyString => EmptyString
  end.

Definition rstrip (s : string) : string := String.rev (lstrip (String.rev s)).

(** [s.strip()] *)
Definition strip (s : string) : string := rstrip (lstrip s).

(** [s.split()]: the maximal runs of characters that are not whitespace;
    [cur] is the run being read. *)
Fixpoint split_from (cur : string) (s : string) : list string :=
  match s with
  | EmptyString => if String.eqb cur "" then [] else [cur]
  | String c s' =>
      if isspace c
      then (if String.eqb cur "" then split_from "" s'
            else cur :: split_from "" s')
      else split_from (cur +:+ String c "") s'
  end.

Definition split (s : string) : list string := split_from "" s.

(** [s.startswith(p)] *)
Definition startswith (s p : string) : bool := String.prefix p s.

(** [c.lower()] for a code point below 256. *)
Definition lower_char (c : ascii) : ascii :=
  let n := nat_of_ascii c in
  if ((65 <=? n) && (n <=? 90)
      || (192 <=? n) && (n <=? 222) && negb (n =? 215))%nat
  then ascii_of_nat (n + 32)
  else c.

(** [s.lower()] *)
Fixpoint lower (s : string) : string :=
  match s with
  | EmptyString => EmptyString
  | String c s' => String (lower_char c) (lower s')
  end.

(** ** Conversions and formatting the interpreter supplies *)

Class PyRuntime := {
  (** [int(s)] for a string *)
  int_of_str : string -> result Z;
  (** [float(s)] for a string *)
  float_of_str : string -> result float;
  (** [format(x, '.<p>g')] for a precision [p] *)
  format_g : nat -> float -> string;
  (** [str(x)] for a float *)
  float_repr : float -> string;
}.

Section Program.
Context `{!PyRuntime}.

(** [str(v)] *)
Definition py_str (v : value) : string :=
  match v with
  | VStr s => s
  | VInt z => pretty z
  | VFloat x => float_repr x
  end.

(** ** The parser: [parse_evtpdl] *)

(** What [values] holds: the tokens of the line and the line number. *)
Inductive raw :=
  | RStr (s : string)
  | RInt (z : Z).

Definition conv_str (e : raw) : result value :=
  match e with
  | RStr s => Ok (VStr s)
  | RInt z => Ok (VStr (pretty z))
  end.

Definition conv_int (e : raw) : result value :=
  match e with
  | RStr s => z ← int_of_str s; Ok (VInt z)
  | RInt z => Ok (VInt z)
  end.

Definition conv_float (e : raw) : result value :=
  match e with
  | RStr s => x ← float_of_str s; Ok (VFloat x)
  | RInt z => x ← Float64.of_int z; Ok (VFloat x)
  end.

Definition TYPES : list (raw -> result value) :=
  [conv_str; conv_int; conv_float; conv_float; conv_float; conv_int; conv_int;
   conv_float; conv_int; conv_int].

(** The constructor call on the unpacked list: ten positional arguments
    are required.  The argument
    types are those [TYPES] produces; the last case is not reached from the
    parser. *)
Definition Particle_new (args : list value) : result Particle :=
  match args with
  | [VStr n; VInt i; VFloat m; VFloat w; VFloat d; VInt c; VInt s; VFloat l;
     VInt p; VInt ln] => Ok (mkParticle n i m w d c s l p ln)
  | _ =>
      if bool_decide (length args = 10%nat)
      then Raise (TypeError "unexpected field type")
      else Raise (TypeError "__new__() missing required positional arguments")
  end.

(** The last two statements of the loop body. *)
Definition parse_particle (line : string) (nr : Z) : result Particle :=
  let values := (RStr <$> drop 3 (split line)) ++ [RInt nr] in
  args ← mapM (fun '(convert, e) => convert e) (zip TYPES values);
  Particle_new args.

(** A record of [logging.error]: the line number and the line. *)
Definition log_record : Type := Z * string.

(** The loop over the lines of the file, from line number [nr] on. *)
Fixpoint parse_loop (nr : Z) (lines : list string) (particles : list Particle)
    (log : list log_record) : list log_record * result (list Particle) :=
  match lines with
  | [] => (log, Ok particles)
  | line :: rest =>
      if startswith line "*" then parse_loop (nr + 1) rest particles log
      else if String.eqb (strip line) "" then
        parse_loop (nr + 1) rest particles log
      else
        let values := split line in
        match values with
        | [] => (log, Raise (IndexError "list index out of range"))
        | v0 :: _ =>
            if String.eqb v0 "end" then (log, Ok particles)
            else if negb (bool_decide (take 3 values = ["add"; "p"; "Particle"]))
            then parse_loop (nr + 1) rest particles (log ++ [(nr, line)])
            else
              match parse_particle line nr with
              | Ok p => parse_loop (nr + 1) rest (particles ++ [p]) log
              | Raise e => (log, Raise e)
              end
        end
  end.

(** ** Files and the log *)

Record world := mkWorld {
  files : gmap string (list string);
  opened : list string;
  logged : list log_record;
}.

Definition io (A : Type) : Type := world -> result A * world.

#[export] Instance io_ret : MRet io := fun A a w => (Ok a, w).
#[export] Instance io_bind : MBind io := fun A B f m w =>
  match m w with
  | (Ok a, w') => f a w'
  | (Raise e, w') => (Raise e, w')
  end.

Definition io_lift {A} (r : result A) : io A := fun w => (r, w).

Definition parse_evtpdl (name : string) : io (list Particle) := fun w =>
  match files w !! name with
  | None => (Raise (OSError "No such file or directory"), w)
  | Some lines =>
      let '(log, r) := parse_loop 0 lines [] [] in
      (r, mkWorld (files w) (opened w ++ [name]) (logged w ++ log))
  end.

(** ** The report: class [PDLDiffTable] *)

(** A [td] element and a [tr] element of the table body. *)
Record cell := mkCell { cell_class : string; cell_text : string }.
Record row := mkRow { row_class : string; cells : list cell }.

Record PDLDiffTable := mkTable {
  fileA : string;
  fileB : string;
  order : string;
  precision : Z;
  tolerance : float;
  _thead : list string;
  _tbody : list row;
  _lastparticle : option (string * Z);
}.

Definition PDLDiffTable__init__ (fileA fileB order : string)
    (tolerance : float) (precision : Z) : result PDLDiffTable :=
  let order := lower order in
  if negb (bool_decide (order ∈ ["id"; "name"; "a"; "b"]))
  then Raise (RuntimeError ("unknown sort order: " +:+ order +:+
                            ", choose one of id, name, A, B"))
  else
    Ok (mkTable fileA fileB order precision tolerance
          ["what"; "name"; "id"; "property"; "value in " +:+ fileA;
           "value in " +:+ fileB; "line in " +:+ fileA; "line in " +:+ fileB]
          [] None).

(** The format specification [.<precision>g]: a minus sign is no digit,
    so that a negative precision leaves the specification without one;
    the digits are read into a [Py_ssize_t], of 64 bits, and the float
    formatter takes a precision up to [INT_MAX]. *)
Definition format_value (self : PDLDiffTable) (v : value) : result value :=
  match v with
  | VFloat x =>
      if (precision self <? 0)%Z
      then Raise (ValueError "Format specifier missing precision")
      else if (9223372036854775807 <? precision self)%Z
      then Raise (ValueError "Too many decimal digits in format string")
      else if (2147483647 <? precision self)%Z
      then Raise (ValueError "precision too big")
      else Ok (VStr (format_g (Z.to_nat (precision self)) x))
  | _ => Ok v
  end.

Definition _add_row (self : PDLDiffTable) (what name : string) (id : Z)
    (property : string) (valueA valueB lineA lineB : value)
    : result PDLDiffTable :=
  valueA ← format_value self valueA;
  valueB ← format_value self valueB;
  let same := bool_decide (_lastparticle self = Some (name, id)) in
  let row :=
    if same
    then [VStr ""; VStr ""; VStr ""; VStr property; valueA; valueB; VStr "";
          VStr ""]
    else [VStr what; VStr name; VInt id; VStr property; valueA; valueB;
          lineA; lineB] in
  let rowclass := if same then "" else "newparticle" in
  let classes :=
    if same then [""; ""; ""; what; what; what; ""; ""]
    else replicate 8 what in
  let classes :=
    if String.eqb what "changed"
    then <[5%nat := "added"]> (<[4%nat := "removed"]> classes)
    else classes in
  let tr := mkRow rowclass
              (zip_with (fun r c => mkCell c (py_str r)) row classes) in
  Ok (mkTable (fileA self) (fileB self) (order self) (precision self)
        (tolerance self) (_thead self) (_tbody self ++ [tr])
        (Some (name, id))).

(** The second loop of the body of [_compare]. *)
Fixpoint _compare_changed (self : PDLDiffTable) (a b : Particle)
    (items : list (string * (value * value))) : result PDLDiffTable :=
  match items with
  | [] => Ok self
  | (property, (old, new)) :: items' =>
      self ← _add_row self "changed" (name a) (id a) property old new
               (VInt (line a)) (VInt (line b));
      _compare_changed self a b items'
  end.

(** [_compare] calls [diff] without a tolerance. *)
Fixpoint _compare_pairs (self : PDLDiffTable) (AB : list (Particle * Particle))
    : result PDLDiffTable :=
  match AB with
  | [] => Ok self
  | (a, b) :: AB' =>
      d ← diff a b default_tolerance;
      self ← (if bool_decide (d = [])
              then _add_row self "" (name a) (id a) "" (VStr "") (VStr "")
                     (VInt (line a)) (VInt (line b))
              else Ok self);
      self ← _compare_changed self a b d;
      _compare_pairs self AB'
  end.

Definition _compare (self : PDLDiffTable) (A B : list Particle)
    : result PDLDiffTable :=
  _compare_pairs self (zip A B).

(** [zip(p._fields[2:-1], p[2:])] *)
Definition shown_fields (p : Particle) : list (string * value) :=
  zip (drop 2 (but_last _fields)) (drop 2 (as_tuple p)).

Fixpoint _added_fields (self : PDLDiffTable) (b : Particle)
    (kvs : list (string * value)) : result PDLDiffTable :=
  match kvs with
  | [] => Ok self
  | (key, v) :: kvs' =>
      self ← _add_row self "added" (name b) (id b) key (VStr "--") v
               (VStr "--") (VInt (line b));
      _added_fields self b kvs'
  end.

Fixpoint _added (self : PDLDiffTable) (B : list Particle)
    : result PDLDiffTable :=
  match B with
  | [] => Ok self
  | b :: B' => self ← _added_fields self b (shown_fields b); _added self B'
  end.

Fixpoint _removed_fields (self : PDLDiffTable) (a : Particle)
    (kvs : list (string * value)) : result PDLDiffTable :=
  match kvs with
  | [] => Ok self
  | (key, v) :: kvs' =>
      self ← _add_row self "removed" (name a) (id a) key v (VStr "--")
               (VInt (line a)) (VStr "--");
      _removed_fields self a kvs'
  end.

Fixpoint _removed (self : PDLDiffTable) (A : list Particle)
    : result PDLDiffTable :=
  match A with
  | [] => Ok self
  | a :: A' =>
      self ← _removed_fields self a (shown_fields a); _removed self A'
  end.

(** ** Ordering by the other file: [_sort_by] *)

(** The loop over [A]: [acc] is the new list, [Bdict] what is left. *)
Fixpoint _sort_by_loop (A : list Particle) (Bdict : dict Z Particle)
    (acc : list Particle) : list Particle * dict Z Particle :=
  match A with
  | [] => (acc, Bdict)
  | a :: A' =>
      match dict_pop (id a) Bdict with
      | (Some b, Bdict') => _sort_by_loop A' Bdict' (acc ++ [b])
      | (None, Bdict') => _sort_by_loop A' Bdict' acc
      end
  end.

Definition _sort_by (A B : list Particle) : list Particle :=
  let Bdict := foldl (fun d b => dict_set (id b) b d) [] B in
  let '(B, Bdict) := _sort_by_loop A Bdict [] in
  let remaining := sorted line Z.leb (dict_values Bdict) in
  B ++ remaining.

(** ** Filling the table: [fill] *)

(** The body of the loop over the opcodes. *)
Definition fill_opcode (A B : list Particle) (self : PDLDiffTable)
    (op : Difflib.opcode) : result PDLDiffTable :=
  let '(tag, i1, i2, j1, j2) := op in
  self ← (if bool_decide (tag = Difflib.equal)
          then _compare self (Difflib.slice A i1 i2) (Difflib.slice B j1 j2)
          else Ok self);
  self ← (if bool_decide (tag ∈ [Difflib.delete; Difflib.replace])
          then _removed self (Difflib.slice A i1 i2)
          else Ok self);
  if bool_decide (tag ∈ [Difflib.insert; Difflib.replace])
  then _added self (Difflib.slice B j1 j2)
  else Ok self.

Fixpoint fill_opcodes (A B : list Particle) (self : PDLDiffTable)
    (ops : list Difflib.opcode) : result PDLDiffTable :=
  match ops with
  | [] => Ok self
  | op :: ops' => self ← fill_opcode A B self op; fill_opcodes A B self ops'
  end.

(** The two lists as [fill] hands them to the matcher. *)
Definition reorder (order : string) (A B : list Particle)
    : list Particle * list Particle :=
  if String.eqb order "name"
  then (sorted name String.leb A, sorted name String.leb B)
  else if String.eqb order "id"
  then (sorted id Z.leb A, sorted id Z.leb B)
  else if String.eqb order "a" then (A, _sort_by A B)
  else if String.eqb order "b" then (_sort_by B A, B)
  else (A, B).

Definition fill (self : PDLDiffTable) : io PDLDiffTable :=
  A ← parse_evtpdl (fileA self);
  B ← parse_evtpdl (fileB self);
  let '(A, B) := reorder (order self) A B in
  match Difflib.opcodes id A B with
  | Some ops => io_lift (fill_opcodes A B self ops)
  | None => io_lift (Raise (RuntimeError "matching loop out of fuel"))
  end.

(** The two statements of the script that build the report, for parsed
    arguments: the table is constructed, then filled. *)
Definition build_table (fileA fileB sort : string) (tolerance : float)
    (precision : Z) : io PDLDiffTable :=
  table ← io_lift (PDLDiffTable__init__ fileA fileB sort tolerance precision);
  fill table.

End Program.

(** ** A small runtime, to run the program on examples *)

(** Decimal digits, most significant first. *)
Fixpoint digits_value (s : string) (acc : Z) : option Z :=
  match s with
  | EmptyString => Some acc
  | String c s' =>
      let n := nat_of_ascii c in
      if ((48 <=? n) && (n <=? 57))%nat
      then digits_value s' (10 * acc + Z.of_nat (n - 48))
      else None
  end.

Definition decimal (s : string) : option Z :=
  match s with
  | EmptyString => None
  | String "-" (String c s' as t) => Z.opp <$> digits_value t 0
  | _ => digits_value s 0
  end.

(** It reads integers in decimal notation, and [nan] and [inf] as floats;
    formatted floats are left symbolic. *)
Definition small_runtime : PyRuntime := {|
  int_of_str s :=
    match decimal s with
    | Some z => Ok z
    | None => Raise (ValueError "invalid literal for int() with base 10")
    end;
  float_of_str s :=
    if String.eqb s "nan" then Ok Float64.nan
    else if String.eqb s "inf" then Ok Float64.inf
    else match decimal s with
         | Some z => Float64.of_int z
         | None => Raise (ValueError "could not convert string to float")
         end;
  format_g p x := "<float>";
  float_repr x := "<float>";
|}.

(** ** Records and tables used in the examples *)

Definition pi_plus : Particle :=
  mkParticle "pi+" 211 Float64.f_1_0 Float64.zero Float64.zero 3 0
    Float64.f_1_25 211 4.

(** [pi_plus] as the other file has it, with another mass. *)
Definition pi_plus_heavy : Particle :=
  mkParticle "pi+" 211 Float64.f_1_25 Float64.zero Float64.zero 3 0
    Float64.f_1_25 211 7.

(** A record whose mass was written [nan] in the file. *)
Definition nan_record : Particle :=
  mkParticle "X" 1 Float64.nan Float64.zero Float64.zero 0 0 Float64.zero 0 0.

(** The table [self] with another tolerance. *)
Definition with_tolerance (tol : float) (self : PDLDiffTable) : PDLDiffTable :=
  mkTable (fileA self) (fileB self) (order self) (precision self) tol
    (_thead self) (_tbody self) (_lastparticle self).

(** The texts of the cells of a table body, row by row. *)
Definition body_texts (self : PDLDiffTable) : list (list string) :=
  (fun tr => cell_text <$> cells tr) <$> _tbody self.

(** A file system without files, nothing opened, nothing logged. *)
Definition empty_world : world := mkWorld ∅ [] [].

Definition K_plus : Particle :=
  mkParticle "K+" 321 Float64.f_1_25 Float64.zero Float64.zero 3 0
    Float64.f_1_0 321 5.

(** ** The lines of a file, as the parser sees them *)

(** [enumerate(f)], counting from [nr]. *)
Fixpoint enumerate_from (nr : Z) (lines : list string) : list (Z * string) :=
  match lines with
  | [] => []
  | l :: rest => (nr, l) :: enumerate_from (nr + 1) rest
  end.

(** The elements before the first one at which [stop] holds. *)
Fixpoint take_until {A} (stop : A -> bool) (l : list A) : list A :=
  match l with
  | [] => []
  | x :: l' => if stop x then [] else x :: take_until stop l'
  end.

Definition is_comment (l : string) : bool := startswith l "*".
Definition is_blank (l : string) : bool := String.eqb (strip l) "".
Definition is_terminator (l : string) : bool :=
  bool_decide (head (split l) = Some "end").
Definition has_marker (l : string) : bool :=
  bool_decide (take 3 (split l) = ["add"; "p"; "Particle"]).

(** The numbered lines that are neither comments nor blank, up to the
    first of them that starts with [end]. *)
Definition active_lines (nr : Z) (lines : list string) : list (Z * string) :=
  take_until (fun nl => is_terminator nl.2)
    (filter (fun nl => is_comment nl.2 || is_blank nl.2 = false)
       (enumerate_from nr lines)).

(** The data lines among them, and the others. *)
Definition data_lines (nr : Z) (lines : list string) : list (Z * string) :=
  filter (fun nl => has_marker nl.2 = true) (active_lines nr lines).

(** A file with a comment, a blank line, two data lines around a line
    that is none, and a data line after the terminator. *)
Definition sample_lines : list string :=
  ["* name id mass width max_dM charge spin lifetime pythiaId";
   "   ";
   "add p Particle pi+ 211 1 0 0 3 0 7 211";
   "sets p Particle K+";
   "add p Particle K+ 321 2 0 0 3 0 nan 321";
   "end";
   "add p Particle x 1 1 1 1 1 1 1 1"].

(** ** The rows of the table body *)

(** The row that starts a record: all cells have the class [what]. *)
Definition head_row (what nm : string) (i : Z)
    (property va vb la lb : string) : row :=
  mkRow "newparticle"
    (mkCell what <$> [what; nm; pretty i; property; va; vb; la; lb]).

(** A further row of the same record: only the property and the two
    values are shown. *)
Definition cont_row (what property va vb : string) : row :=
  mkRow "" [mkCell "" ""; mkCell "" ""; mkCell "" ""; mkCell what property;
            mkCell what va; mkCell what vb; mkCell "" ""; mkCell "" ""].

(** The table [self] with one more row, for the record [(nm, i)]. *)
Definition push_row (self : PDLDiffTable) (tr : row) (nm : string) (i : Z)
    : PDLDiffTable :=
  mkTable (fileA self) (fileB self) (order self) (precision self)
    (tolerance self) (_thead self) (_tbody self ++ [tr]) (Some (nm, i)).

(** The table [self] with the rows [trs] more, the last for [last]. *)
Definition push_rows (self : PDLDiffTable) (trs : list row)
    (last : option (string * Z)) : PDLDiffTable :=
  mkTable (fileA self) (fileB self) (order self) (precision self)
    (tolerance self) (_thead self) (_tbody self ++ trs) last.

Section Rows.
Context `{!PyRuntime}.

(** A float at the precision of the table. *)
Definition fmt (self : PDLDiffTable) (x : float) : string :=
  format_g (Z.to_nat (precision self)) x.

(** The seven rows of a removed record, after a row for [last]. *)
Definition removed_rows (self : PDLDiffTable) (last : option (string * Z))
    (a : Particle) : list row :=
  [ if bool_decide (last = Some (name a, id a))
    then cont_row "removed" "mass" (fmt self (mass a)) "--"
    else head_row "removed" (name a) (id a) "mass" (fmt self (mass a)) "--"
           (pretty (line a)) "--";
    cont_row "removed" "width" (fmt self (width a)) "--";
    cont_row "removed" "max_dM" (fmt self (max_dM a)) "--";
    cont_row "removed" "charge" (pretty (charge a)) "--";
    cont_row "removed" "spin" (pretty (spin a)) "--";
    cont_row "removed" "lifetime" (fmt self (lifetime a)) "--";
    cont_row "removed" "pythiaId" (pretty (pythiaId a)) "--" ].

(** The seven rows of an added record, after a row for [last]. *)
Definition added_rows (self : PDLDiffTable) (last : option (string * Z))
    (b : Particle) : list row :=
  [ if bool_decide (last = Some (name b, id b))
    then cont_row "added" "mass" "--" (fmt self (mass b))
    else head_row "added" (name b) (id b) "mass" "--" (fmt self (mass b))
           "--" (pretty (line b));
    cont_row "added" "width" "--" (fmt self (width b));
    cont_row "added" "max_dM" "--" (fmt self (max_dM b));
    cont_row "added" "charge" "--" (pretty (charge b));
    cont_row "added" "spin" "--" (pretty (spin b));
    cont_row "added" "lifetime" "--" (fmt self (lifetime b));
    cont_row "added" "pythiaId" "--" (pretty (pythiaId b)) ].

(** The rows of a list of records, each by [rows last p]. *)
Fixpoint records_rows (rows : option (string * Z) -> Particle -> list row)
    (last : option (string * Z)) (P : list Particle) : list row :=
  match P with
  | [] => []
  | p :: P' => rows last p ++ records_rows rows (Some (name p, id p)) P'
  end.

(** The record the last row is for, after the rows of [P]. *)
Definition last_record (last : option (string * Z)) (P : list Particle)
    : option (string * Z) :=
  foldl (fun _ p => Some (name p, id p)) last P.
End Rows.

(** The text of the cell in column [n] of a row. *)
Definition column (n : nat) (tr : row) : option string :=
  cell_text <$> cells tr !! n.

(** A table for the two files [A.pdl] and [B.pdl]. *)
Definition sample_table : PDLDiffTable :=
  mkTable "A.pdl" "B.pdl" "name" 5 default_tolerance
    ["what"; "name"; "id"; "property"; "value in A.pdl"; "value in B.pdl";
     "line in A.pdl"; "line in B.pdl"] [] None.

(** ** Windows and blocks of the matcher *)

(** The block [m] lies in the window [a[alo:ahi]], [b[blo:bhi]]. *)
Definition in_window (alo ahi blo bhi : nat) (m : Difflib.Match) : Prop :=
  let '(i, j, k) := m in
  (alo <= i /\ i + k <= ahi /\ blo <= j /\ j + k <= bhi)%nat.

(** The lengths held by [j2len] are at most [bound], and at most the
    distance of their index to [blo]. *)
Definition j2len_bounded (blo bound : nat) (j2len : gmap nat nat) : Prop :=
  forall j k, j2len !! j = Some k -> (k <= bound /\ k <= j + 1 - blo)%nat.

(** A window [(alo, ahi, blo, bhi)] of the queue, and the one a block
    covers. *)
Definition region : Type := nat * nat * nat * nat.

Definition block_region (m : Difflib.Match) : region :=
  let '(i, j, k) := m in (i, i + k, j, j + k)%nat.

(** [r1] ends, in both lists, where [r2] starts or before. *)
Definition before (r1 r2 : region) : Prop :=
  let '(_, ahi1, _, bhi1) := r1 in
  let '(alo2, _, blo2, _) := r2 in
  (ahi1 <= alo2 /\ bhi1 <= blo2)%nat.

Definition apart (r1 r2 : region) : Prop := before r1 r2 \/ before r2 r1.

Definition inside (r R : region) : Prop :=
  let '(alo, ahi, blo, bhi) := r in
  let '(Alo, Ahi, Blo, Bhi) := R in
  (Alo <= alo /\ ahi <= Ahi /\ Blo <= blo /\ bhi <= Bhi)%nat.

(** A window that is not reversed and ends within the lengths [la], [lb]. *)
Definition region_ok (la lb : nat) (r : region) : Prop :=
  let '(alo, ahi, blo, bhi) := r in
  (alo <= ahi /\ ahi <= la /\ blo <= bhi /\ bhi <= lb)%nat.

(** A block that is not empty and ends within the lengths [la], [lb]. *)
Definition block_ok (la lb : nat) (m : Difflib.Match) : Prop :=
  let '(i, j, k) := m in (0 < k /\ i + k <= la /\ j + k <= lb)%nat.

(** [R] holds of every element and every later element of the list. *)
Fixpoint pairwise {A} (R : A -> A -> Prop) (l : list A) : Prop :=
  match l with
  | [] => True
  | x :: l' => Forall (R x) l' /\ pairwise R l'
  end.

(** What the windows of the queue leave to do: each one is popped once,
    and each element of [a] in it can start one block. *)
Definition weight (queue : list region) : nat :=
  foldr (fun r n => let '(alo, ahi, _, _) := r in 2 * (ahi - alo) + 1 + n)%nat
    0%nat queue.

(** The blocks follow each other from [(i0, j0)] and end at [(ie, je)]. *)
Fixpoint chain (i0 j0 : nat) (blocks : list Difflib.Match) (ie je : nat)
    : Prop :=
  match blocks with
  | [] => i0 = ie /\ j0 = je
  | (i, j, k) :: blocks' =>
      (i0 <= i)%nat /\ (j0 <= j)%nat /\
      chain (i + k) (j + k) blocks' ie je
  end.

(** ** The spans of the opcodes *)

(** Each opcode starts, in both lists, where the one before it ends: the
    spans do not overlap, leave no gap and keep the order, from [(i, j)]
    to [(ie, je)]. *)
Fixpoint spans_chain (i j : nat) (ops : list Difflib.opcode) (ie je : nat)
    : Prop :=
  match ops with
  | [] => i = ie /\ j = je
  | (_, i1, i2, j1, j2) :: ops' =>
      i1 = i /\ j1 = j /\ (i1 <= i2)%nat /\ (j1 <= j2)%nat /\
      spans_chain i2 j2 ops' ie je
  end.

(** The records of [a] an opcode stands for: those [fill] compares or
    reports as removed. *)
Definition a_span {E} (a : list E) (op : Difflib.opcode) : list E :=
  let '(tag, i1, i2, _, _) := op in
  if bool_decide (tag ∈ [Difflib.equal; Difflib.delete; Difflib.replace])
  then Difflib.slice a i1 i2 else [].

(** The records of [b] an opcode stands for: those [fill] compares or
    reports as added. *)
Definition b_span {E} (b : list E) (op : Difflib.opcode) : list E :=
  let '(tag, _, _, j1, j2) := op in
  if bool_decide (tag ∈ [Difflib.equal; Difflib.insert; Difflib.replace])
  then Difflib.slice b j1 j2 else [].

(** ** What the matcher finds *)

Section LongestMatch.
Local Open Scope nat_scope.
Context {E K : Type} `{Countable K} (key : E -> K) (a b : list E).

(** [b2j] maps every key to the indices of [b] that hold it, in
    increasing order: no element of [b] is left out. *)
Definition b2j_complete (b2j : gmap K (list nat)) : Prop :=
  forall k,
    StronglySorted lt (default [] (b2j !! k)) /\
    forall j, j ∈ default [] (b2j !! k) <-> key <$> b !! j = Some k.

(** No key is popular: [b] is short, or no key is held by more than
    [len(b) // 100 + 1] elements. *)
Definition no_popular : Prop :=
  length b < 200 \/
  forall k, length (filter (fun y => key y = k) b) <= length b / 100 + 1.

(** [a[i:i+k] == b[j:j+k]] *)
Definition matches (m : Difflib.Match) : Prop :=
  let '(i, j, k) := m in
  forall d, d < k -> Difflib.elt_eq key a b (i + d) (j + d) = true.

(** The block the documentation of [find_longest_match] promises: a
    matching block of the window, as long as any other, and among those of
    its length the one that starts earliest in [a], and of those the one
    that starts earliest in [b]. *)
Definition is_longest_match (alo ahi blo bhi : nat) (m : Difflib.Match)
    : Prop :=
  in_window alo ahi blo bhi m /\ matches m /\
  forall m', in_window alo ahi blo bhi m' -> matches m' ->
    m'.2 <= m.2 /\
    (m'.2 = m.2 ->
     m.1.1 <= m'.1.1 /\ (m.1.1 = m'.1.1 -> m.1.2 <= m'.1.2)).

(** The length of the longest match that ends at [a[i]] and [b[j]] and
    starts at [alo], [blo] or later. *)
Fixpoint run_length (alo blo i j : nat) : nat :=
  if (alo <=? i) && (blo <=? j) && Difflib.elt_eq key a b i j
  then S (match i, j with
          | S i', S j' => run_length alo blo i' j'
          | _, _ => 0
          end)
  else 0.
End LongestMatch.

(** ** The state of the scan of [find_longest_match] *)

Section ScanState.
Local Open Scope nat_scope.
Context {E K : Type} `{Countable K} (key : E -> K) (a b : list E).
Context (alo ahi blo bhi : nat).

(** The length of the match that ends just before [a[i]] and [b[j]]. *)
Definition prev_run (i j : nat) : nat :=
  match i, j with
  | S i', S j' => run_length key a b alo blo i' j'
  | _, _ => 0
  end.

(** The scan has been through the pair [(i', j')] when it is in row [i],
    before column [lo]. *)
Definition processed (i lo i' j' : nat) : Prop :=
  i' < i \/ (i' = i /\ j' < lo).

(** [j2len], at the start of row [i]. *)
Definition pre_inv (i : nat) (j2len : gmap nat nat) : Prop :=
  forall j, blo <= j < bhi -> Difflib.j2lenget j2len j = prev_run i j.

(** [newj2len], in row [i] before column [lo]. *)
Definition row_inv (i lo : nat) (newj2len : gmap nat nat) : Prop :=
  forall j,
    newj2len !! j
    = if (blo <=? j) && (j <? bhi) && (j <? lo)
         && Difflib.elt_eq key a b i j
      then Some (run_length key a b alo blo i j) else None.

(** The best block, in row [i] before column [lo]: a match of the window
    that ends at a pair the scan has been through, at least as long as
    the match that ends at any such pair, and the first of that length. *)
Definition best_inv (i lo : nat) (best : Difflib.Match) : Prop :=
  in_window alo ahi blo bhi best /\ matches key a b best /\
  (best.2 = 0 -> best.1.1 = alo /\ best.1.2 = blo) /\
  (0 < best.2 ->
   best.1.1 + best.2 <= i + 1 /\
   (best.1.1 + best.2 = i + 1 -> best.1.2 + best.2 <= lo)) /\
  forall i' j',
    processed i lo i' j' -> alo <= i' -> blo <= j' < bhi ->
    Difflib.elt_eq key a b i' j' = true ->
    run_length key a b alo blo i' j' <= best.2 /\
    (run_length key a b alo blo i' j' = best.2 ->
     best.1.1 + best.2 <= i' + 1 /\
     (best.1.1 + best.2 = i' + 1 -> best.1.2 + best.2 <= j' + 1)).
End ScanState.

(** A file B in which the record of id 211 stands 200 times. *)
Definition crowded_B : list Particle := replicate 200 pi_plus.

(** ** Closeness of two values, as a formula *)

(** [|a - b| <= max(tol, |tol * a|, |tol * b|)], in binary64. *)
Definition close_floats (tol a b : float) : bool :=
  Float64.leb (Float64.abs (Float64.sub a b))
    (Float64.max
       (Float64.max tol (Float64.abs (Float64.mul tol a)))
       (Float64.abs (Float64.mul tol b))).

(** [|a - b| <= max(tol, tol * max(|a|, |b|))], in binary64. *)
Definition close_floats_relative (tol a b : float) : bool :=
  Float64.leb (Float64.abs (Float64.sub a b))
    (Float64.max tol
       (Float64.mul tol (Float64.max (Float64.abs a) (Float64.abs b)))).

(** Two values of a field are close: floats by [close], the others when
    they are equal. *)
Definition close_values (close : float -> float -> bool) (x y : value)
    : bool :=
  match x, y with
  | VFloat a, VFloat b => close a b
  | _, _ => py_eq x y
  end.

(** The fields [diff] goes through, with the two values of each. *)
Definition compared_fields (self other : Particle)
    : list (string * (value * value)) :=
  zip (but_last _fields) (zip (as_tuple self) (as_tuple other)).

(** Those of them whose values are not close. *)
Definition fields_not_close (close : float -> float -> bool)
    (self other : Particle) : list (string * (value * value)) :=
  filter (fun fxy => close_values close fxy.2.1 fxy.2.2 = false)
    (compared_fields self other).

(** No float field of the record is an infinity. *)
Definition no_infinity (p : Particle) : bool :=
  negb (Float64.is_infinity (mass p)) && negb (Float64.is_infinity (width p))
  && negb (Float64.is_infinity (max_dM p))
  && negb (Float64.is_infinity (lifetime p)).

(** The place of a float that is not a NaN in the order of [SFcompare]:
    the class, then the exponent, then the mantissa. *)
Definition order_key (x : float) : Z * Z * Z :=
  match x with
  | S754_infinity true => (-2, 0, 0)
  | S754_finite true m e => (-1, - e, - Zpos m)
  | S754_zero _ | S754_nan => (0, 0, 0)
  | S754_finite false m e => (1, e, Zpos m)
  | S754_infinity false => (2, 0, 0)
  end.

(** The order of triples. *)
Definition key_compare (x y : Z * Z * Z) : comparison :=
  match Z.compare x.1.1 y.1.1 with
  | Eq => match Z.compare x.1.2 y.1.2 with
          | Eq => Z.compare x.2 y.2
          | c => c
          end
  | c => c
  end.

(** [pi_plus] with an infinite lifetime. *)
Definition pi_plus_stable : Particle :=
  mkParticle "pi+" 211 Float64.f_1_0 Float64.zero Float64.zero 3 0
    Float64.inf 211 4.

(** ** The parts of [_sort_by] *)

(** The elements of a list without their later repetitions. *)
Fixpoint first_occurrences {A} `{EqDecision A} (l : list A) : list A :=
  match l with
  | [] => []
  | x :: l' => x :: filter (fun y => y <> x) (first_occurrences l')
  end.

(** The dictionary [{b.id: b for b in B}]. *)
Definition Bdict (B : list Particle) : dict Z Particle :=
  foldl (fun d b => dict_set (id b) b d) [] B.

(** The first record of [B] with the id [i]. *)
Fixpoint find_id (i : Z) (B : list Particle) : option Particle :=
  match B with
  | [] => None
  | b :: B' => if decide (i = id b) then Some b else find_id i B'
  end.

(** A data line with a tenth field. *)
Definition long_line : string :=
  "add p Particle pi+ 211 1 0 0 3 0 7 211 99".

(** The record read from it, wherever it stands: its line is 99. *)
Definition long_record : Particle :=
  mkParticle "pi+" 211 Float64.f_1_0 Float64.zero Float64.zero 3 0
    (S754_finite false 7881299347898368 (-50)) 211 99.

(** ** A well-formed table *)

(** The header has eight columns and every row of the body eight cells. *)
Definition rows_ok (self : PDLDiffTable) : Prop :=
  length (_thead self) = 8%nat /\
  Forall (fun tr => length (cells tr) = 8%nat) (_tbody self).

(** [f] keeps a table well-formed whenever it returns one. *)
Definition keeps_rows_ok (f : PDLDiffTable -> result PDLDiffTable) : Prop :=
  forall self t, rows_ok self -> f self = Ok t -> rows_ok t.

(** A second file: the pion with another mass, and a muon. *)
Definition other_lines : list string :=
  ["add p Particle pi+ 211 2 0 0 3 0 7 211";
   "add p Particle mu- 13 1 0 0 -3 1 7 13";
   "end"].

(** A file system with the two files. *)
Definition sample_world : world :=
  mkWorld {["A.pdl" := sample_lines; "B.pdl" := other_lines]} [] [].

(** ** The rows of compared records *)

(** The row that starts a changed record: the old value has the class
    [removed], the new one [added]. *)
Definition changed_head_row (nm : string) (i : Z)
    (property va vb la lb : string) : row :=
  mkRow "newparticle"
    [mkCell "changed" "changed"; mkCell "changed" nm;
     mkCell "changed" (pretty i); mkCell "changed" property;
     mkCell "removed" va; mkCell "added" vb; mkCell "changed" la;
     mkCell "changed" lb].

(** A further row of a changed record. *)
Definition changed_cont_row (property va vb : string) : row :=
  mkRow "" [mkCell "" ""; mkCell "" ""; mkCell "" "";
            mkCell "changed" property; mkCell "removed" va;
            mkCell "added" vb; mkCell "" ""; mkCell "" ""].

(** What [diff] returns with the default tolerance. *)
Definition diff_of (a b : Particle) : dict string (value * value) :=
  match diff a b default_tolerance with
  | Ok d => d
  | Raise _ => []
  end.

Section CompareRows.
Context `{!PyRuntime}.

(** The text of a value in the table. *)
Definition shown (self : PDLDiffTable) (v : value) : string :=
  match v with
  | VFloat x => fmt self x
  | _ => py_str v
  end.

(** The rows of a pair of records with the differences [d], after a row
    for [last]: one row without property when there is no difference, one
    row per difference otherwise. *)
Definition pair_rows (self : PDLDiffTable) (last : option (string * Z))
    (a b : Particle) (d : dict string (value * value)) : list row :=
  match d with
  | [] =>
      [ if bool_decide (last = Some (name a, id a))
        then cont_row "" "" "" ""
        else head_row "" (name a) (id a) "" "" "" (pretty (line a))
               (pretty (line b)) ]
  | (property, (old, new)) :: d' =>
      (if bool_decide (last = Some (name a, id a))
       then changed_cont_row property (shown self old) (shown self new)
       else changed_head_row (name a) (id a) property (shown self old)
              (shown self new) (pretty (line a)) (pretty (line b)))
      :: ((fun pon => changed_cont_row pon.1 (shown self pon.2.1)
                        (shown self pon.2.2)) <$> d')
  end.

(** The rows of a list of pairs. *)
Fixpoint compare_rows (self : PDLDiffTable) (last : option (string * Z))
    (AB : list (Particle * Particle)) : list row :=
  match AB with
  | [] => []
  | (a, b) :: AB' =>
      pair_rows self last a b (diff_of a b)
      ++ compare_rows self (Some (name a, id a)) AB'
  end.
End CompareRows.

(** ** A file compared with itself *)

(** No float field of the record is a NaN. *)
Definition has_no_nan (p : Particle) : bool :=
  negb (Float64.is_nan (mass p)) && negb (Float64.is_nan (width p))
  && negb (Float64.is_nan (max_dM p)) && negb (Float64.is_nan (lifetime p)).

(** The row of a record that is the same in both files. *)
Definition unchanged_row (a : Particle) : row :=
  head_row "" (name a) (id a) "" "" "" (pretty (line a)) (pretty (line a)).

(** The table [__init__] returns for a valid order. *)
Definition new_table (fA fB sort : string) (tol : float) (prec : Z)
    : PDLDiffTable :=
  mkTable fA fB (lower sort) prec tol
    ["what"; "name"; "id"; "property"; "value in " +:+ fA;
     "value in " +:+ fB; "line in " +:+ fA; "line in " +:+ fB]
    [] None.

(** ** The rows of a filled table *)

Section TableRows.
Context `{!PyRuntime}.

(** The rows the body of the loop of [fill] adds for one opcode, after the
    rows [st.1] of which the last is for the record [st.2]: the rows of
    [_compare] for an equal span, those of [_removed] for a deleted one,
    those of [_added] for an inserted one, and for a replaced span those
    of [_removed] followed by those of [_added]. *)
Definition opcode_rows (self : PDLDiffTable) (A B : list Particle)
    (st : list row * option (string * Z)) (op : Difflib.opcode)
    : list row * option (string * Z) :=
  let '(trs, last) := st in
  let '(tag, i1, i2, j1, j2) := op in
  let As := Difflib.slice A i1 i2 in
  let Bs := Difflib.slice B j1 j2 in
  match tag with
  | Difflib.equal =>
      (trs ++ compare_rows self last (zip As Bs),
       last_record last (zip As Bs).*1)
  | Difflib.delete =>
      (trs ++ records_rows (removed_rows self) last As, last_record last As)
  | Difflib.insert =>
      (trs ++ records_rows (added_rows self) last Bs, last_record last Bs)
  | Difflib.replace =>
      (trs ++ records_rows (removed_rows self) last As
           ++ records_rows (added_rows self) (last_record last As) Bs,
       last_record (last_record last As) Bs)
  end.

(** The rows of a list of opcodes, and the record the last one is for. *)
Definition table_rows (self : PDLDiffTable) (A B : list Particle)
    (ops : list Difflib.opcode) : list row * option (string * Z) :=
  foldl (opcode_rows self A B) ([], _lastparticle self) ops.
End TableRows.

(** ** The lists [fill] sorts *)

(** [l'] is [l] sorted by [key] as [list.sort] does it: a permutation of
    [l], ascending in the key, in which the elements of equal key keep
    the order they have in [l]. *)
Definition stable_sort_of {A K : Type} `{EqDecision K} (key : A -> K)
    (le : K -> K -> Prop) (l l' : list A) : Prop :=
  l' ≡ₚ l /\
  StronglySorted (fun u v => le (key u) (key v)) l' /\
  forall k, filter (fun x => key x = k) l' = filter (fun x => key x = k) l.

(** ** The spans the matcher calls equal *)

Section EqualSpans.
Local Open Scope nat_scope.
Context {E K : Type} `{Countable K} (key : E -> K) (a b : list E).

(** [b2j] holds, under a key, only indices of [b] with this key. *)
Definition b2j_sound (b2j : gmap K (list nat)) : Prop :=
  forall k j, j ∈ default [] (b2j !! k) -> key <$> b !! j = Some k.

(** [j2len], at the start of row [i]: a length held for [j] is that of a
    match that ends at [a[i-1]] and [b[j]]. *)
Definition j2len_sound (i : nat) (j2len : gmap nat nat) : Prop :=
  forall j k,
    j2len !! j = Some k ->
    0 < k /\ k <= i /\ k <= j + 1 /\ matches key a b (i - k, j + 1 - k, k).

(** The two spans of an [equal] opcode have the same length and hold the
    same keys in the same order. *)
Definition equal_span_ok (op : Difflib.opcode) : Prop :=
  let '(tag, i1, i2, j1, j2) := op in
  tag = Difflib.equal ->
  i2 - i1 = j2 - j1 /\
  length (Difflib.slice a i1 i2) = i2 - i1 /\
  length (Difflib.slice b j1 j2) = j2 - j1 /\
  key <$> Difflib.slice a i1 i2 = key <$> Difflib.slice b j1 j2.
End EqualSpans.

(** ** The differences seen from the other record *)

(** The differences with the two values of every field exchanged. *)
Definition swapped (d : dict string (value * value))
    : dict string (value * value) :=
  (fun fxy => (fxy.1, (fxy.2.2, fxy.2.1))) <$> d.

(** ** Elements that both lists hold *)

Section Aligned.
Local Open Scope nat_scope.
Context {E K : Type} `{Countable K} (key : E -> K) (a b : list E).

(** The elements that both lists hold come in the same order in both. *)
Definition in_order : Prop :=
  forall i i' j j',
    Difflib.elt_eq key a b i j = true -> Difflib.elt_eq key a b i' j' = true ->
    i < i' -> j < j'.

(** The pair of [a[i]] and [b[j]] is a pair of the block [m], is in the
    window [r], is a pair of the two spans of the [equal] opcode [op]. *)
Definition in_block (i j : nat) (m : Difflib.Match) : Prop :=
  let '(bi, bj, k) := m in bi <= i < bi + k /\ j = bj + (i - bi).

Definition in_region (i j : nat) (r : region) : Prop :=
  let '(alo, ahi, blo, bhi) := r in alo <= i < ahi /\ blo <= j < bhi.

Definition in_equal_span (i j : nat) (op : Difflib.opcode) : Prop :=
  let '(tag, i1, i2, j1, j2) := op in
  tag = Difflib.equal /\ i1 <= i < i2 /\ j = j1 + (i - i1) /\
  i2 - i1 = j2 - j1.
End Aligned.

(** * Properties *)

(** ** Facts on floats *)

Lemma Float64_eqb_refl (x : float) :
  Float64.is_nan x = false -> Float64.eqb x x = true.
Proof.
  unfold Float64.eqb, SFeqb.
  destruct x as [s|s| |s m e]; simpl; try done; intros _; destruct s; simpl;
    rewrite ?Z.compare_refl, ?Pos.compare_refl, ?Pos.compare_cont_refl;
    try reflexivity.
Qed.

(** ** Reflexivity of [diff] *)

Lemma isclose_refl_float (tolerance x : float) :
  Float64.ltb tolerance Float64.zero = false ->
  Float64.is_nan x = false ->
  isclose tolerance (VFloat x) (VFloat x) = Ok true.
Proof.
  intros Htol Hx. simpl. unfold math_isclose.
  by rewrite Htol, Float64_eqb_refl.
Qed.

(** C3, as stated: [diff(r, r, tolerance)] is empty for every record and
    every tolerance.  It is not: a record with a NaN in a float field
    differs from itself in that field. *)
Lemma diff_self_not_always_empty :
  ~ (forall (r : Particle) (tolerance : float), diff r r tolerance = Ok []).
Proof.
  intros Hall. specialize (Hall nan_record default_tolerance).
  vm_compute in Hall. discriminate Hall.
Qed.

(** C3, amended: for every record whose float fields hold no NaN and every
    tolerance that is not negative, [diff(r, r, tolerance)] returns the
    empty mapping. *)
Theorem diff_self_empty (r : Particle) (tolerance : float) :
  Float64.ltb tolerance Float64.zero = false ->
  Float64.is_nan (mass r) = false ->
  Float64.is_nan (width r) = false ->
  Float64.is_nan (max_dM r) = false ->
  Float64.is_nan (lifetime r) = false ->
  diff r r tolerance = Ok [].
Proof.
  intros Htol Hm Hw Hd Hl.
  unfold diff. cbn [as_tuple _fields but_last length Nat.sub take zip zip_with
                    diff_comprehension].
  rewrite !isclose_refl_float by done.
  cbn [isclose py_eq]. rewrite String.eqb_refl, !Z.eqb_refl.
  reflexivity.
Qed.

Lemma diff_self_empty_witness : diff pi_plus pi_plus default_tolerance = Ok [].
Proof. apply diff_self_empty; reflexivity. Defined.

(** ** The tolerance of the table *)

Lemma format_value_with_tolerance `{!PyRuntime} tol self v :
  format_value (with_tolerance tol self) v = format_value self v.
Proof. reflexivity. Qed.

Lemma _add_row_with_tolerance `{!PyRuntime} tol self what name id property
    valueA valueB lineA lineB :
  _add_row (with_tolerance tol self) what name id property valueA valueB
    lineA lineB
  = t ← _add_row self what name id property valueA valueB lineA lineB;
    Ok (with_tolerance tol t).
Proof.
  unfold _add_row. rewrite !format_value_with_tolerance.
  destruct (format_value self valueA) as [vA|e]; [|reflexivity].
  destruct (format_value self valueB) as [vB|e]; [|reflexivity].
  reflexivity.
Qed.

Lemma _compare_changed_with_tolerance `{!PyRuntime} tol a b items self :
  _compare_changed (with_tolerance tol self) a b items
  = t ← _compare_changed self a b items; Ok (with_tolerance tol t).
Proof.
  revert self. induction items as [|[property [old new]] items IH]; intros self.
  - reflexivity.
  - cbn [_compare_changed]. rewrite _add_row_with_tolerance.
    destruct (_add_row self _ _ _ _ _ _ _ _) as [t|e]; cbn [mbind result_bind].
    + apply IH.
    + reflexivity.
Qed.

(** Whatever tolerance the table holds, [_compare] adds the same rows. *)
Lemma _compare_with_tolerance `{!PyRuntime} tol A B self :
  _compare (with_tolerance tol self) A B
  = t ← _compare self A B; Ok (with_tolerance tol t).
Proof.
  unfold _compare. generalize (zip A B) as AB. intros AB. revert self.
  induction AB as [|[a b] AB IH]; intros self.
  - reflexivity.
  - cbn [_compare_pairs].
    destruct (diff a b default_tolerance) as [d|e]; cbn [mbind result_bind];
      [|reflexivity].
    case_bool_decide.
    + rewrite _add_row_with_tolerance.
      destruct (_add_row self _ _ _ _ _ _ _ _) as [t|e];
        cbn [mbind result_bind]; [|reflexivity].
      rewrite _compare_changed_with_tolerance.
      destruct (_compare_changed t a b d) as [t'|e];
        cbn [mbind result_bind]; [apply IH|reflexivity].
    + cbn [mbind result_bind]. rewrite _compare_changed_with_tolerance.
      destruct (_compare_changed self a b d) as [t'|e];
        cbn [mbind result_bind]; [apply IH|reflexivity].
Qed.

(** C1: the tolerance given at construction should be the one [_compare]
    detects changes with.  The code does not do this: a table constructed
    with tolerance 0.5 holds that tolerance, the masses 1.0 and 1.25 of two
    records with the same id are close under it, so that [diff] with the
    tolerance of the table finds nothing, and [_compare] still reports the
    mass as changed, since it calls [diff] with the default 1e-5. *)
Theorem compare_ignores_table_tolerance :
  exists t t',
    PDLDiffTable__init__ "A.pdl" "B.pdl" "name" Float64.f_0_5 5 = Ok t /\
    tolerance t = Float64.f_0_5 /\
    diff pi_plus pi_plus_heavy (tolerance t) = Ok [] /\
    @_compare small_runtime t [pi_plus] [pi_plus_heavy] = Ok t' /\
    body_texts t'
    = [["changed"; "pi+"; "211"; "mass"; "<float>"; "<float>"; "4"; "7"]].
Proof. do 2 eexists. repeat split; vm_compute; reflexivity. Qed.

(** ** Construction of the table *)

(** C7: when the lower-cased ordering mode is one of [id], [name], [a],
    [b], construction succeeds and stores it; otherwise construction raises
    a [RuntimeError] whose message names the (lower-cased) value and the
    valid choices, and the script fails there with the file system
    untouched: no file has been opened and nothing has been logged. *)
Theorem init_checks_order `{!PyRuntime} (fileA fileB sort : string)
    (tol : float) (prec : Z) :
  (bool_decide (lower sort ∈ ["id"; "name"; "a"; "b"]) = true ->
   exists t, PDLDiffTable__init__ fileA fileB sort tol prec = Ok t /\
             order t = lower sort /\ tolerance t = tol /\
             precision t = prec /\ _tbody t = []) /\
  (bool_decide (lower sort ∈ ["id"; "name"; "a"; "b"]) = false ->
   let e := RuntimeError ("unknown sort order: " +:+ lower sort +:+
                          ", choose one of id, name, A, B") in
   PDLDiffTable__init__ fileA fileB sort tol prec = Raise e /\
   forall w, build_table fileA fileB sort tol prec w = (Raise e, w)).
Proof.
  split; intros Hsort.
  - eexists. unfold PDLDiffTable__init__. rewrite Hsort. simpl.
    repeat split; reflexivity.
  - intros e. unfold build_table, PDLDiffTable__init__. rewrite Hsort. simpl.
    split; [reflexivity|]. intros w. reflexivity.
Qed.

Lemma init_checks_order_witness :
  (exists t, @PDLDiffTable__init__ "A.pdl" "B.pdl" "Name" default_tolerance 5
             = Ok t /\
             order t = "name" /\ tolerance t = default_tolerance /\
             precision t = 5 /\ _tbody t = []) /\
  (let e := RuntimeError
              "unknown sort order: line, choose one of id, name, A, B" in
   PDLDiffTable__init__ "A.pdl" "B.pdl" "Line" default_tolerance 5 = Raise e /\
   forall w, @build_table small_runtime "A.pdl" "B.pdl" "Line"
               default_tolerance 5 w = (Raise e, w)).
Proof.
  split.
  - apply (proj1 (@init_checks_order small_runtime "A.pdl" "B.pdl" "Name"
                    default_tolerance 5)).
    reflexivity.
  - apply (proj2 (@init_checks_order small_runtime "A.pdl" "B.pdl" "Line"
                    default_tolerance 5)).
    reflexivity.
Defined.

(** ** [sorted] *)

Section SortedFacts.
Context {A K : Type} (key : A -> K) (le : K -> K -> bool).

Lemma insert_sorted_perm (x : A) (l : list A) :
  insert_sorted key le x l ≡ₚ x :: l.
Proof.
  induction l as [|y l IH]; simpl; [done|].
  destruct (le (key x) (key y)); [done|].
  rewrite IH. apply Permutation_swap.
Qed.

Lemma sorted_perm (l : list A) : sorted key le l ≡ₚ l.
Proof.
  induction l as [|x l IH]; simpl; [done|].
  by rewrite insert_sorted_perm, IH.
Qed.

Lemma sorted_length (l : list A) : length (sorted key le l) = length l.
Proof. apply Permutation_length, sorted_perm. Qed.
End SortedFacts.

(** ** Dictionaries *)

Section DictFacts.
Context {K V : Type} `{EqDecision K}.
Implicit Types (d : dict K V) (k : K) (v : V).

Lemma dict_set_fresh k v d : k ∉ d.*1 -> dict_set k v d = d ++ [(k, v)].
Proof.
  induction d as [|[k' v'] d IH]; simpl; [done|].
  rewrite not_elem_of_cons. intros [Hne Hd].
  rewrite decide_False by done. by rewrite IH.
Qed.

Lemma dict_get_None k d : dict_get k d = None <-> k ∉ d.*1.
Proof.
  induction d as [|[k' v'] d IH]; simpl.
  - split; [intros _; apply not_elem_of_nil|done].
  - rewrite not_elem_of_cons. destruct (decide (k = k')) as [->|Hne].
    + split; [done|]. by intros [? _].
    + rewrite IH. split; [done|]. by intros [_ ?].
Qed.

Lemma dict_del_absent k d : k ∉ d.*1 -> dict_del k d = d.
Proof.
  induction d as [|[k' v'] d IH]; simpl; [done|].
  rewrite not_elem_of_cons. intros [Hne Hd].
  rewrite decide_False by done. by rewrite IH.
Qed.

Lemma dict_del_present k v d :
  dict_get k d = Some v -> d ≡ₚ (k, v) :: dict_del k d.
Proof.
  induction d as [|[k' v'] d IH]; simpl; [done|].
  destruct (decide (k = k')) as [->|Hne].
  - by intros [= ->].
  - intros Hget. rewrite (IH Hget) at 1. apply Permutation_swap.
Qed.

Lemma dict_get_Some_elem k v d : dict_get k d = Some v -> (k, v) ∈ d.
Proof.
  intros Hget. rewrite (dict_del_present _ _ _ Hget). apply elem_of_cons. by left.
Qed.
End DictFacts.

(** ** [_sort_by] *)

(** The dictionary [{b.id: b for b in B}] when the ids are distinct. *)
Lemma Bdict_NoDup (B : list Particle) (d : dict Z Particle) :
  NoDup (d.*1 ++ (id <$> B)) ->
  foldl (fun d b => dict_set (id b) b d) d B
  = d ++ ((fun b => (id b, b)) <$> B).
Proof.
  revert d. induction B as [|b B IH]; intros d Hnd; simpl.
  - by rewrite app_nil_r.
  - simpl in Hnd. rewrite dict_set_fresh.
    + rewrite IH; [by rewrite <- app_assoc|].
      rewrite fmap_app. simpl. by rewrite <- app_assoc.
    + apply NoDup_app in Hnd as (_ & Hd & _). intros Hin.
      apply (Hd _ Hin). apply elem_of_cons. by left.
Qed.

Lemma _sort_by_loop_perm (A : list Particle) (d : dict Z Particle)
    (acc : list Particle) :
  (_sort_by_loop A d acc).1 ++ (_sort_by_loop A d acc).2.*2 ≡ₚ acc ++ d.*2.
Proof.
  revert d acc. induction A as [|a A IH]; intros d acc; simpl; [done|].
  destruct (dict_get (id a) d) as [b|] eqn:Hget.
  - rewrite IH. rewrite (dict_del_present _ _ _ Hget) at 2. simpl.
    by rewrite <- app_assoc.
  - apply dict_get_None in Hget. rewrite IH.
    by rewrite dict_del_absent.
Qed.

(** C10: when the records of [B] have pairwise distinct ids,
    [_sort_by(A, B)] is a permutation of [B]: every record of [B] is in the
    result exactly as often as in [B], none is dropped or duplicated. *)
Theorem _sort_by_permutation (A B : list Particle) :
  NoDup (id <$> B) -> _sort_by A B ≡ₚ B.
Proof.
  intros Hnd. unfold _sort_by.
  rewrite (Bdict_NoDup B []) by done. simpl.
  destruct (_sort_by_loop A _ []) as [B' d'] eqn:Hloop.
  unfold dict_values. rewrite sorted_perm.
  pose proof (_sort_by_loop_perm A ((fun b => (id b, b)) <$> B) []) as Hperm.
  rewrite Hloop in Hperm. simpl in Hperm. rewrite Hperm.
  rewrite <- list_fmap_compose. simpl.
  by rewrite list_fmap_id.
Qed.

Lemma _sort_by_permutation_witness :
  _sort_by [pi_plus] [K_plus; pi_plus_heavy] ≡ₚ [K_plus; pi_plus_heavy].
Proof.
  apply _sort_by_permutation.
  apply (bool_decide_unpack _). vm_compute. exact I.
Defined.

(** C6: under mode [a] the reordered [B] should hold the records matched
    in [A] and then all records of [B] without a match, by line number.
    The code does not do this when two records of [B] share an id: the
    dictionary of [_sort_by] keeps the last of them only, so that of the two
    records of id 211 on lines 4 and 7 the first has gone from the list the
    matcher gets; symmetrically under mode [b]; the modes [id] and [name]
    keep both. *)
Theorem sort_by_drops_records_sharing_an_id :
  reorder "a" [] [pi_plus; pi_plus_heavy] = ([], [pi_plus_heavy]) /\
  reorder "b" [pi_plus; pi_plus_heavy] [] = ([pi_plus_heavy], []) /\
  reorder "id" [] [pi_plus; pi_plus_heavy] = ([], [pi_plus; pi_plus_heavy]) /\
  reorder "name" [] [pi_plus; pi_plus_heavy]
  = ([], [pi_plus; pi_plus_heavy]).
Proof. repeat split; vm_compute; reflexivity. Qed.

(** ** The parser *)

Lemma split_from_nil (cur s : string) :
  split_from cur s = [] -> cur = "" /\ lstrip s = "".
Proof.
  revert cur. induction s as [|c s IH]; intros cur; simpl.
  - destruct (String.eqb_spec cur ""); [done|discriminate].
  - destruct (isspace c).
    + destruct (String.eqb_spec cur ""); [|discriminate].
      intros Hs. by destruct (IH _ Hs).
    + intros Hs. destruct (IH _ Hs) as [Hcur _].
      by destruct cur.
Qed.

(** A line with no token is blank. *)
Lemma split_nil_blank (l : string) : split l = [] -> is_blank l = true.
Proof.
  intros Hs. apply split_from_nil in Hs as [_ Hs].
  unfold is_blank, strip. by rewrite Hs.
Qed.

(** One pass of the loop, by the kind of the line. *)
Lemma parse_loop_cons `{!PyRuntime} nr l rest particles log :
  parse_loop nr (l :: rest) particles log
  = if is_comment l || is_blank l
    then parse_loop (nr + 1) rest particles log
    else if is_terminator l then (log, Ok particles)
    else if has_marker l then
      match parse_particle l nr with
      | Ok p => parse_loop (nr + 1) rest (particles ++ [p]) log
      | Raise e => (log, Raise e)
      end
    else parse_loop (nr + 1) rest particles (log ++ [(nr, l)]).
Proof.
  cbn [parse_loop]. fold (is_comment l). fold (is_blank l).
  destruct (is_comment l); [done|].
  destruct (is_blank l) eqn:Hb; [done|]. cbn [orb].
  unfold is_terminator, has_marker.
  destruct (split l) as [|v0 vs] eqn:Hsplit.
  { apply split_nil_blank in Hsplit. congruence. }
  cbn [head]. destruct (String.eqb_spec v0 "end") as [->|Hend].
  { by rewrite (bool_decide_eq_true_2 (Some "end" = Some "end")). }
  rewrite (bool_decide_eq_false_2 (Some v0 = Some "end")) by congruence.
  by case_bool_decide.
Qed.




(** ** Rows for removed and added records *)

Lemma format_value_ok `{!PyRuntime} self v :
  0 <= precision self < 2147483648 ->
  format_value self v
  = Ok (match v with VFloat x => VStr (fmt self x) | _ => v end).
Proof.
  intros [Hlo Hhi]. unfold format_value, fmt. destruct v; try done.
  rewrite (proj2 (Z.ltb_ge _ _) Hlo).
  assert ((9223372036854775807 <? precision self)%Z = false) as ->
    by (apply Z.ltb_ge; lia).
  assert ((2147483647 <? precision self)%Z = false) as ->
    by (apply Z.ltb_ge; lia).
  reflexivity.
Qed.

(** A row whose values are a placeholder and a field of the record. *)
Lemma _add_row_removed `{!PyRuntime} self nm i property v ln :
  0 <= precision self < 2147483648 ->
  _add_row self "removed" nm i property v (VStr "--") (VInt ln) (VStr "--")
  = Ok (push_row self
          (let va := match v with
                     | VFloat x => fmt self x
                     | _ => py_str v
                     end in
           if bool_decide (_lastparticle self = Some (nm, i))
           then cont_row "removed" property va "--"
           else head_row "removed" nm i property va "--" (pretty ln) "--")
          nm i).
Proof.
  intros Hp. unfold _add_row. rewrite !format_value_ok by done.
  cbn [mbind result_bind]. unfold push_row. do 2 f_equal.
  case_bool_decide; destruct v; reflexivity.
Qed.

Lemma _add_row_added `{!PyRuntime} self nm i property v ln :
  0 <= precision self < 2147483648 ->
  _add_row self "added" nm i property (VStr "--") v (VStr "--") (VInt ln)
  = Ok (push_row self
          (let vb := match v with
                     | VFloat x => fmt self x
                     | _ => py_str v
                     end in
           if bool_decide (_lastparticle self = Some (nm, i))
           then cont_row "added" property "--" vb
           else head_row "added" nm i property "--" vb "--" (pretty ln))
          nm i).
Proof.
  intros Hp. unfold _add_row. rewrite !format_value_ok by done.
  cbn [mbind result_bind]. unfold push_row. do 2 f_equal.
  case_bool_decide; destruct v; reflexivity.
Qed.

Lemma push_row_push_rows self trs last tr nm i :
  push_row (push_rows self trs last) tr nm i
  = push_rows self (trs ++ [tr]) (Some (nm, i)).
Proof. unfold push_row, push_rows. cbn. by rewrite <- app_assoc. Qed.

Lemma push_row_first self tr nm i :
  push_row self tr nm i = push_rows self [tr] (Some (nm, i)).
Proof. reflexivity. Qed.

Lemma _removed_fields_rows `{!PyRuntime} self a :
  0 <= precision self < 2147483648 ->
  _removed_fields self a (shown_fields a)
  = Ok (push_rows self (removed_rows self (_lastparticle self) a)
          (Some (name a, id a))).
Proof.
  intros Hp. unfold shown_fields.
  cbn [_fields but_last length Nat.sub take drop as_tuple zip zip_with
       _removed_fields].
  rewrite _add_row_removed by done. cbn [mbind result_bind].
  rewrite push_row_first.
  repeat (rewrite _add_row_removed by done; cbn [mbind result_bind];
          rewrite push_row_push_rows;
          cbn [push_rows _lastparticle];
          rewrite (bool_decide_eq_true_2 (Some (name a, id a) = _)) by done).
  reflexivity.
Qed.

Lemma _added_fields_rows `{!PyRuntime} self b :
  0 <= precision self < 2147483648 ->
  _added_fields self b (shown_fields b)
  = Ok (push_rows self (added_rows self (_lastparticle self) b)
          (Some (name b, id b))).
Proof.
  intros Hp. unfold shown_fields.
  cbn [_fields but_last length Nat.sub take drop as_tuple zip zip_with
       _added_fields].
  rewrite _add_row_added by done. cbn [mbind result_bind].
  rewrite push_row_first.
  repeat (rewrite _add_row_added by done; cbn [mbind result_bind];
          rewrite push_row_push_rows;
          cbn [push_rows _lastparticle];
          rewrite (bool_decide_eq_true_2 (Some (name b, id b) = _)) by done).
  reflexivity.
Qed.

Lemma push_rows_push_rows self trs last trs' last' :
  push_rows (push_rows self trs last) trs' last'
  = push_rows self (trs ++ trs') last'.
Proof. unfold push_rows. cbn. by rewrite <- app_assoc. Qed.

Lemma push_rows_nil self : push_rows self [] (_lastparticle self) = self.
Proof. destruct self. unfold push_rows. cbn. by rewrite app_nil_r. Qed.

Lemma _removed_rows `{!PyRuntime} self A :
  0 <= precision self < 2147483648 ->
  _removed self A
  = Ok (push_rows self
          (records_rows (removed_rows self) (_lastparticle self) A)
          (last_record (_lastparticle self) A)).
Proof.
  revert self. induction A as [|a A IH]; intros self Hp.
  - cbn. by rewrite push_rows_nil.
  - cbn [_removed]. rewrite _removed_fields_rows by done.
    cbn [mbind result_bind]. rewrite IH by done.
    rewrite push_rows_push_rows. reflexivity.
Qed.

Lemma _added_rows `{!PyRuntime} self B :
  0 <= precision self < 2147483648 ->
  _added self B
  = Ok (push_rows self
          (records_rows (added_rows self) (_lastparticle self) B)
          (last_record (_lastparticle self) B)).
Proof.
  revert self. induction B as [|b B IH]; intros self Hp.
  - cbn. by rewrite push_rows_nil.
  - cbn [_added]. rewrite _added_fields_rows by done.
    cbn [mbind result_bind]. rewrite IH by done.
    rewrite push_rows_push_rows. reflexivity.
Qed.

Lemma records_rows_length `{!PyRuntime} rows last (P : list Particle) :
  (forall l p, length (rows l p) = 7%nat) ->
  length (records_rows rows last P) = (7 * length P)%nat.
Proof.
  intros Hrows. revert last. induction P as [|p P IH]; intros last; [done|].
  cbn [records_rows]. rewrite length_app, Hrows, IH. simpl. lia.
Qed.

Lemma records_rows_Forall `{!PyRuntime} (Q : row -> Prop) rows last
    (P : list Particle) :
  (forall l p, Forall Q (rows l p)) -> Forall Q (records_rows rows last P).
Proof.
  intros Hrows. revert last. induction P as [|p P IH]; intros last.
  - constructor.
  - cbn [records_rows]. apply Forall_app. split; [apply Hrows|apply IH].
Qed.

(** C9, as stated: every row of a removed record shows the placeholder in
    the column of the line in B.  It does not: of the seven rows of a
    record only the first can show it, the others leave the column empty. *)
Lemma removed_lineB_not_always_placeholder :
  ~ (forall (self t : PDLDiffTable) (a : Particle),
       @_removed small_runtime self [a] = Ok t ->
       Forall (fun tr => column 7 tr = Some "--")
         (drop (length (_tbody self)) (_tbody t))).
Proof.
  intros Hall.
  pose proof (Hall sample_table _ pi_plus
                (@_removed_rows small_runtime sample_table [pi_plus]
                   ltac:(done))) as Hrows.
  apply Forall_cons in Hrows as [_ Hrows].
  apply Forall_cons in Hrows as [Hrow _].
  discriminate Hrow.
Qed.

(** C9, amended: with a precision at which floats can be formatted, from
    0 to [INT_MAX] = 2147483647, and for every list of records of a
    deleted span the report
    gets exactly seven [removed] rows per record, one per field other than
    name, id and line, in the order mass, width, max_dM, charge, spin,
    lifetime, pythiaId ([removed_rows]); each shows the placeholder [--] as
    new value; the column of the line in B shows [--] in the row that
    starts a record (class [newparticle]) and is empty in the other rows,
    whose what, name, id and line columns are blanked.  Symmetrically the
    rows of the records of an inserted span are [added] rows with the
    placeholder as old value, and as line in A where a record starts. *)
Theorem removed_and_added_rows `{!PyRuntime} (self : PDLDiffTable)
    (P : list Particle) :
  0 <= precision self < 2147483648 ->
  let last := _lastparticle self in
  _removed self P
  = Ok (push_rows self (records_rows (removed_rows self) last P)
          (last_record last P)) /\
  _added self P
  = Ok (push_rows self (records_rows (added_rows self) last P)
          (last_record last P)) /\
  length (records_rows (removed_rows self) last P) = (7 * length P)%nat /\
  length (records_rows (added_rows self) last P) = (7 * length P)%nat /\
  Forall (fun tr =>
            column 0 tr = Some (if String.eqb (row_class tr) "newparticle"
                                then "removed" else "") /\
            column 5 tr = Some "--" /\
            column 7 tr = Some (if String.eqb (row_class tr) "newparticle"
                                then "--" else ""))
    (records_rows (removed_rows self) last P) /\
  Forall (fun tr =>
            column 0 tr = Some (if String.eqb (row_class tr) "newparticle"
                                then "added" else "") /\
            column 4 tr = Some "--" /\
            column 6 tr = Some (if String.eqb (row_class tr) "newparticle"
                                then "--" else ""))
    (records_rows (added_rows self) last P).
Proof.
  intros Hp last. split; [by apply _removed_rows|].
  split; [by apply _added_rows|].
  split; [by apply records_rows_length|].
  split; [by apply records_rows_length|].
  split; apply records_rows_Forall; intros l p;
    unfold removed_rows, added_rows; case_bool_decide;
    repeat (constructor; [done|]); constructor.
Qed.

Lemma removed_and_added_rows_witness :
  @_removed small_runtime sample_table [pi_plus]
  = Ok (push_rows sample_table (@removed_rows small_runtime sample_table None pi_plus)
          (Some ("pi+", 211))) /\
  @_added small_runtime sample_table [pi_plus]
  = Ok (push_rows sample_table (@added_rows small_runtime sample_table None pi_plus)
          (Some ("pi+", 211))).
Proof.
  pose proof (@removed_and_added_rows small_runtime sample_table [pi_plus])
    as Hrows.
  cbn [records_rows last_record foldl] in Hrows. rewrite !app_nil_r in Hrows.
  split; apply Hrows; simpl; lia.
Defined.

(** ** The matcher: the block found lies in the window *)

Section FindLongestMatchWindow.
Local Open Scope nat_scope.
Context {E K : Type} `{Countable K} (key : E -> K) (a b : list E).
Context (b2j : gmap K (list nat)) (alo ahi blo bhi : nat).

Lemma j2len_bounded_empty bound : j2len_bounded blo bound ∅.
Proof. intros j k Hk. by apply lookup_empty_Some in Hk. Qed.

Lemma j2lenget_bounded bound j2len j :
  j2len_bounded blo bound j2len -> blo <= j ->
  Difflib.j2lenget j2len j <= bound /\ Difflib.j2lenget j2len j <= j - blo.
Proof.
  intros Hb Hj. destruct j as [|j']; simpl; [lia|].
  destruct (j2len !! j') as [k|] eqn:Hk; simpl; [|lia].
  destruct (Hb _ _ Hk). lia.
Qed.

Lemma scan_row_window i js j2len newj2len best :
  alo <= i < ahi ->
  j2len_bounded blo (i - alo) j2len ->
  j2len_bounded blo (i + 1 - alo) newj2len ->
  in_window alo ahi blo bhi best ->
  j2len_bounded blo (i + 1 - alo)
    (Difflib.scan_row blo bhi i js j2len newj2len best).1 /\
  in_window alo ahi blo bhi
    (Difflib.scan_row blo bhi i js j2len newj2len best).2.
Proof.
  intros Hi Hold. revert newj2len best.
  induction js as [|j js IH]; intros newj2len best Hnew Hbest; simpl; [done|].
  destruct (Nat.ltb_spec j blo) as [|Hblo]; [by apply IH|].
  destruct (Nat.leb_spec bhi j) as [|Hbhi]; [done|].
  destruct (j2lenget_bounded _ _ j Hold Hblo) as [Hk1 Hk2].
  apply IH.
  - intros j' k'. rewrite lookup_insert_Some.
    intros [[<- <-]|[_ Hj']]; [lia|by apply Hnew].
  - destruct best as [[bi bj] bk]. simpl.
    destruct (Nat.ltb_spec bk (Difflib.j2lenget j2len j + 1)); [|done].
    simpl. lia.
Qed.

Lemma scan_step_window st i :
  alo <= i < ahi ->
  j2len_bounded blo (i - alo) st.1 -> in_window alo ahi blo bhi st.2 ->
  j2len_bounded blo (i + 1 - alo)
    (Difflib.scan_step key a b2j blo bhi st i).1 /\
  in_window alo ahi blo bhi (Difflib.scan_step key a b2j blo bhi st i).2.
Proof.
  intros Hi Hj Hb. unfold Difflib.scan_step.
  apply scan_row_window; [done..| |done].
  apply j2len_bounded_empty.
Qed.

Lemma scan_fold_window n : forall i st,
  alo <= i -> i + n <= ahi ->
  j2len_bounded blo (i - alo) st.1 -> in_window alo ahi blo bhi st.2 ->
  in_window alo ahi blo bhi
    (foldl (Difflib.scan_step key a b2j blo bhi) st (seq i n)).2.
Proof.
  induction n as [|n IH]; intros i st Hi Hn Hj Hb; simpl; [done|].
  destruct (scan_step_window st i) as [Hj' Hb']; [lia|done..|].
  apply IH; [lia..| |done].
  by replace (S i - alo) with (i + 1 - alo) by lia.
Qed.

Lemma scan_window :
  alo <= ahi -> blo <= bhi ->
  in_window alo ahi blo bhi (Difflib.scan key a b2j alo ahi blo bhi).
Proof.
  intros Ha Hb. unfold Difflib.scan. apply scan_fold_window.
  - done.
  - lia.
  - apply j2len_bounded_empty.
  - simpl. lia.
Qed.

Lemma extend_left_window junk besti : forall bestj bestsize,
  in_window alo ahi blo bhi (besti, bestj, bestsize) ->
  in_window alo ahi blo bhi
    (Difflib.extend_left key a b alo blo junk besti bestj bestsize).
Proof.
  induction besti as [|i' IH]; intros bestj bestsize Hw; simpl; [done|].
  destruct bestj as [|j']; [done|].
  destruct (_ && _) eqn:Hc; [|done].
  apply IH. repeat (apply andb_prop in Hc as [Hc ?]).
  apply Nat.ltb_lt in Hc. simpl in *.
  assert (blo < S j') by by apply Nat.ltb_lt. lia.
Qed.

Lemma extend_right_window junk n : forall besti bestj bestsize,
  in_window alo ahi blo bhi (besti, bestj, bestsize) ->
  in_window alo ahi blo bhi
    (besti, bestj,
     Difflib.extend_right key a b ahi bhi junk n besti bestj bestsize).
Proof.
  induction n as [|n IH]; intros besti bestj bestsize Hw; simpl; [done|].
  destruct (_ && _) eqn:Hc; [|done].
  apply IH. repeat (apply andb_prop in Hc as [Hc ?]).
  apply Nat.ltb_lt in Hc.
  assert (bestj + bestsize < bhi) by by apply Nat.ltb_lt.
  simpl in *. lia.
Qed.

(** The block [find_longest_match] returns lies in the window it was
    asked to search, whatever [b2j] holds. *)
Lemma find_longest_match_window :
  alo <= ahi -> blo <= bhi ->
  in_window alo ahi blo bhi
    (Difflib.find_longest_match key a b b2j alo ahi blo bhi).
Proof.
  intros Ha Hb. unfold Difflib.find_longest_match.
  pose proof (scan_window Ha Hb) as Hw.
  destruct (Difflib.scan _ _ _ _ _ _ _) as [[i0 j0] k0].
  apply (extend_left_window false) in Hw.
  destruct (Difflib.extend_left _ _ _ _ _ false _ _ _) as [[i1 j1] k1].
  apply (extend_right_window false (ahi - (i1 + k1))) in Hw.
  apply (extend_left_window true) in Hw.
  destruct (Difflib.extend_left _ _ _ _ _ true _ _ _) as [[i2 j2] k2].
  by apply (extend_right_window true (ahi - (i2 + k2))) in Hw.
Qed.
End FindLongestMatchWindow.

(** ** The matcher: the loop over the queue ends *)

Section Pairwise.
Context {A : Type} (R : A -> A -> Prop).

Lemma pairwise_app (l1 l2 : list A) :
  pairwise R (l1 ++ l2)
  <-> pairwise R l1 /\ pairwise R l2 /\ Forall (fun x => Forall (R x) l2) l1.
Proof.
  induction l1 as [|x l1 IH]; simpl.
  - split; [intros ?; by repeat split|by intros (_ & ? & _)].
  - rewrite Forall_app, IH, Forall_cons. tauto.
Qed.

Lemma pairwise_perm (l l' : list A) :
  (forall x y, R x y -> R y x) -> l ≡ₚ l' -> pairwise R l -> pairwise R l'.
Proof.
  intros Hsym Hperm. induction Hperm as [|x l l' Hperm IH|x y l|l l' l'' _ IH1 _ IH2].
  - done.
  - simpl. intros [Hx Hl]. split; [by rewrite <- Hperm|by apply IH].
  - simpl. rewrite !Forall_cons. intros [[Hyx Hy] [Hx Hl]].
    repeat split; auto.
  - auto.
Qed.

Lemma pairwise_tail (x : A) (l : list A) : pairwise R (x :: l) -> pairwise R l.
Proof. by intros [_ ?]. Qed.
End Pairwise.

Lemma pairwise_fmap {A B} (f : A -> B) (R : B -> B -> Prop) (l : list A) :
  pairwise R (f <$> l) <-> pairwise (fun x y => R (f x) (f y)) l.
Proof.
  induction l as [|x l IH]; simpl; [done|].
  by rewrite Forall_fmap, IH.
Qed.

Lemma apart_sym (r1 r2 : region) : apart r1 r2 -> apart r2 r1.
Proof. unfold apart. tauto. Qed.

Lemma inside_apart (r R r' : region) : inside r R -> apart R r' -> apart r r'.
Proof.
  destruct r as [[[alo ahi] blo] bhi], R as [[[Alo Ahi] Blo] Bhi],
    r' as [[[alo' ahi'] blo'] bhi'].
  unfold apart, inside, before. lia.
Qed.

(** The windows and the block that replace a window of the queue are
    apart from all that was apart from it. *)
Lemma pairwise_refine (R : region) (news rest : list region) :
  pairwise apart (R :: rest) ->
  Forall (fun r => inside r R) news ->
  pairwise apart news ->
  pairwise apart (news ++ rest).
Proof.
  intros [HR Hrest] Hin Hnews. apply pairwise_app. repeat split; [done..|].
  eapply Forall_impl; [exact Hin|]. intros r Hr. simpl.
  eapply Forall_impl; [exact HR|]. intros r'. by apply inside_apart.
Qed.

Lemma weight_app (q1 q2 : list region) :
  weight (q1 ++ q2) = (weight q1 + weight q2)%nat.
Proof.
  induction q1 as [|[[[alo ahi] blo] bhi] q1 IH]; [done|].
  change (2 * (ahi - alo) + 1 + weight (q1 ++ q2)
          = 2 * (ahi - alo) + 1 + weight q1 + weight q2)%nat.
  rewrite IH. lia.
Qed.

Section MatchingLoop.
Local Open Scope nat_scope.
Context {E K : Type} `{Countable K} (key : E -> K) (a b : list E).
Context (b2j : gmap K (list nat)) (la lb : nat).

(** With fuel for the weight of the queue the loop ends, and leaves
    blocks that are not empty and pairwise apart. *)
Lemma matching_loop_ends fuel : forall queue blocks,
  Forall (region_ok la lb) queue ->
  Forall (block_ok la lb) blocks ->
  pairwise apart (queue ++ (block_region <$> blocks)) ->
  weight queue <= fuel ->
  exists res,
    Difflib.matching_loop key a b b2j fuel queue blocks = Some res /\
    Forall (block_ok la lb) res /\
    pairwise apart (block_region <$> res).
Proof.
  induction fuel as [|fuel IH]; intros queue blocks Hq Hb Hp Hw;
    destruct queue as [|[[[alo ahi] blo] bhi] queue]; simpl;
    [by eauto|simpl in Hw; lia|by eauto|].
  apply Forall_cons in Hq as [(Ha & Hla & Hb' & Hlb) Hq].
  pose proof (find_longest_match_window key a b b2j alo ahi blo bhi Ha Hb')
    as Hwin.
  destruct (Difflib.find_longest_match _ _ _ _ _ _ _ _) as [[i j] k].
  destruct Hwin as (Hi & Hik & Hj & Hjk).
  change (weight ((alo, ahi, blo, bhi) :: queue))
    with (2 * (ahi - alo) + 1 + weight queue) in Hw.
  destruct (Nat.ltb_spec 0 k) as [Hk|Hk].
  - set (c1 := (alo <? i) && (blo <? j)).
    set (c2 := (i + k <? ahi) && (j + k <? bhi)).
    set (news := (if c2 then [(i + k, ahi, j + k, bhi)] else [])
                 ++ (if c1 then [(alo, i, blo, j)] else [])).
    replace (if c2 then _ else _) with (news ++ queue)
      by (unfold news; by destruct c1, c2).
    apply IH.
    + apply Forall_app. split; [|done].
      unfold news. destruct c1, c2; repeat constructor; simpl; lia.
    + apply Forall_app. split; [done|].
      repeat constructor; simpl; lia.
    + rewrite fmap_app. simpl.
      apply (pairwise_perm _
               ((news ++ [(i, i + k, j, j + k)])
                ++ queue ++ (block_region <$> blocks)));
        [apply apart_sym| |].
      * rewrite <- !app_assoc. apply Permutation_app_head.
        rewrite (app_assoc queue). apply Permutation_app_comm.
      * apply (pairwise_refine (alo, ahi, blo, bhi)); [done| |].
        -- unfold news. destruct c1, c2; repeat constructor; simpl; lia.
        -- unfold news, apart.
           destruct c1, c2; simpl; repeat constructor; simpl; lia.
    + rewrite weight_app. unfold news.
      destruct c1, c2; simpl; lia.
  - apply IH; [done|done| |lia].
    simpl in Hp. apply Hp.
Qed.
End MatchingLoop.

(** ** The matcher: the sorted blocks follow each other *)

Section SortedOrder.
Context {A K : Type} (key : A -> K) (le : K -> K -> bool).
Hypothesis le_total : forall x y, le x y = true \/ le y x = true.
Hypothesis le_trans :
  forall x y z, le x y = true -> le y z = true -> le x z = true.

Lemma insert_sorted_StronglySorted (x : A) (l : list A) :
  StronglySorted (fun u v => le (key u) (key v) = true) l ->
  StronglySorted (fun u v => le (key u) (key v) = true)
    (insert_sorted key le x l).
Proof.
  induction 1 as [|y l Hl IH Hy]; simpl.
  - repeat constructor.
  - destruct (le (key x) (key y)) eqn:Hxy.
    + constructor; [by constructor|]. constructor; [done|].
      eapply Forall_impl; [exact Hy|]. intros z Hz. simpl in *. eauto.
    + constructor; [done|]. rewrite insert_sorted_perm.
      constructor; [|done].
      destruct (le_total (key x) (key y)); [congruence|done].
Qed.

Lemma sorted_StronglySorted (l : list A) :
  StronglySorted (fun u v => le (key u) (key v) = true) (sorted key le l).
Proof.
  induction l as [|x l IH]; simpl; [constructor|].
  by apply insert_sorted_StronglySorted.
Qed.
End SortedOrder.

Section Blocks.
Local Open Scope nat_scope.

Lemma Match_le_spec (x y : Difflib.Match) :
  Difflib.Match_le x y = true
  <-> x.1.1 < y.1.1
      \/ x.1.1 = y.1.1 /\ (x.1.2 < y.1.2 \/ x.1.2 = y.1.2 /\ x.2 <= y.2).
Proof.
  destruct x as [[i1 j1] k1], y as [[i2 j2] k2]. simpl.
  rewrite !orb_true_iff, !andb_true_iff, orb_true_iff, andb_true_iff,
    !Nat.ltb_lt, !Nat.eqb_eq, Nat.leb_le.
  tauto.
Qed.

Lemma Match_le_total (x y : Difflib.Match) :
  Difflib.Match_le x y = true \/ Difflib.Match_le y x = true.
Proof. rewrite !Match_le_spec. lia. Qed.

Lemma Match_le_trans (x y z : Difflib.Match) :
  Difflib.Match_le x y = true -> Difflib.Match_le y z = true ->
  Difflib.Match_le x z = true.
Proof. rewrite !Match_le_spec. lia. Qed.

(** Of two blocks that are apart and not empty, the smaller tuple is the
    one before. *)
Lemma Match_le_before la lb (x y : Difflib.Match) :
  block_ok la lb x -> block_ok la lb y ->
  apart (block_region x) (block_region y) ->
  Difflib.Match_le x y = true ->
  before (block_region x) (block_region y).
Proof.
  rewrite Match_le_spec.
  destruct x as [[i1 j1] k1], y as [[i2 j2] k2].
  unfold apart, before, block_ok. simpl. lia.
Qed.

Lemma chain_le blocks : forall i0 j0 ie je,
  chain i0 j0 blocks ie je -> i0 <= ie /\ j0 <= je.
Proof.
  induction blocks as [|[[i j] k] blocks IH]; intros i0 j0 ie je; simpl.
  - lia.
  - intros (Hi & Hj & Hc). apply IH in Hc. lia.
Qed.

Lemma chain_snoc blocks i j k : forall i0 j0 im jm,
  chain i0 j0 blocks im jm -> im <= i -> jm <= j ->
  chain i0 j0 (blocks ++ [(i, j, k)]) (i + k) (j + k).
Proof.
  induction blocks as [|[[i' j'] k'] blocks IH]; intros i0 j0 im jm; simpl.
  - intros [-> ->]. tauto.
  - intros (Hi & Hj & Hc) Him Hjm. eauto.
Qed.

(** Sorted blocks that are pairwise apart follow each other. *)
Lemma sorted_blocks_chain la lb (blocks : list Difflib.Match) :
  forall i0 j0,
  StronglySorted (fun x y => Difflib.Match_le x y = true) blocks ->
  pairwise apart (block_region <$> blocks) ->
  Forall (block_ok la lb) blocks ->
  Forall (fun m => i0 <= m.1.1 /\ j0 <= m.1.2) blocks ->
  i0 <= la -> j0 <= lb ->
  exists ie je, chain i0 j0 blocks ie je /\ ie <= la /\ je <= lb.
Proof.
  induction blocks as [|[[i j] k] blocks IH];
    intros i0 j0 Hsorted Hapart Hok Hfrom Hi0 Hj0.
  - exists i0, j0. simpl. auto.
  - apply StronglySorted_inv in Hsorted as [Hsorted Hle].
    destruct Hapart as [Hap Hapart]. rewrite Forall_fmap in Hap.
    apply Forall_cons in Hok as [Hm Hok].
    apply Forall_cons in Hfrom as [[Hi Hj] _]. simpl in Hi, Hj.
    destruct (IH (i + k) (j + k)) as (ie & je & Hc & Hie & Hje); try done.
    + apply Forall_forall. intros m Hin.
      rewrite Forall_forall in Hle, Hap, Hok.
      pose proof (Match_le_before la lb (i, j, k) m Hm (Hok _ Hin)
                    (Hap _ Hin) (Hle _ Hin)) as Hb.
      destruct m as [[i' j'] k']. simpl in *. lia.
    + simpl in Hm. lia.
    + simpl in Hm. lia.
    + exists ie, je. simpl. eauto.
Qed.

Lemma collapse_chain blocks : forall i1 j1 k1 non_adjacent im jm ie je,
  chain 0 0 non_adjacent im jm -> im <= i1 -> jm <= j1 ->
  chain (i1 + k1) (j1 + k1) blocks ie je ->
  exists ie' je',
    chain 0 0 (Difflib.collapse (i1, j1, k1) blocks non_adjacent) ie' je' /\
    ie' <= ie /\ je' <= je.
Proof.
  induction blocks as [|[[i2 j2] k2] blocks IH];
    intros i1 j1 k1 non_adjacent im jm ie je Hna Him Hjm; simpl.
  - intros [<- <-]. destruct (0 <? k1).
    + exists (i1 + k1), (j1 + k1). split; [|lia]. by eapply chain_snoc.
    + exists im, jm. split; [done|lia].
  - intros (Hi & Hj & Hc).
    destruct (_ && _) eqn:Hadj.
    + apply andb_prop in Hadj as [Hi2%Nat.eqb_eq Hj2%Nat.eqb_eq].
      eapply (IH i1 j1 (k1 + k2)); [done..|].
      by replace (i1 + (k1 + k2)) with (i2 + k2) by lia;
        replace (j1 + (k1 + k2)) with (j2 + k2) by lia.
    + destruct (0 <? k1).
      * eapply (IH i2 j2 k2); [by eapply chain_snoc|lia|lia|done].
      * eapply (IH i2 j2 k2); [done|lia|lia|done].
Qed.
End Blocks.

(** ** The matcher: the opcodes cover both lists *)

Section Slices.
Local Open Scope nat_scope.
Context {A : Type}.
Implicit Types l : list A.

Lemma slice_nil l i : Difflib.slice l i i = [].
Proof. unfold Difflib.slice. by rewrite Nat.sub_diag. Qed.

Lemma slice_app l i1 i2 i3 :
  i1 <= i2 <= i3 ->
  Difflib.slice l i1 i2 ++ Difflib.slice l i2 i3 = Difflib.slice l i1 i3.
Proof.
  intros Hi. unfold Difflib.slice.
  replace (drop i2 l) with (drop (i2 - i1) (drop i1 l))
    by (rewrite drop_drop; f_equal; lia).
  rewrite take_take_drop. f_equal. lia.
Qed.

Lemma slice_all l : Difflib.slice l 0 (length l) = l.
Proof. unfold Difflib.slice. rewrite drop_0. apply take_ge. lia. Qed.
End Slices.

Section Opcodes.
Local Open Scope nat_scope.
Context {E K : Type} `{Countable K} (key : E -> K) (a b : list E).

Lemma spans_chain_app ops1 ops2 : forall i j im jm ie je,
  spans_chain i j ops1 im jm -> spans_chain im jm ops2 ie je ->
  spans_chain i j (ops1 ++ ops2) ie je.
Proof.
  induction ops1 as [|[[[[t i1] i2] j1] j2] ops1 IH];
    intros i j im jm ie je; simpl.
  - by intros [-> ->].
  - intros (-> & -> & Hi & Hj & Hc) Hc2. repeat split; eauto.
Qed.

Lemma a_span_tag tag i1 i2 j1 j2 :
  a_span a (tag, i1, i2, j1, j2)
  = match tag with
    | Difflib.insert => []
    | _ => Difflib.slice a i1 i2
    end.
Proof. by destruct tag. Qed.

Lemma b_span_tag tag i1 i2 j1 j2 :
  b_span b (tag, i1, i2, j1, j2)
  = match tag with
    | Difflib.delete => []
    | _ => Difflib.slice b j1 j2
    end.
Proof. by destruct tag. Qed.

Lemma opcode_step_ops i j answer ai bj size :
  i <= ai -> j <= bj ->
  exists ops,
    Difflib.opcode_step (i, j, answer) (ai, bj, size)
    = (ai + size, bj + size, answer ++ ops) /\
    spans_chain i j ops (ai + size) (bj + size) /\
    concat (a_span a <$> ops) = Difflib.slice a i (ai + size) /\
    concat (b_span b <$> ops) = Difflib.slice b j (bj + size).
Proof.
  intros Hi Hj.
  exists ((if (i <? ai) && (j <? bj) then [(Difflib.replace, i, ai, j, bj)]
           else if i <? ai then [(Difflib.delete, i, ai, j, bj)]
           else if j <? bj then [(Difflib.insert, i, ai, j, bj)]
           else [])
          ++ (if 0 <? size
              then [(Difflib.equal, ai, ai + size, bj, bj + size)]
              else [])).
  split.
  { unfold Difflib.opcode_step.
    destruct (i <? ai), (j <? bj), (0 <? size); simpl;
      rewrite <- ?app_assoc, ?app_nil_r; reflexivity. }
  pose proof (slice_app a i ai (ai + size)) as Ha.
  pose proof (slice_app b j bj (bj + size)) as Hb.
  destruct (Nat.ltb_spec i ai), (Nat.ltb_spec j bj), (Nat.ltb_spec 0 size);
    cbn [andb app];
    try (assert (i = ai) as -> by lia);
    try (assert (j = bj) as -> by lia);
    try (assert (size = 0) as -> by lia);
    rewrite ?Nat.add_0_r in *;
    cbn [spans_chain fmap list_fmap concat];
    rewrite ?a_span_tag, ?b_span_tag, ?app_nil_r, ?slice_nil, ?app_nil_r;
    cbn [app];
    (split; [lia|]); split; first [done | apply Ha; lia | apply Hb; lia].
Qed.

Lemma opcodes_fold blocks : forall i j answer ie je,
  chain i j blocks ie je ->
  exists ops,
    foldl Difflib.opcode_step (i, j, answer) blocks
    = (ie, je, answer ++ ops) /\
    spans_chain i j ops ie je /\
    concat (a_span a <$> ops) = Difflib.slice a i ie /\
    concat (b_span b <$> ops) = Difflib.slice b j je.
Proof.
  induction blocks as [|[[ai bj] size] blocks IH];
    intros i j answer ie je; cbn [foldl chain].
  - intros [<- <-]. exists []. rewrite app_nil_r, !slice_nil. by simpl.
  - intros (Hi & Hj & Hc).
    destruct (opcode_step_ops i j answer ai bj size Hi Hj)
      as (ops1 & -> & Hs1 & Ha1 & Hb1).
    destruct (IH _ _ (answer ++ ops1) _ _ Hc) as (ops2 & -> & Hs2 & Ha2 & Hb2).
    apply chain_le in Hc.
    exists (ops1 ++ ops2). rewrite app_assoc.
    split; [done|]. split; [by eapply spans_chain_app|].
    rewrite !fmap_app, !concat_app, Ha1, Ha2, Hb1, Hb2.
    rewrite !slice_app by lia. done.
Qed.

(** With any [b2j] the blocks are found with the fuel given, and the
    opcodes made from them cover both lists. *)
Lemma get_opcodes_cover (b2j : gmap K (list nat)) :
  exists ops,
    Difflib.get_opcodes key a b b2j = Some ops /\
    spans_chain 0 0 ops (length a) (length b) /\
    concat (a_span a <$> ops) = a /\
    concat (b_span b <$> ops) = b.
Proof.
  unfold Difflib.get_opcodes, Difflib.get_matching_blocks.
  destruct (matching_loop_ends key a b b2j (length a) (length b)
              (2 * length a + 1) [(0, length a, 0, length b)] [])
    as (blocks & -> & Hok & Hapart).
  { repeat constructor; simpl; lia. }
  { constructor. }
  { simpl. by repeat constructor. }
  { simpl. lia. }
  cbn [mbind option_bind].
  set (s := sorted (fun x => x) Difflib.Match_le blocks).
  assert (s ≡ₚ blocks) as Hperm by apply sorted_perm.
  destruct (sorted_blocks_chain (length a) (length b) s 0 0)
    as (im & jm & Hchain & Him & Hjm).
  { apply (sorted_StronglySorted (fun x => x) Difflib.Match_le);
      [apply Match_le_total|apply Match_le_trans]. }
  { eapply (pairwise_perm _ _ _ apart_sym); [|exact Hapart].
    by rewrite Hperm. }
  { by rewrite Hperm. }
  { apply Forall_forall. intros m _. lia. }
  { lia. }
  { lia. }
  destruct (collapse_chain s 0 0 0 [] 0 0 im jm) as (ie & je & Hc & Hie & Hje);
    [done|lia|lia|done|].
  destruct (opcodes_fold
              (Difflib.collapse (0, 0, 0) s [] ++ [(length a, length b, 0)])
              0 0 [] (length a) (length b))
    as (ops & Hops & Hspans & Ha & Hb).
  { replace (length a) with (length a + 0) at 2 by lia.
    replace (length b) with (length b + 0) at 2 by lia.
    eapply chain_snoc; [done|lia|lia]. }
  exists ops. rewrite Hops. rewrite Ha, Hb, !slice_all. done.
Qed.
End Opcodes.

(** C4: for every pair of lists the matcher returns opcodes (the fuel of
    the loop over the queue suffices), and they cover both lists exactly:
    from [(0, 0)] to the two lengths each opcode starts in both lists where
    the one before it ends, so that the spans neither overlap nor leave a
    gap and keep the order, and the spans of [a] of the equal, delete and
    replace opcodes concatenate to [a], those of [b] of the equal, insert
    and replace opcodes to [b]. *)
Theorem opcodes_cover_both_lists (A B : list Particle) :
  exists ops,
    Difflib.opcodes id A B = Some ops /\
    spans_chain 0 0 ops (length A) (length B) /\
    concat (a_span A <$> ops) = A /\
    concat (b_span B <$> ops) = B.
Proof. apply get_opcodes_cover. Qed.

(** ** The matcher: the index of [b] *)

Section ChainB.
Local Open Scope nat_scope.
Context {E K : Type} `{Countable K} (key : E -> K).

Lemma b2j_all_snoc (b : list E) (y : E) :
  Difflib.b2j_all key (b ++ [y])
  = Difflib.chain_step key (Difflib.b2j_all key b) (length b, y).
Proof.
  unfold Difflib.b2j_all. rewrite imap_app, foldl_app. simpl.
  by rewrite Nat.add_0_r.
Qed.

Lemma b2j_all_spec (b : list E) (k : K) :
  let js := default [] (Difflib.b2j_all key b !! k) in
  StronglySorted lt js /\
  (forall j, j ∈ js <-> key <$> b !! j = Some k) /\
  length js = length (filter (fun y => key y = k) b).
Proof.
  induction b as [|y b IH] using rev_ind.
  - simpl. unfold Difflib.b2j_all. simpl. rewrite lookup_empty. simpl.
    split; [constructor|]. split; [|done].
    intros j. split; [by intros ?%elem_of_nil|discriminate].
  - destruct IH as (Hsorted & Hmem & Hlen).
    rewrite b2j_all_snoc. unfold Difflib.chain_step. cbn [fst snd].
    rewrite filter_app, length_app, filter_cons, filter_nil.
    destruct (decide (key y = k)) as [<-|Hne].
    + rewrite lookup_insert_eq. cbn [default from_option Datatypes.id].
      split; [|split].
      * apply StronglySorted_app. split; [|split; [done|repeat constructor]].
        intros j1 j2 Hj1 ->%list_elem_of_singleton.
        apply Hmem in Hj1. destruct (b !! j1) eqn:Hb; [|done].
        by apply lookup_lt_Some in Hb.
      * intros j. rewrite elem_of_app, list_elem_of_singleton, Hmem.
        destruct (lt_eq_lt_dec j (length b)) as [[Hlt| ->]|Hgt].
        -- rewrite lookup_app_l by done. split; [intros [?|?]; [done|lia]|auto].
        -- rewrite list_lookup_middle by done.
           rewrite (proj2 (lookup_ge_None b (length b))) by lia.
           split; [done|auto].
        -- rewrite (proj2 (lookup_ge_None b j)) by lia.
           rewrite (proj2 (lookup_ge_None (b ++ [y]) j))
             by (rewrite length_app; simpl; lia).
           split; [intros [?|?]; [done|lia]|done].
      * rewrite length_app, Hlen. simpl. lia.
    + rewrite lookup_insert_ne by done.
      split; [done|]. split; [|simpl; lia].
      intros j. rewrite Hmem.
      destruct (lt_eq_lt_dec j (length b)) as [[Hlt| ->]|Hgt].
      * by rewrite lookup_app_l.
      * rewrite list_lookup_middle by done.
        rewrite (proj2 (lookup_ge_None b (length b))) by lia.
        simpl. split; [done|congruence].
      * rewrite (proj2 (lookup_ge_None b j)) by lia.
        by rewrite (proj2 (lookup_ge_None (b ++ [y]) j))
          by (rewrite length_app; simpl; lia).
Qed.

(** When no key is popular, [__chain_b] deletes nothing. *)
Lemma chain_b_no_popular (b : list E) :
  no_popular key b -> Difflib.chain_b key b true = Difflib.b2j_all key b.
Proof.
  intros Hnp. unfold Difflib.chain_b. apply map_filter_id.
  intros k js Hjs (_ & Hlen & Hpop). cbn [snd] in Hpop.
  destruct Hnp as [Hshort|Hcount]; [lia|].
  destruct (b2j_all_spec b k) as (_ & _ & Hl).
  rewrite Hjs in Hl. cbn [default from_option Datatypes.id] in Hl.
  specialize (Hcount k). lia.
Qed.

Lemma chain_b_complete (b : list E) :
  no_popular key b -> b2j_complete key b (Difflib.chain_b key b true).
Proof.
  intros Hnp k. rewrite chain_b_no_popular by done.
  destruct (b2j_all_spec b k) as (? & ? & _). done.
Qed.
End ChainB.

(** ** The matcher: the scan finds the longest match *)

Section RunLength.
Local Open Scope nat_scope.
Context {E K : Type} `{Countable K} (key : E -> K) (a b : list E).
Context (alo blo : nat).

Lemma run_length_unfold i j :
  run_length key a b alo blo i j
  = if (alo <=? i) && (blo <=? j) && Difflib.elt_eq key a b i j
    then S (prev_run key a b alo blo i j) else 0.
Proof. by destruct i. Qed.

Lemma run_length_pos i j :
  alo <= i -> blo <= j -> Difflib.elt_eq key a b i j = true ->
  run_length key a b alo blo i j = S (prev_run key a b alo blo i j).
Proof.
  intros Hi Hj Heq. rewrite run_length_unfold, Heq.
  by rewrite (proj2 (Nat.leb_le _ _) Hi), (proj2 (Nat.leb_le _ _) Hj).
Qed.

Lemma run_length_matches i : forall j d,
  d < run_length key a b alo blo i j ->
  d <= i /\ d <= j /\ alo <= i - d /\ blo <= j - d /\
  Difflib.elt_eq key a b (i - d) (j - d) = true.
Proof.
  induction i as [|i' IH]; intros j d; rewrite run_length_unfold;
    destruct (_ && _) eqn:Hg; try lia;
    apply andb_prop in Hg as [[Hi%Nat.leb_le Hj%Nat.leb_le]%andb_prop Heq].
  - simpl. intros Hd. assert (d = 0) as -> by lia.
    rewrite !Nat.sub_0_r. repeat split; [lia..|done].
  - destruct d as [|d'].
    + intros _. rewrite !Nat.sub_0_r. repeat split; [lia..|done].
    + destruct j as [|j']; simpl; [lia|].
      intros Hd. destruct (IH j' d') as (? & ? & ? & ? & ?); [lia|].
      repeat split; [lia..|done].
Qed.

Lemma run_length_max i : forall j k,
  (forall d, d < k ->
     d <= i /\ d <= j /\ alo <= i - d /\ blo <= j - d /\
     Difflib.elt_eq key a b (i - d) (j - d) = true) ->
  k <= run_length key a b alo blo i j.
Proof.
  induction i as [|i' IH]; intros j k Hk.
  all: destruct k as [|k']; [lia|].
  all: destruct (Hk 0) as (_ & _ & Hi & Hj & Heq); [lia|].
  all: repeat rewrite Nat.sub_0_r in Hi.
  all: repeat rewrite Nat.sub_0_r in Hj.
  all: repeat rewrite Nat.sub_0_r in Heq.
  all: rewrite run_length_pos by done.
  - destruct k' as [|k'']; [lia|]. destruct (Hk 1); lia.
  - destruct j as [|j'].
    + destruct k' as [|k'']; [simpl; lia|]. destruct (Hk 1) as (_ & ? & _); lia.
    + simpl. apply le_n_S, IH. intros d Hd.
      destruct (Hk (S d)) as (? & ? & ? & ? & ?); [lia|].
      repeat split; [lia..|done].
Qed.
End RunLength.

Section ScanInvariant.
Local Open Scope nat_scope.
Context {E K : Type} `{Countable K} (key : E -> K) (a b : list E).
Context (b2j : gmap K (list nat)) (alo ahi blo bhi : nat).
Hypothesis b2j_ok : b2j_complete key b b2j.

(** The indices the scan goes through in row [i]. *)
Lemma row_indices i :
  let js := match a !! i with
            | Some x => default [] (b2j !! key x)
            | None => []
            end in
  StronglySorted lt js /\
  forall j, j ∈ js <-> Difflib.elt_eq key a b i j = true.
Proof.
  unfold Difflib.elt_eq. destruct (a !! i) as [x|]; simpl.
  - destruct (b2j_ok (key x)) as [Hs Hm]. split; [done|].
    intros j. rewrite Hm. destruct (b !! j) as [y|]; simpl.
    + rewrite bool_decide_eq_true. split; [by intros [= ->]|by intros ->].
    + done.
  - split; [constructor|]. intros j. split; [by intros ?%elem_of_nil|done].
Qed.

Lemma inv_advance i lo lo' newj2len best :
  lo <= lo' \/ bhi <= lo' ->
  (forall j, lo <= j -> j < lo' -> blo <= j -> j < bhi ->
             Difflib.elt_eq key a b i j = false) ->
  row_inv key a b alo blo bhi i lo newj2len ->
  best_inv key a b alo ahi blo bhi i lo best ->
  row_inv key a b alo blo bhi i lo' newj2len /\
  best_inv key a b alo ahi blo bhi i lo' best.
Proof.
  intros Hlo Hnone Hrow (Hwin & Hm & Hzero & Hend & Hbest). split.
  - intros j. rewrite Hrow.
    destruct (Nat.leb_spec blo j), (Nat.ltb_spec j bhi), (Nat.ltb_spec j lo),
      (Nat.ltb_spec j lo'), (Difflib.elt_eq key a b i j) eqn:Heq;
      simpl; try done; try lia.
    rewrite Hnone in Heq by lia. done.
  - split; [done|]. split; [done|]. split; [done|]. split.
    + intros Hk. destruct (Hend Hk) as [He1 He2]. split; [done|].
      intros He. specialize (He2 He).
      destruct best as [[bi bj] bk]. simpl in *. lia.
    + intros i' j' Hp Hi' Hj' Heq. apply Hbest; try done.
      destruct Hp as [Hp|[-> Hp]]; [by left|]. right. split; [done|].
      destruct (Nat.lt_ge_cases j' lo) as [|Hge]; [done|].
      rewrite Hnone in Heq by lia. done.
Qed.

Lemma scan_row_inv i j2len js : forall lo newj2len best,
  alo <= i < ahi ->
  pre_inv key a b alo blo bhi i j2len ->
  StronglySorted lt js ->
  (forall j, j ∈ js -> lo <= j /\ Difflib.elt_eq key a b i j = true) ->
  (forall j, lo <= j -> Difflib.elt_eq key a b i j = true -> j ∈ js) ->
  row_inv key a b alo blo bhi i lo newj2len ->
  best_inv key a b alo ahi blo bhi i lo best ->
  row_inv key a b alo blo bhi i bhi
    (Difflib.scan_row blo bhi i js j2len newj2len best).1 /\
  best_inv key a b alo ahi blo bhi i bhi
    (Difflib.scan_row blo bhi i js j2len newj2len best).2.
Proof.
  intros lo newj2len best Hi Hpre. revert lo newj2len best.
  induction js as [|j js IH]; intros lo newj2len best Hs Hin Hall Hrow Hbest.
  - simpl. apply (inv_advance i lo); [lia| |done..].
    intros j Hj _ _ _. destruct (Difflib.elt_eq key a b i j) eqn:Heq; [|done].
    by apply Hall, elem_of_nil in Heq.
  - apply StronglySorted_inv in Hs as [Hs Hlt].
    rewrite Forall_forall in Hlt.
    destruct (Hin j) as [Hloj Heqj]; [apply elem_of_cons; by left|].
    assert (forall j', lo <= j' -> j' < j ->
                       Difflib.elt_eq key a b i j' = false) as Hgap.
    { intros j' Hj' Hlt'.
      destruct (Difflib.elt_eq key a b i j') eqn:Heq; [|done].
      apply Hall in Heq; [|lia].
      apply elem_of_cons in Heq as [->|Hjs]; [lia|].
      apply Hlt in Hjs. lia. }
    assert (forall j', j' ∈ js ->
                       S j <= j' /\ Difflib.elt_eq key a b i j' = true)
      as Hin'.
    { intros j' Hj'. split; [by apply Hlt|].
      apply Hin, elem_of_cons. by right. }
    assert (forall j', S j <= j' -> Difflib.elt_eq key a b i j' = true ->
                       j' ∈ js) as Hall'.
    { intros j' Hj' Heq. apply Hall in Heq; [|lia].
      apply elem_of_cons in Heq as [->|?]; [lia|done]. }
    cbn [Difflib.scan_row].
    destruct (Nat.ltb_spec j blo) as [Hblo|Hblo].
    { destruct (inv_advance i lo (S j) newj2len best) as [Hrow' Hbest'];
        [lia| |done..|by eapply IH].
      intros j' ? ? ? ?. destruct (decide (j' = j)) as [->|]; [lia|].
      apply Hgap; lia. }
    destruct (Nat.leb_spec bhi j) as [Hbhi|Hbhi].
    { apply (inv_advance i lo); [lia| |done..].
      intros j' ? ? ? ?. apply Hgap; lia. }
    destruct (inv_advance i lo j newj2len best) as [Hrow' Hbest'];
      [lia|by intros; apply Hgap|done..|].
    assert (Difflib.j2lenget j2len j + 1
            = run_length key a b alo blo i j) as Hk.
    { rewrite run_length_pos by (done || lia). rewrite Hpre by lia. lia. }
    rewrite Hk. eapply (IH (S j)); [done..| |].
    + intros j'. destruct (decide (j' = j)) as [->|Hne].
      * rewrite lookup_insert_eq, Heqj.
        rewrite (proj2 (Nat.leb_le _ _) Hblo), (proj2 (Nat.ltb_lt _ _) Hbhi).
        by rewrite (proj2 (Nat.ltb_lt j (S j))) by lia.
      * rewrite lookup_insert_ne by done. rewrite Hrow'.
        destruct (Nat.ltb_spec j' j), (Nat.ltb_spec j' (S j)); try done; lia.
    + clear Hrow Hbest Hrow' IH.
      destruct Hbest' as (Hwin & Hm & Hzero & Hend & Hprev).
      pose proof (run_length_matches key a b alo blo i j) as Hrun.
      destruct best as [[bi bj] bk]. cbn [fst snd] in *.
      set (k := run_length key a b alo blo i j) in *.
      assert (0 < k) as Hkpos by (rewrite <- Hk; lia).
      destruct (Hrun (k - 1)) as (Hki & Hkj & Hka & Hkb & _); [lia|].
      destruct (Nat.ltb_spec bk k) as [Hlt'|Hge].
      * split; [simpl; lia|]. split.
        { intros d Hd. destruct (Hrun (k - 1 - d)) as (_ & _ & _ & _ & Heq);
            [lia|].
          by replace (i + 1 - k + d) with (i - (k - 1 - d)) by lia;
            replace (j + 1 - k + d) with (j - (k - 1 - d)) by lia. }
        cbn [fst snd]. split; [lia|]. split; [lia|].
        intros i' j' Hp Hi' Hj' Heq.
        destruct (decide (i' = i /\ j' = j)) as [[-> ->]|Hne].
        -- fold k. lia.
        -- destruct (Hprev i' j') as [Hle _]; [|done..|lia].
           destruct Hp as [?|[-> ?]]; [by left|]. right. split; [done|]. lia.
      * split; [done|]. split; [done|]. cbn [fst snd]. split; [done|]. split.
        { intros Hbk. destruct (Hend Hbk). lia. }
        intros i' j' Hp Hi' Hj' Heq.
        destruct (decide (i' = i /\ j' = j)) as [[-> ->]|Hne].
        -- fold k. split; [lia|]. intros ->. destruct (Hend Hkpos). lia.
        -- apply Hprev; try done.
           destruct Hp as [?|[-> ?]]; [by left|]. right. split; [done|]. lia.
Qed.
End ScanInvariant.

Section ScanLongest.
Local Open Scope nat_scope.
Context {E K : Type} `{Countable K} (key : E -> K) (a b : list E).
Context (b2j : gmap K (list nat)) (alo ahi blo bhi : nat).
Hypothesis b2j_ok : b2j_complete key b b2j.

Lemma scan_step_inv st i :
  alo <= i < ahi ->
  pre_inv key a b alo blo bhi i st.1 ->
  best_inv key a b alo ahi blo bhi i 0 st.2 ->
  pre_inv key a b alo blo bhi (S i)
    (Difflib.scan_step key a b2j blo bhi st i).1 /\
  best_inv key a b alo ahi blo bhi (S i) 0
    (Difflib.scan_step key a b2j blo bhi st i).2.
Proof.
  intros Hi Hpre Hbest. unfold Difflib.scan_step.
  destruct (row_indices key a b b2j b2j_ok i) as [Hs Hm].
  destruct (scan_row_inv key a b alo ahi blo bhi i st.1 _ 0 ∅ st.2
              Hi Hpre Hs) as [Hrow (Hwin & Hmatch & Hzero & Hend & Hall)];
    [intros j Hj; split; [lia|by apply Hm]|intros j _ Hj; by apply Hm| |done|].
  { intros j. rewrite lookup_empty.
    by destruct (blo <=? j), (j <? bhi). }
  split.
  - intros j Hj. destruct j as [|j']; [done|]. simpl.
    rewrite Hrow, run_length_unfold.
    rewrite (proj2 (Nat.leb_le alo i)) by lia.
    rewrite (proj2 (Nat.ltb_lt j' bhi)) by lia.
    by destruct (blo <=? j'), (Difflib.elt_eq key a b i j').
  - split; [done|]. split; [done|]. split; [done|]. split.
    + intros Hk. specialize (Hend Hk). lia.
    + intros i' j' Hp Hi' Hj' Heq. apply Hall; try done.
      destruct Hp as [Hp|[_ Hp]]; [|lia].
      destruct (decide (i' = i)) as [->|]; [right; lia|left; lia].
Qed.

Lemma scan_fold_inv n : forall i st,
  alo <= i -> i + n <= ahi ->
  pre_inv key a b alo blo bhi i st.1 ->
  best_inv key a b alo ahi blo bhi i 0 st.2 ->
  best_inv key a b alo ahi blo bhi (i + n) 0
    (foldl (Difflib.scan_step key a b2j blo bhi) st (seq i n)).2.
Proof.
  induction n as [|n IH]; intros i st Hi Hn Hpre Hbest; simpl.
  - by rewrite Nat.add_0_r.
  - destruct (scan_step_inv st i) as [Hpre' Hbest']; [lia|done..|].
    replace (i + S n) with (S i + n) by lia. apply IH; [lia..|done|done].
Qed.

(** The scan returns the longest match of the window, the first of them
    in [a] and then in [b]. *)
Lemma scan_longest :
  alo <= ahi -> blo <= bhi ->
  is_longest_match key a b alo ahi blo bhi
    (Difflib.scan key a b2j alo ahi blo bhi).
Proof.
  intros Ha Hb. unfold Difflib.scan.
  destruct (scan_fold_inv (ahi - alo) alo (∅, (alo, blo, 0)))
    as (Hwin & Hmatch & Hzero & Hend & Hall); [lia|lia| | |].
  { intros j Hj. destruct alo as [|alo'], j as [|j']; try done.
    simpl. rewrite run_length_unfold.
    by rewrite (proj2 (Nat.leb_gt (S alo') alo')) by lia. }
  { split; [simpl; lia|]. split; [intros d Hd; simpl in Hd; lia|].
    split; [done|]. split; [simpl; lia|].
    intros i' j' [Hp|[_ Hp]]; lia. }
  replace (alo + (ahi - alo)) with ahi in * by lia.
  destruct (foldl _ _ _).2 as [[bi bj] bk]. cbn [fst snd] in *.
  split; [done|]. split; [done|].
  intros [[i' j'] k'] (Hi' & Hik' & Hj' & Hjk') Hm'. cbn [fst snd].
  destruct k' as [|k''].
  { split; [lia|]. intros Hk. destruct Hzero; [done|]. lia. }
  destruct (Hall (i' + k'') (j' + k'')) as [Hle Htie];
    [left; lia|lia|lia|apply Hm'; lia|].
  assert (S k'' <= run_length key a b alo blo (i' + k'') (j' + k''))
    as Hrun.
  { apply run_length_max. intros d Hd.
    repeat split; [lia..|].
    replace (i' + k'' - d) with (i' + (k'' - d)) by lia.
    replace (j' + k'' - d) with (j' + (k'' - d)) by lia.
    apply Hm'. lia. }
  split; [lia|]. intros Hk. destruct Htie; lia.
Qed.

Lemma elt_eq_bounds i j :
  Difflib.elt_eq key a b i j = true -> i < length a /\ j < length b.
Proof.
  unfold Difflib.elt_eq.
  destruct (a !! i) eqn:Ha; [|done]. destruct (b !! j) eqn:Hb; [|done].
  intros _. split; by eapply lookup_lt_Some.
Qed.

(** The loops that extend a longest match find nothing to add. *)
Lemma extend_left_longest junk bi bj bk :
  is_longest_match key a b alo ahi blo bhi (bi, bj, bk) ->
  Difflib.extend_left key a b alo blo junk bi bj bk = (bi, bj, bk).
Proof.
  intros ((Hi & Hik & Hj & Hjk) & Hm & Hmax).
  destruct bi as [|i'], bj as [|j']; try done. simpl.
  destruct (_ && _) eqn:Hc; [|done].
  repeat (apply andb_prop in Hc as [Hc ?]).
  apply Nat.ltb_lt in Hc. assert (blo < S j') by by apply Nat.ltb_lt.
  destruct (Hmax (i', j', S bk)) as [Hle _]; [simpl; lia| |simpl in Hle; lia].
  intros [|d] Hd.
  - by rewrite !Nat.add_0_r.
  - replace (i' + S d) with (S i' + d) by lia.
    replace (j' + S d) with (S j' + d) by lia. apply Hm. lia.
Qed.

Lemma extend_right_longest junk n bi bj bk :
  is_longest_match key a b alo ahi blo bhi (bi, bj, bk) ->
  Difflib.extend_right key a b ahi bhi junk n bi bj bk = bk.
Proof.
  intros ((Hi & Hik & Hj & Hjk) & Hm & Hmax).
  destruct n as [|n]; [done|]. simpl.
  destruct (_ && _) eqn:Hc; [|done].
  repeat (apply andb_prop in Hc as [Hc ?]).
  apply Nat.ltb_lt in Hc. assert (bj + bk < bhi) by by apply Nat.ltb_lt.
  destruct (Hmax (bi, bj, S bk)) as [Hle _]; [simpl; lia| |simpl in Hle; lia].
  intros d Hd. destruct (decide (d = bk)) as [->|]; [done|].
  apply Hm. lia.
Qed.

(** With an index that leaves no element of [b] out,
    [find_longest_match] returns the block its documentation promises. *)
Lemma find_longest_match_longest :
  alo <= ahi -> blo <= bhi ->
  is_longest_match key a b alo ahi blo bhi
    (Difflib.find_longest_match key a b b2j alo ahi blo bhi).
Proof.
  intros Ha Hb. unfold Difflib.find_longest_match.
  pose proof (scan_longest Ha Hb) as Hbest.
  destruct (Difflib.scan _ _ _ _ _ _ _) as [[bi bj] bk].
  rewrite (extend_left_longest false) by done.
  rewrite (extend_right_longest false) by done.
  rewrite (extend_left_longest true) by done.
  by rewrite (extend_right_longest true) by done.
Qed.
End ScanLongest.

(** C5, as stated: no element is ever left out of the matching, and the
    block found is a longest one.  It is not so: [SequenceMatcher] is
    built with its default [autojunk], and in a list of 200 records that
    all have the id 211 this id is popular and deleted from the index;
    against the list of a record of id 321 and one of id 211 no block is
    found, though the block [(1, 0, 1)] matches. *)
Lemma popular_ids_are_left_out :
  ~ (forall A B : list Particle,
       is_longest_match id A B 0 (length A) 0 (length B)
         (Difflib.find_longest_match id A B (Difflib.chain_b id B true)
            0 (length A) 0 (length B))).
Proof.
  intros Hall.
  destruct (Hall [K_plus; pi_plus] crowded_B) as (_ & _ & Hmax).
  destruct (Hmax (1, 0, 1)%nat) as [Hle _].
  - vm_compute. repeat split; repeat constructor.
  - intros d Hd. assert (d = 0%nat) as -> by lia. reflexivity.
  - vm_compute in Hle. lia.
Qed.

(** C5, amended: when no id is popular in [B] (fewer than 200 records,
    or no id held by more than [len(B) // 100 + 1] of them), no element of
    [B] is left out of the index the matcher searches, and in every window
    [find_longest_match] returns a matching block that is at least as long
    as every matching block of the window, and among those of its length
    the one that starts earliest in [A], and of those the one that starts
    earliest in [B], under equality of ids. *)
Theorem find_longest_match_without_popular (A B : list Particle)
    (alo ahi blo bhi : nat) :
  no_popular id B -> (alo <= ahi)%nat -> (blo <= bhi)%nat ->
  b2j_complete id B (Difflib.chain_b id B true) /\
  is_longest_match id A B alo ahi blo bhi
    (Difflib.find_longest_match id A B (Difflib.chain_b id B true)
       alo ahi blo bhi).
Proof.
  intros Hnp Ha Hb. split; [by apply chain_b_complete|].
  apply find_longest_match_longest; [by apply chain_b_complete|done..].
Qed.

Lemma find_longest_match_without_popular_witness :
  b2j_complete id [K_plus; pi_plus_heavy]
    (Difflib.chain_b id [K_plus; pi_plus_heavy] true) /\
  is_longest_match id [pi_plus; K_plus] [K_plus; pi_plus_heavy] 0 2 0 2
    (Difflib.find_longest_match id [pi_plus; K_plus] [K_plus; pi_plus_heavy]
       (Difflib.chain_b id [K_plus; pi_plus_heavy] true) 0 2 0 2).
Proof.
  apply find_longest_match_without_popular.
  - left. simpl. lia.
  - lia.
  - lia.
Defined.

(** ** The order of floats *)

Section FloatOrder.
Implicit Types x y z : float.

Lemma SFcompare_key x y :
  Float64.is_nan x = false -> Float64.is_nan y = false ->
  SFcompare x y = Some (key_compare (order_key x) (order_key y)).
Proof.
  intros Hx Hy.
  destruct x as [sx|sx| |sx mx ex], y as [sy|sy| |sy my ey]; try done;
    try (by destruct sx); try (by destruct sy); try (by destruct sx, sy).
  destruct sx, sy; try done; unfold key_compare;
    cbn [SFcompare order_key fst snd].
  change (-1 ?= -1)%Z with Eq. cbv iota.
  rewrite !Z.compare_opp. rewrite (Z.compare_antisym ey ex).
  destruct (ey ?= ex)%Z; cbn [CompOpp]; try done.
  change (Z.pos my ?= Z.pos mx)%Z with (Pos.compare my mx).
  by rewrite (Pos.compare_antisym mx my).
Qed.

Lemma key_compare_le (u v : Z * Z * Z) :
  key_compare u v <> Gt
  <-> (u.1.1 < v.1.1
       \/ u.1.1 = v.1.1 /\
          (u.1.2 < v.1.2 \/ u.1.2 = v.1.2 /\ u.2 <= v.2))%Z.
Proof.
  unfold key_compare.
  destruct (Z.compare_spec u.1.1 v.1.1), (Z.compare_spec u.1.2 v.1.2),
    (Z.compare_spec u.2 v.2); split; try done; try lia;
    intros ?; exfalso; lia.
Qed.

Lemma key_compare_lt (u v : Z * Z * Z) :
  key_compare u v = Lt
  <-> (u.1.1 < v.1.1
       \/ u.1.1 = v.1.1 /\
          (u.1.2 < v.1.2 \/ u.1.2 = v.1.2 /\ u.2 < v.2))%Z.
Proof.
  unfold key_compare.
  destruct (Z.compare_spec u.1.1 v.1.1), (Z.compare_spec u.1.2 v.1.2),
    (Z.compare_spec u.2 v.2); split; try done; try lia;
    intros ?; exfalso; lia.
Qed.

Lemma leb_key x y :
  Float64.leb x y = true
  <-> Float64.is_nan x = false /\ Float64.is_nan y = false /\
      key_compare (order_key x) (order_key y) <> Gt.
Proof.
  unfold Float64.leb, SFleb.
  destruct (Float64.is_nan x) eqn:Hx.
  { destruct x; try done. simpl. split; [done|]. by intros [? _]. }
  destruct (Float64.is_nan y) eqn:Hy.
  { destruct y; try done. destruct x; simpl; split; try done;
      by intros (_ & ? & _). }
  rewrite SFcompare_key by done.
  destruct (key_compare _ _); split; try done; by intros (_ & _ & ?).
Qed.

Lemma ltb_key x y :
  Float64.ltb x y = true
  <-> Float64.is_nan x = false /\ Float64.is_nan y = false /\
      key_compare (order_key x) (order_key y) = Lt.
Proof.
  unfold Float64.ltb, SFltb.
  destruct (Float64.is_nan x) eqn:Hx.
  { destruct x; try done. simpl. split; [done|]. by intros [? _]. }
  destruct (Float64.is_nan y) eqn:Hy.
  { destruct y; try done. destruct x; simpl; split; try done;
      by intros (_ & ? & _). }
  rewrite SFcompare_key by done.
  destruct (key_compare _ _); split; try done; by intros (_ & _ & ?).
Qed.

(** Below the larger of two floats is below one of them. *)
Lemma leb_max d x y :
  Float64.is_nan x = false ->
  Float64.leb d (Float64.max x y) = Float64.leb d x || Float64.leb d y.
Proof.
  intros Hx. unfold Float64.max.
  destruct (Float64.ltb x y) eqn:Hlt.
  - apply ltb_key in Hlt as (_ & Hy & Hlt). apply key_compare_lt in Hlt.
    destruct (Float64.leb d x) eqn:Hdx; [|done].
    apply leb_key in Hdx as (Hd & _ & Hdx). apply key_compare_le in Hdx.
    simpl. apply leb_key. repeat split; [done..|].
    apply key_compare_le. lia.
  - destruct (Float64.leb d y) eqn:Hdy; [|by rewrite orb_false_r].
    rewrite orb_true_r.
    apply leb_key in Hdy as (Hd & Hy & Hdy). apply key_compare_le in Hdy.
    apply leb_key. repeat split; [done..|]. apply key_compare_le.
    assert (key_compare (order_key x) (order_key y) <> Lt) as Hge.
    { intros Hc. assert (Float64.ltb x y = true) as Hlt'
        by by apply ltb_key. congruence. }
    rewrite key_compare_lt in Hge. lia.
Qed.

Lemma max_not_nan x y :
  Float64.is_nan x = false -> Float64.is_nan (Float64.max x y) = false.
Proof.
  intros Hx. unfold Float64.max.
  destruct (Float64.ltb x y) eqn:Hlt; [|done].
  by apply ltb_key in Hlt as (_ & Hy & _).
Qed.

Lemma leb_zero_not_negative tol :
  Float64.leb Float64.zero tol = true ->
  Float64.ltb tol Float64.zero = false /\ Float64.is_nan tol = false.
Proof. by destruct tol as [[]|[]| |[] m e]. Qed.
End FloatOrder.

(** ** [math.isclose] as a formula *)

Section IsClose.
Implicit Types a b tol : float.

Lemma abs_binary_round_aux sx m e l :
  SFabs (binary_round_aux Float64.prec Float64.emax sx m e l)
  = SFabs (binary_round_aux Float64.prec Float64.emax false m e l).
Proof.
  unfold binary_round_aux.
  destruct (shr_fexp _ _ m e l) as [mrs' e'].
  destruct (shr_fexp _ _ _ e' loc_Exact) as [mrs'' e''].
  destruct (shr_m mrs''); try done. by destruct (_ <=? _)%Z.
Qed.

Lemma abs_binary_normalize_opp z e :
  SFabs (binary_normalize Float64.prec Float64.emax (- z) e false)
  = SFabs (binary_normalize Float64.prec Float64.emax z e false).
Proof.
  destruct z as [|p|p]; [done| |].
  - change (- Z.pos p)%Z with (Z.neg p). unfold binary_normalize, binary_round.
    destruct (shl_align _ _ _) as [mz ez].
    by rewrite (abs_binary_round_aux true).
  - change (- Z.neg p)%Z with (Z.pos p). unfold binary_normalize, binary_round.
    destruct (shl_align _ _ _) as [mz ez].
    by rewrite (abs_binary_round_aux true).
Qed.

(** [|a - b|] and [|b - a|] are the same float. *)
Lemma abs_sub_comm a b :
  Float64.abs (Float64.sub a b) = Float64.abs (Float64.sub b a).
Proof.
  unfold Float64.abs, Float64.sub.
  destruct a as [sa|sa| |sa ma ea], b as [sb|sb| |sb mb eb]; try done;
    try (by destruct sa, sb); try (by destruct sa); try (by destruct sb).
  cbn [SFsub]. rewrite (Z.min_comm eb ea).
  rewrite <- abs_binary_normalize_opp. f_equal. f_equal. lia.
Qed.

(** Equal floats that are not infinite have the difference zero. *)
Lemma abs_sub_eq a b :
  Float64.eqb a b = true -> Float64.is_infinity a = false ->
  Float64.abs (Float64.sub a b) = Float64.zero.
Proof.
  unfold Float64.eqb, SFeqb, Float64.abs, Float64.sub.
  destruct a as [sa|sa| |sa ma ea], b as [sb|sb| |sb mb eb]; try done;
    try (by destruct sa, sb); try (by destruct sa); try (by destruct sb).
  intros Heq _.
  assert (sa = sb /\ ea = eb /\ ma = mb) as (-> & -> & ->).
  { cbn [SFcompare] in Heq. rewrite Pos.compare_cont_spec in Heq.
    cbn [Pos.switch_Eq] in Heq.
    destruct sa, sb; try done;
      destruct (Z.compare_spec ea eb) as [->| |]; try done;
      destruct (Pos.compare_spec ma mb) as [->| |]; done. }
  cbn [SFsub]. by rewrite Z.sub_diag.
Qed.

Lemma math_isclose_formula tol a b :
  Float64.leb Float64.zero tol = true ->
  Float64.is_infinity a = false -> Float64.is_infinity b = false ->
  math_isclose a b tol tol = Ok (close_floats tol a b).
Proof.
  intros [Htol Hnan]%leb_zero_not_negative Ha Hb.
  unfold math_isclose, close_floats. rewrite Htol, Ha, Hb. cbn [orb].
  rewrite !leb_max by (done || by apply max_not_nan).
  destruct (Float64.eqb a b) eqn:Heq.
  - rewrite abs_sub_eq by done.
    assert (Float64.leb Float64.zero tol = true) as ->; [|done].
    by destruct tol as [[]|[]| |[] m e].
  - rewrite (abs_sub_comm a b).
    by destruct (Float64.leb _ (Float64.abs (Float64.mul tol b))),
      (Float64.leb _ (Float64.abs (Float64.mul tol a))),
      (Float64.leb _ tol).
Qed.
End IsClose.

(** ** [diff] reports the fields that are not close *)

Lemma diff_comprehension_filter tol close l : forall acc,
  NoDup (acc.*1 ++ l.*1) ->
  Forall (fun fxy => isclose tol fxy.2.1 fxy.2.2
                     = Ok (close_values close fxy.2.1 fxy.2.2)) l ->
  diff_comprehension tol l acc
  = Ok (acc ++ filter (fun fxy => close_values close fxy.2.1 fxy.2.2 = false)
                 l).
Proof.
  induction l as [|[f [x y]] l IH]; intros acc Hnd Hl.
  - simpl. by rewrite app_nil_r.
  - apply Forall_cons in Hl as [Hxy Hl]. cbn [fst snd] in Hxy.
    cbn [diff_comprehension]. rewrite Hxy. cbn [mbind result_bind].
    rewrite filter_cons. cbn [fst snd].
    assert (f ∉ acc.*1) as Hf.
    { apply NoDup_app in Hnd as (_ & Hd & _). intros Hin.
      apply (Hd _ Hin). simpl. apply elem_of_cons. by left. }
    destruct (close_values close x y); cbn [negb].
    + rewrite decide_False by done. apply IH; [|done].
      simpl in Hnd. apply NoDup_app in Hnd as (Ha & Hd & Hl').
      apply NoDup_app. repeat split; [done| |by apply NoDup_cons in Hl' as [_ ?]].
      intros k Hk Hk'. apply (Hd k Hk). apply elem_of_cons. by right.
    + rewrite decide_True by done. rewrite dict_set_fresh by done.
      rewrite IH; [by rewrite <- app_assoc| |done].
      rewrite fmap_app. simpl. by rewrite <- app_assoc.
Qed.

Lemma no_infinity_fields p :
  no_infinity p = true ->
  Float64.is_infinity (mass p) = false /\
  Float64.is_infinity (width p) = false /\
  Float64.is_infinity (max_dM p) = false /\
  Float64.is_infinity (lifetime p) = false.
Proof.
  unfold no_infinity. rewrite !andb_true_iff, !negb_true_iff. tauto.
Qed.

(** C2, as stated: a float field is reported iff
    [|a - b| > max(tolerance, tolerance * max(|a|, |b|))].  It is not so
    for an infinite value: an infinity is close to nothing but itself,
    while the formula, whose two sides are then both infinite, calls it
    close to every finite number. *)
Lemma infinite_values_are_not_close :
  ~ (forall (r s : Particle) (tolerance : float),
       id r = id s ->
       diff r s tolerance
       = Ok (fields_not_close (close_floats_relative tolerance) r s)).
Proof.
  intros Hall.
  specialize (Hall pi_plus_stable pi_plus default_tolerance eq_refl).
  vm_compute in Hall. discriminate Hall.
Qed.

(** C2, amended: for a tolerance that is a number and not negative, and
    two records without an infinite float field, [diff] returns, in the
    order of the fields, exactly the fields other than [line] whose two
    values are not close, with both values; floats are close when
    [|a - b| <= max(tolerance, |tolerance * a|, |tolerance * b|)] in
    binary64, the other values when they are equal; the result is empty
    exactly when all nine pairs are close. *)
Theorem diff_reports_fields_not_close (r s : Particle) (tolerance : float) :
  Float64.leb Float64.zero tolerance = true ->
  no_infinity r = true -> no_infinity s = true ->
  diff r s tolerance = Ok (fields_not_close (close_floats tolerance) r s) /\
  (diff r s tolerance = Ok [] <->
   Forall (fun fxy => close_values (close_floats tolerance) fxy.2.1 fxy.2.2
                      = true)
     (compared_fields r s)).
Proof.
  intros Htol (Hm & Hw & Hd & Hl)%no_infinity_fields
    (Hm' & Hw' & Hd' & Hl')%no_infinity_fields.
  assert (diff r s tolerance
          = Ok (fields_not_close (close_floats tolerance) r s)) as Hdiff.
  { unfold diff, fields_not_close, compared_fields.
    rewrite (diff_comprehension_filter tolerance (close_floats tolerance));
      [done| |].
    - apply (bool_decide_unpack _). vm_compute. exact I.
    - cbn [_fields but_last length Nat.sub take as_tuple zip zip_with].
      repeat constructor; cbn [fst snd isclose as_double mbind result_bind
                               close_values];
        by apply math_isclose_formula. }
  split; [done|]. rewrite Hdiff. unfold fields_not_close.
  split.
  - intros [= Hnil]. apply Forall_forall. intros fxy Hin.
    destruct (close_values _ _ _) eqn:Hc; [done|].
    assert (fxy ∈ filter (fun fxy => close_values (close_floats tolerance)
                                      fxy.2.1 fxy.2.2 = false)
                    (compared_fields r s)) as Hf
      by by apply list_elem_of_filter.
    rewrite Hnil in Hf. by apply elem_of_nil in Hf.
  - intros Hall. f_equal.
    induction (compared_fields r s) as [|fxy l IH]; [done|].
    apply Forall_cons in Hall as [Hc Hall]. rewrite filter_cons.
    rewrite decide_False by congruence. by apply IH.
Qed.

Lemma diff_reports_fields_not_close_witness :
  diff pi_plus pi_plus_heavy default_tolerance
  = Ok (fields_not_close (close_floats default_tolerance)
          pi_plus pi_plus_heavy).
Proof.
  apply (proj1 (diff_reports_fields_not_close pi_plus pi_plus_heavy
                  default_tolerance eq_refl eq_refl eq_refl)).
Defined.

(** * Further properties of the code *)

(** ** The order [_sort_by] gives *)

Section DictNoDup.
Context {K V : Type} `{EqDecision K}.
Implicit Types (d : list (K * V)) (k : K) (v : V).

Lemma dict_del_filter k d :
  NoDup d.*1 -> dict_del k d = filter (fun kv => kv.1 <> k) d.
Proof.
  induction d as [|[k' v'] d IH]; [done|]. cbn [dict_del fmap list_fmap fst].
  intros [Hk' Hd]%NoDup_cons. rewrite filter_cons. cbn [fst].
  destruct (decide (k = k')) as [->|Hne].
  - rewrite decide_False by (by intros ?).
    rewrite <- IH by done. by rewrite dict_del_absent.
  - rewrite decide_True by done. by rewrite IH.
Qed.

Lemma dict_get_filter_ne i k d :
  dict_get i (filter (fun kv => kv.1 <> k) d)
  = if decide (i = k) then None else dict_get i d.
Proof.
  induction d as [|[k' v'] d IH].
  - by destruct (decide (i = k)).
  - rewrite filter_cons. cbn [fst].
    destruct (decide (k' <> k)) as [Hne|Heq%dec_stable]; cbn [dict_get].
    + destruct (decide (i = k')) as [->|?]; [by rewrite decide_False|done].
    + subst k'. rewrite IH. by destruct (decide (i = k)).
Qed.

Lemma dict_set_keys_NoDup k v d : NoDup d.*1 -> NoDup (dict_set k v d).*1.
Proof.
  induction d as [|[k' v'] d IH]; simpl; [intros _; repeat constructor|].
  - by apply not_elem_of_nil.
  - intros [Hk' Hd]%NoDup_cons. destruct (decide (k = k')) as [->|Hne]; simpl.
    + by apply NoDup_cons.
    + apply NoDup_cons. split; [|by apply IH].
      intros Hin. apply Hk'. clear -Hin Hne.
      induction d as [|[k'' v''] d IH]; simpl in *.
      * apply elem_of_cons in Hin as [?|Hin]; [done|by apply elem_of_nil in Hin].
      * destruct (decide (k = k'')) as [->|?]; simpl in *.
        -- apply elem_of_cons in Hin as [?|Hin]; [done|].
           apply elem_of_cons. by right.
        -- apply elem_of_cons in Hin as [->|Hin];
             apply elem_of_cons; [by left|right; by apply IH].
Qed.
End DictNoDup.

Lemma omap_cons_match {A B} (f : A -> option B) (x : A) (l : list A) :
  omap f (x :: l)
  = match f x with Some y => y :: omap f l | None => omap f l end.
Proof. done. Qed.

Lemma omap_filter_ne {A} (f : Z -> option A) (k : Z) (l : list Z) :
  omap f (filter (fun y => y <> k) l)
  = omap (fun i => if decide (i = k) then None else f i) l.
Proof.
  induction l as [|x l IH]; [done|]. rewrite filter_cons, omap_cons_match.
  destruct (decide (x <> k)) as [Hne|Heq%dec_stable].
  - rewrite omap_cons_match, decide_False by done. by rewrite IH.
  - by rewrite decide_True, IH.
Qed.

Lemma StronglySorted_mono {A} (R R' : A -> A -> Prop) (l : list A) :
  (forall x y, R x y -> R' x y) -> StronglySorted R l -> StronglySorted R' l.
Proof.
  intros HR. induction 1 as [|x l Hl IH Hx]; constructor; [done|].
  eapply Forall_impl; [exact Hx|]. apply HR.
Qed.

Lemma Bdict_keys_NoDup (B : list Particle) : NoDup (Bdict B).*1.
Proof.
  unfold Bdict. assert (NoDup ([] : dict Z Particle).*1) as Hnil
    by constructor.
  revert Hnil. generalize ([] : dict Z Particle).
  induction B as [|b B IH]; intros d Hd; simpl; [done|].
  by apply IH, dict_set_keys_NoDup.
Qed.

(** The loop pops the records in the order of the first occurrences of
    their ids in [A], and leaves the others. *)
Lemma _sort_by_loop_spec (A : list Particle) :
  forall (d : list (Z * Particle)) acc,
  NoDup d.*1 ->
  _sort_by_loop A d acc
  = (acc ++ omap (fun i => dict_get i d) (first_occurrences (id <$> A)),
     filter (fun kv => kv.1 ∉ id <$> A) d).
Proof.
  induction A as [|a A IH]; intros d acc Hd.
  - simpl. rewrite app_nil_r. f_equal. symmetry.
    induction d as [|kv d IHd]; [done|].
    rewrite filter_cons, decide_True by apply not_elem_of_nil.
    f_equal. apply IHd. by apply NoDup_cons in Hd as [_ ?].
  - cbn [_sort_by_loop fmap list_fmap first_occurrences]. unfold dict_pop.
    assert (NoDup (dict_del (id a) d).*1) as Hd'.
    { rewrite dict_del_filter by done. clear -Hd.
      induction d as [|[k v] d IH]; [constructor|].
      apply NoDup_cons in Hd as [Hk Hd]. rewrite filter_cons.
      destruct (decide _); [|by apply IH]. simpl. apply NoDup_cons.
      split; [|by apply IH]. intros Hin. apply Hk.
      apply list_elem_of_fmap in Hin as ([k' v'] & -> & Hin).
      apply list_elem_of_filter in Hin as [_ Hin].
      apply list_elem_of_fmap. by exists (k', v'). }
    assert (filter (fun kv : Z * Particle => kv.1 ∉ id a :: (id <$> A)) d
            = filter (fun kv => kv.1 ∉ id <$> A)
                (dict_del (id a) d : list (Z * Particle))) as Hrest.
    { rewrite dict_del_filter by done. rewrite list_filter_filter.
      apply list_filter_iff. intros [k v]. simpl.
      rewrite not_elem_of_cons. tauto. }
    rewrite omap_cons_match, omap_filter_ne, Hrest.
    assert (omap (fun i => if decide (i = id a) then None else dict_get i d)
              (first_occurrences (id <$> A))
            = omap (fun i => dict_get i (dict_del (id a) d))
                (first_occurrences (id <$> A))) as ->.
    { apply list_omap_ext, Forall2_same_length_lookup_2; [done|].
      intros n i i' Hi Hi'. assert (i' = i) as -> by congruence.
      by rewrite dict_del_filter, dict_get_filter_ne by done. }
    destruct (dict_get (id a) d) as [b|] eqn:Hget.
    + rewrite IH by done. by rewrite <- app_assoc.
    + by rewrite IH by done.
Qed.

Lemma dict_get_of_records (i : Z) (B : list Particle) :
  dict_get i ((fun b => (id b, b)) <$> B) = find_id i B.
Proof.
  induction B as [|b B IH]; [done|]. simpl.
  by destruct (decide (i = id b)).
Qed.

Lemma filter_of_records (l : list Z) (B : list Particle) :
  (filter (fun kv : Z * Particle => kv.1 ∉ l)
     ((fun b => (id b, b)) <$> B)).*2
  = filter (fun b => id b ∉ l) B.
Proof.
  induction B as [|b B IH]; [done|]. cbn [fmap list_fmap].
  rewrite !filter_cons. cbn [fst]. destruct (decide (id b ∉ l)); [|done].
  cbn [fmap list_fmap snd]. f_equal. apply IH.
Qed.

Lemma _sort_by_as_lists (A B : list Particle) :
  NoDup (id <$> B) ->
  _sort_by A B
  = omap (fun i => find_id i B) (first_occurrences (id <$> A))
    ++ sorted line Z.leb (filter (fun b => id b ∉ id <$> A) B).
Proof.
  intros Hnd.
  unfold _sort_by. rewrite (Bdict_NoDup B []) by done. simpl.
  rewrite _sort_by_loop_spec.
  - simpl. unfold dict_values. rewrite filter_of_records.
    f_equal. apply list_omap_ext, Forall2_same_length_lookup_2; [done|].
    intros n i i' Hi Hi'. assert (i' = i) as -> by congruence.
    apply dict_get_of_records.
  - by rewrite <- list_fmap_compose.
Qed.

(** X1: when the records of [B] have pairwise distinct ids, [_sort_by(A,
    B)] is, first, the records of [B] whose id occurs in [A], in the
    order in which these ids first occur in [A], and then the records of
    [B] whose id does not occur in [A], stably sorted by their line
    number. *)
Theorem _sort_by_order (A B : list Particle) :
  NoDup (id <$> B) ->
  _sort_by A B
  = omap (fun i => find_id i B) (first_occurrences (id <$> A))
    ++ sorted line Z.leb (filter (fun b => id b ∉ id <$> A) B) /\
  StronglySorted (fun u v => (line u <= line v)%Z)
    (sorted line Z.leb (filter (fun b => id b ∉ id <$> A) B)).
Proof.
  intros Hnd. split; [by apply _sort_by_as_lists|].
  - eapply StronglySorted_mono;
      [|apply (sorted_StronglySorted line Z.leb)].
    + intros u v. apply Z.leb_le.
    + intros x y. destruct (Z.leb_spec x y); [by left|right].
      apply Z.leb_le. lia.
    + intros x y z ?%Z.leb_le ?%Z.leb_le. apply Z.leb_le. lia.
Qed.

Lemma _sort_by_order_witness :
  _sort_by [pi_plus; pi_plus] [K_plus; pi_plus_heavy]
  = [pi_plus_heavy; K_plus].
Proof.
  apply (proj1 (_sort_by_order [pi_plus; pi_plus] [K_plus; pi_plus_heavy]
                  ltac:(apply (bool_decide_unpack _); vm_compute; exact I))).
Defined.

(** ** What [_sort_by] keeps *)

Section DictLookup.
Context {K V : Type} `{EqDecision K}.
Implicit Types (d : list (K * V)) (k : K) (v : V).

Lemma dict_get_set i k v d :
  dict_get i (dict_set k v d) = if decide (i = k) then Some v else dict_get i d.
Proof.
  induction d as [|[k' v'] d IH]; cbn [dict_set dict_get].
  - by destruct (decide (i = k)).
  - destruct (decide (k = k')) as [->|Hne]; cbn [dict_get].
    + by destruct (decide (i = k')).
    + rewrite IH. destruct (decide (i = k')) as [->|?]; [|done].
      by rewrite decide_False.
Qed.

Lemma dict_get_elem k v d : NoDup d.*1 -> (k, v) ∈ d -> dict_get k d = Some v.
Proof.
  induction d as [|[k' v'] d IH]; [by intros _ ?%elem_of_nil|].
  cbn [fmap list_fmap fst dict_get].
  intros [Hk' Hd]%NoDup_cons [[= -> ->]|Hin]%elem_of_cons.
  - by rewrite decide_True.
  - rewrite decide_False; [by apply IH|]. intros ->. apply Hk'.
    apply list_elem_of_fmap. by exists (k', v).
Qed.
End DictLookup.

Lemma find_id_snoc (i : Z) (B : list Particle) (b : Particle) :
  find_id i (B ++ [b])
  = match find_id i B with
    | Some x => Some x
    | None => if decide (i = id b) then Some b else None
    end.
Proof.
  induction B as [|x B IH]; [done|]. cbn [app find_id].
  by destruct (decide (i = id x)).
Qed.

Lemma find_id_Some (i : Z) (B : list Particle) (b : Particle) :
  find_id i B = Some b -> id b = i /\ b ∈ B.
Proof.
  induction B as [|x B IH]; [done|]. cbn [find_id].
  destruct (decide (i = id x)) as [->|?].
  - intros [= ->]. split; [done|]. apply elem_of_cons. by left.
  - intros [? ?]%IH. split; [done|]. apply elem_of_cons. by right.
Qed.

(** The dictionary holds, for each id, the last record of [B] with it. *)
Lemma Bdict_get (i : Z) (B : list Particle) :
  dict_get i (Bdict B) = find_id i (reverse B).
Proof.
  unfold Bdict.
  assert (forall d : list (Z * Particle),
            dict_get i (foldl (fun d b => dict_set (id b) b d) d B)
            = match find_id i (reverse B) with
              | Some x => Some x
              | None => dict_get i d
              end) as Hgen.
  { induction B as [|b B IH]; intros d; [done|].
    cbn [foldl]. rewrite IH, reverse_cons, find_id_snoc, dict_get_set.
    destruct (find_id i (reverse B)); [done|].
    by destruct (decide (i = id b)). }
  rewrite (Hgen []). by destruct (find_id i (reverse B)).
Qed.

(** X2: whatever the lists, [_sort_by(A, B)] is a permutation of the
    values of the dictionary built from [B]: it holds exactly the records
    that are the last of their id in [B], and no two of its records share
    an id. *)
Theorem _sort_by_keeps_last_of_each_id (A B : list Particle) :
  _sort_by A B ≡ₚ dict_values (Bdict B) /\
  (forall b, b ∈ _sort_by A B <-> find_id (id b) (reverse B) = Some b) /\
  NoDup (id <$> _sort_by A B).
Proof.
  assert (_sort_by A B ≡ₚ dict_values (Bdict B)) as Hperm.
  { unfold _sort_by. fold (Bdict B).
    pose proof (_sort_by_loop_perm A (Bdict B) []) as Hloop.
    destruct (_sort_by_loop A (Bdict B) []) as [B' d'].
    unfold dict_values. by rewrite sorted_perm. }
  assert (forall b, b ∈ dict_values (Bdict B)
                    <-> find_id (id b) (reverse B) = Some b) as Hmem.
  { intros b. unfold dict_values. split.
    - intros ([k v] & -> & Hin)%list_elem_of_fmap. cbn [snd].
      pose proof (dict_get_elem k v _ (Bdict_keys_NoDup B) Hin) as Hget.
      rewrite Bdict_get in Hget.
      destruct (find_id_Some _ _ _ Hget) as [-> _]. done.
    - rewrite <- Bdict_get. intros Hin%dict_get_Some_elem.
      apply list_elem_of_fmap. by exists (id b, b). }
  split; [done|]. split; [intros b; by rewrite Hperm|].
  rewrite Hperm. unfold dict_values.
  assert (id <$> (Bdict B).*2 = (Bdict B).*1) as ->;
    [|apply Bdict_keys_NoDup].
  pose proof (Bdict_keys_NoDup B) as Hnd.
  assert (forall kv, kv ∈ Bdict B -> id kv.2 = kv.1) as Hid.
  { intros [k v] Hin. cbn [fst snd].
    pose proof (dict_get_elem k v _ Hnd Hin) as Hget.
    rewrite Bdict_get in Hget. by destruct (find_id_Some _ _ _ Hget). }
  revert Hnd Hid. generalize (Bdict B) as d.
  induction d as [|[k v] d IH]; intros Hnd Hid; [done|].
  cbn [fmap list_fmap fst snd]. f_equal.
  - apply (Hid (k, v)). apply elem_of_cons. by left.
  - apply IH; [by apply NoDup_cons in Hnd as [_ ?]|].
    intros kv Hin. apply Hid. apply elem_of_cons. by right.
Qed.

(** ** What the parser reads from a data line *)

Ltac convert_field :=
  match goal with
  | |- context [int_of_str ?t] =>
      let Hc := fresh "Hconv" in
      destruct (int_of_str t) eqn:Hc
  | |- context [float_of_str ?t] =>
      let Hc := fresh "Hconv" in
      destruct (float_of_str t) eqn:Hc
  end.

(** X3: a data line that gives a record has at least nine fields after
    the marker; the record holds the first as name and the conversions of
    the next eight, in the order id, mass, width, max_dM, charge, spin,
    lifetime, pythiaId; its line number is the number of the line when
    there are exactly nine fields, and the integer read from the tenth
    field when there are more. *)
Theorem parse_particle_fields `{!PyRuntime} (l : string) (nr : Z)
    (p : Particle) :
  parse_particle l nr = Ok p ->
  exists n i m w d c s t y rest,
    drop 3 (split l) = n :: i :: m :: w :: d :: c :: s :: t :: y :: rest /\
    name p = n /\ int_of_str i = Ok (id p) /\
    float_of_str m = Ok (mass p) /\ float_of_str w = Ok (width p) /\
    float_of_str d = Ok (max_dM p) /\ int_of_str c = Ok (charge p) /\
    int_of_str s = Ok (spin p) /\ float_of_str t = Ok (lifetime p) /\
    int_of_str y = Ok (pythiaId p) /\
    match rest with
    | [] => line p = nr
    | extra :: _ => int_of_str extra = Ok (line p)
    end.
Proof.
  unfold parse_particle.
  destruct (drop 3 (split l)) as [|n [|i [|m [|w [|d [|c [|s [|t [|y rest]]]]]]]]];
    cbn [fmap list_fmap app TYPES zip zip_with mapM conv_str conv_int
         conv_float mbind result_bind mret result_ret];
    repeat (first [ discriminate
                  | convert_field;
                    cbn [mbind result_bind mret result_ret Particle_new] ]);
    try (destruct rest as [|extra rest];
         cbn [fmap list_fmap app zip zip_with mapM conv_int mbind
              result_bind mret result_ret Particle_new];
         repeat (first [ discriminate
                       | convert_field;
                         cbn [mbind result_bind mret result_ret
                              Particle_new] ]));
    try (intros [= <-]; by repeat eexists).
  all: try (destruct (Float64.of_int nr);
            cbn [mbind result_bind mret result_ret Particle_new];
            discriminate).
Qed.

Lemma parse_particle_fields_witness :
  exists n i m w d c s t y rest,
    drop 3 (split long_line)
    = n :: i :: m :: w :: d :: c :: s :: t :: y :: rest /\
    name long_record = n /\
    @int_of_str small_runtime i = Ok (id long_record) /\
    @float_of_str small_runtime m = Ok (mass long_record) /\
    @float_of_str small_runtime w = Ok (width long_record) /\
    @float_of_str small_runtime d = Ok (max_dM long_record) /\
    @int_of_str small_runtime c = Ok (charge long_record) /\
    @int_of_str small_runtime s = Ok (spin long_record) /\
    @float_of_str small_runtime t = Ok (lifetime long_record) /\
    @int_of_str small_runtime y = Ok (pythiaId long_record) /\
    match rest with
    | [] => line long_record = 5
    | extra :: _ => @int_of_str small_runtime extra = Ok (line long_record)
    end.
Proof.
  apply (@parse_particle_fields small_runtime long_line 5 long_record).
  reflexivity.
Defined.

(** X4: when a data line before the terminator does not convert, the
    parser returns no records: the exception of the first such line is
    raised, whatever follows it. *)
Theorem parse_loop_raises `{!PyRuntime} (lines : list string) (e : exn) :
  mapM (fun nl => parse_particle nl.2 nl.1) (data_lines 0 lines) = Raise e ->
  (parse_loop 0 lines [] []).2 = Raise e.
Proof.
  generalize 0 at 1 2. generalize ([] : list Particle).
  generalize ([] : list log_record).
  unfold data_lines, active_lines.
  induction lines as [|l lines IH]; intros log particles nr; [done|].
  rewrite parse_loop_cons. cbn [enumerate_from]. rewrite filter_cons.
  cbn [snd]. destruct (is_comment l || is_blank l) eqn:Hskip.
  { rewrite decide_False by done. apply IH. }
  rewrite decide_True by done. cbn [take_until snd].
  destruct (is_terminator l); [done|].
  rewrite filter_cons. cbn [snd]. destruct (has_marker l) eqn:Hm.
  - rewrite decide_True by done. cbn [mapM fst snd].
    destruct (parse_particle l nr) as [p|e'];
      cbn [mbind result_bind]; [|by intros [= ->]].
    destruct (mapM _ _) as [ps'|e'] eqn:Hps;
      cbn [mbind result_bind mret result_ret]; [done|].
    intros [= ->]. by apply IH.
  - rewrite decide_False by congruence. apply IH.
Qed.

Lemma parse_loop_raises_witness :
  (@parse_loop small_runtime 0
     ["add p Particle pi+ 211 1 0 0 3 0 7 211";
      "add p Particle K+ 321 heavy 0 0 3 0 7 321";
      "end"] [] []).2
  = Raise (ValueError "could not convert string to float").
Proof. apply (@parse_loop_raises small_runtime). reflexivity. Defined.

(** ** The tolerance and the rows of [_compare] *)

(** X5: the rows [_compare] adds do not depend on the tolerance the table
    holds: with any other tolerance in the table it fails with the same
    exception or returns the same table, the tolerance apart. *)
Theorem compare_rows_ignore_tolerance `{!PyRuntime} (tol : float)
    (self : PDLDiffTable) (A B : list Particle) :
  match _compare self A B, _compare (with_tolerance tol self) A B with
  | Ok t, Ok t' => _tbody t' = _tbody t /\ t' = with_tolerance tol t
  | Raise e, Raise e' => e' = e
  | _, _ => False
  end.
Proof.
  rewrite _compare_with_tolerance. by destruct (_compare self A B).
Qed.

(** ** Every row has eight cells *)

Section RowsOk.
Context `{!PyRuntime}.

Lemma keeps_rows_ok_bind (f g : PDLDiffTable -> result PDLDiffTable) :
  keeps_rows_ok f -> keeps_rows_ok g ->
  keeps_rows_ok (fun self => t ← f self; g t).
Proof.
  intros Hf Hg self t Hok. destruct (f self) as [t'|e] eqn:Hft; [|done].
  cbn [mbind result_bind]. intros Hgt. eapply Hg; [|done]. by eapply Hf.
Qed.

Lemma keeps_rows_ok_ret : keeps_rows_ok Ok.
Proof. by intros self t Hok [= <-]. Qed.

Lemma _add_row_rows_ok what name id property valueA valueB lineA lineB :
  keeps_rows_ok (fun self => _add_row self what name id property valueA
                               valueB lineA lineB).
Proof.
  intros self t [Hhead Hbody]. unfold _add_row.
  destruct (format_value self valueA) as [vA|e]; [|done].
  destruct (format_value self valueB) as [vB|e]; [|done].
  cbn [mbind result_bind]. intros [= <-]. split; [done|]. cbn [_tbody].
  apply Forall_app. split; [done|]. constructor; [|constructor].
  cbn [cells]. by destruct (bool_decide _), (String.eqb what "changed").
Qed.

Lemma _compare_changed_rows_ok a b items :
  keeps_rows_ok (fun self => _compare_changed self a b items).
Proof.
  induction items as [|[property [old new]] items IH].
  - apply keeps_rows_ok_ret.
  - apply (keeps_rows_ok_bind _ _ (_add_row_rows_ok _ _ _ _ _ _ _ _) IH).
Qed.

Lemma _compare_rows_ok A B : keeps_rows_ok (fun self => _compare self A B).
Proof.
  unfold _compare. generalize (zip A B) as AB.
  induction AB as [|[a b] AB IH]; [apply keeps_rows_ok_ret|].
  intros self t Hok. cbn [_compare_pairs].
  destruct (diff a b default_tolerance) as [d|e]; [|done].
  cbn [mbind result_bind].
  destruct (if bool_decide (d = []) then _ else _) as [t1|e] eqn:H1; [|done].
  cbn [mbind result_bind].
  destruct (_compare_changed t1 a b d) as [t2|e] eqn:H2; [|done].
  cbn [mbind result_bind]. intros H3.
  apply (IH t2 t); [|done].
  apply (_compare_changed_rows_ok a b d t1 t2); [|done].
  revert H1. case_bool_decide.
  - by apply _add_row_rows_ok.
  - by intros [= <-].
Qed.

Lemma _added_fields_rows_ok b kvs :
  keeps_rows_ok (fun self => _added_fields self b kvs).
Proof.
  induction kvs as [|[key v] kvs IH].
  - apply keeps_rows_ok_ret.
  - apply (keeps_rows_ok_bind _ _ (_add_row_rows_ok _ _ _ _ _ _ _ _) IH).
Qed.

Lemma _added_rows_ok B : keeps_rows_ok (fun self => _added self B).
Proof.
  induction B as [|b B IH].
  - apply keeps_rows_ok_ret.
  - apply (keeps_rows_ok_bind _ _ (_added_fields_rows_ok _ _) IH).
Qed.

Lemma _removed_fields_rows_ok a kvs :
  keeps_rows_ok (fun self => _removed_fields self a kvs).
Proof.
  induction kvs as [|[key v] kvs IH].
  - apply keeps_rows_ok_ret.
  - apply (keeps_rows_ok_bind _ _ (_add_row_rows_ok _ _ _ _ _ _ _ _) IH).
Qed.

Lemma _removed_rows_ok A : keeps_rows_ok (fun self => _removed self A).
Proof.
  induction A as [|a A IH].
  - apply keeps_rows_ok_ret.
  - apply (keeps_rows_ok_bind _ _ (_removed_fields_rows_ok _ _) IH).
Qed.

Lemma fill_opcode_rows_ok A B op :
  keeps_rows_ok (fun self => fill_opcode A B self op).
Proof.
  destruct op as [[[[tag i1] i2] j1] j2]. unfold fill_opcode.
  apply keeps_rows_ok_bind;
    [case_bool_decide; [apply _compare_rows_ok|apply keeps_rows_ok_ret]|].
  apply keeps_rows_ok_bind;
    [case_bool_decide; [apply _removed_rows_ok|apply keeps_rows_ok_ret]|].
  case_bool_decide; [apply _added_rows_ok|apply keeps_rows_ok_ret].
Qed.

Lemma fill_opcodes_rows_ok A B ops :
  keeps_rows_ok (fun self => fill_opcodes A B self ops).
Proof.
  induction ops as [|op ops IH].
  - apply keeps_rows_ok_ret.
  - apply (keeps_rows_ok_bind _ _ (fill_opcode_rows_ok A B op) IH).
Qed.

(** X6: every table the script builds and fills is well-formed: its
    header has eight columns, and every row added for unchanged, changed,
    removed or added records has exactly eight cells. *)
Theorem build_table_rows_ok (fA fB sort : string) (tol : float)
    (prec : Z) (w w' : world) (t : PDLDiffTable) :
  build_table fA fB sort tol prec w = (Ok t, w') -> rows_ok t.
Proof.
  unfold build_table, io_lift, PDLDiffTable__init__.
  destruct (negb _); [done|]. unfold fill, mbind, io_bind, io_lift.
  cbv beta iota. cbn [fileA fileB order].
  destruct (parse_evtpdl fA w) as [[A|e] w1]; [|done].
  destruct (parse_evtpdl fB w1) as [[B|e] w2]; [|done].
  destruct (reorder _ A B) as [A' B'].
  destruct (Difflib.opcodes id A' B') as [ops|]; [|done].
  intros [= Hfill <-].
  eapply fill_opcodes_rows_ok; [|exact Hfill].
  split; [done|]. constructor.
Qed.
End RowsOk.

Lemma build_table_rows_ok_witness :
  exists t w',
    @build_table small_runtime "A.pdl" "B.pdl" "name" default_tolerance 5
      sample_world = (Ok t, w') /\
    rows_ok t.
Proof.
  do 2 eexists. split; [vm_compute; reflexivity|].
  eapply (@build_table_rows_ok small_runtime "A.pdl" "B.pdl" "name"
            default_tolerance 5 sample_world).
  vm_compute. reflexivity.
Defined.

(** ** The rows of compared records *)

Section CompareRowsFacts.
Context `{!PyRuntime}.

Lemma isclose_default_ok (x y : value) :
  match x, y with
  | VFloat _, VFloat _ => True
  | VFloat _, _ => False
  | _, _ => True
  end ->
  exists c, isclose default_tolerance x y = Ok c.
Proof.
  destruct x as [s|z|a]; try (intros _; by eexists).
  destruct y as [s|z|b]; try done. intros _.
  cbn [isclose as_double mbind result_bind]. unfold math_isclose.
  change (Float64.ltb default_tolerance Float64.zero) with false.
  cbn [orb]. destruct (Float64.eqb a b); [by eexists|].
  destruct (_ || _); by eexists.
Qed.

Lemma diff_comprehension_ok tol l :
  Forall (fun fxy => exists c, isclose tol fxy.2.1 fxy.2.2 = Ok c) l ->
  forall acc, exists d, diff_comprehension tol l acc = Ok d.
Proof.
  induction 1 as [|[f [x y]] l [c Hc] Hl IH]; intros acc.
  - by exists acc.
  - cbn [diff_comprehension]. cbn [fst snd] in Hc. rewrite Hc.
    cbn [mbind result_bind]. apply IH.
Qed.

(** With the default tolerance [diff] raises nothing. *)
Lemma diff_default_ok (a b : Particle) :
  diff a b default_tolerance = Ok (diff_of a b).
Proof.
  unfold diff_of.
  assert (exists d, diff a b default_tolerance = Ok d) as [d ->]; [|done].
  apply diff_comprehension_ok.
  cbn [_fields but_last length Nat.sub take as_tuple zip zip_with].
  repeat constructor; by apply isclose_default_ok.
Qed.

Lemma _add_row_changed self nm i property old new la lb :
  0 <= precision self < 2147483648 ->
  _add_row self "changed" nm i property old new (VInt la) (VInt lb)
  = Ok (push_row self
          (if bool_decide (_lastparticle self = Some (nm, i))
           then changed_cont_row property (shown self old) (shown self new)
           else changed_head_row nm i property (shown self old)
                  (shown self new) (pretty la) (pretty lb))
          nm i).
Proof.
  intros Hp. unfold _add_row. rewrite !format_value_ok by done.
  cbn [mbind result_bind]. unfold push_row. do 2 f_equal.
  case_bool_decide; destruct old, new; reflexivity.
Qed.

Lemma _add_row_unchanged self nm i la lb :
  _add_row self "" nm i "" (VStr "") (VStr "") (VInt la) (VInt lb)
  = Ok (push_row self
          (if bool_decide (_lastparticle self = Some (nm, i))
           then cont_row "" "" "" ""
           else head_row "" nm i "" "" "" (pretty la) (pretty lb))
          nm i).
Proof.
  unfold _add_row. cbn [format_value mbind result_bind].
  unfold push_row. do 2 f_equal. by case_bool_decide.
Qed.

Lemma _compare_changed_rows a b d : forall self,
  0 <= precision self < 2147483648 ->
  _lastparticle self = Some (name a, id a) ->
  _compare_changed self a b d
  = Ok (push_rows self
          ((fun pon => changed_cont_row pon.1 (shown self pon.2.1)
                         (shown self pon.2.2)) <$> d)
          (Some (name a, id a))).
Proof.
  induction d as [|[property [old new]] d IH]; intros self Hp Hlast.
  - cbn. by rewrite <- Hlast, push_rows_nil.
  - cbn [_compare_changed]. rewrite _add_row_changed by done.
    cbn [mbind result_bind]. rewrite IH by done.
    rewrite bool_decide_eq_true_2 by done.
    rewrite push_row_first, push_rows_push_rows. reflexivity.
Qed.

Lemma _compare_pair_rows self a b :
  0 <= precision self < 2147483648 ->
  _compare_pairs self [(a, b)]
  = Ok (push_rows self (pair_rows self (_lastparticle self) a b (diff_of a b))
          (Some (name a, id a))).
Proof.
  intros Hp. cbn [_compare_pairs]. rewrite diff_default_ok.
  cbn [mbind result_bind].
  destruct (diff_of a b) as [|[property [old new]] d].
  - rewrite bool_decide_eq_true_2 by done.
    rewrite _add_row_unchanged. cbn [mbind result_bind _compare_changed].
    by rewrite push_row_first.
  - rewrite bool_decide_eq_false_2 by done. cbn [mbind result_bind].
    cbn [_compare_changed]. rewrite _add_row_changed by done.
    cbn [mbind result_bind]. rewrite _compare_changed_rows by done.
    cbn [mbind result_bind].
    rewrite push_row_first, push_rows_push_rows. reflexivity.
Qed.

Lemma _compare_pairs_cons self a b AB :
  _compare_pairs self ((a, b) :: AB)
  = t ← _compare_pairs self [(a, b)]; _compare_pairs t AB.
Proof.
  cbn [_compare_pairs]. destruct (diff a b default_tolerance) as [d|e];
    cbn [mbind result_bind]; [|done].
  destruct (if bool_decide (d = []) then _ else _) as [t1|e];
    cbn [mbind result_bind]; [|done].
  by destruct (_compare_changed t1 a b d).
Qed.

Lemma compare_rows_precision self t AB : forall last,
  precision t = precision self ->
  compare_rows t last AB = compare_rows self last AB.
Proof.
  intros last Hp. revert last.
  assert (forall v, shown t v = shown self v) as Hshown.
  { intros [s|z|x]; try done. unfold shown, fmt. by rewrite Hp. }
  induction AB as [|[a b] AB IH]; intros last; [done|].
  cbn [compare_rows]. rewrite IH. f_equal.
  unfold pair_rows. destruct (diff_of a b) as [|[property [old new]] d];
    [done|].
  rewrite !Hshown. f_equal. apply list_fmap_ext. intros ? pon _.
  by rewrite !Hshown.
Qed.

Lemma _compare_pairs_rows (AB : list (Particle * Particle)) : forall self,
  0 <= precision self < 2147483648 ->
  _compare_pairs self AB
  = Ok (push_rows self (compare_rows self (_lastparticle self) AB)
          (last_record (_lastparticle self) AB.*1)).
Proof.
  induction AB as [|[a b] AB IH]; intros self Hp.
  - cbn. by rewrite push_rows_nil.
  - rewrite _compare_pairs_cons, _compare_pair_rows by done.
    cbn [mbind result_bind]. rewrite IH by done.
    rewrite push_rows_push_rows.
    by rewrite (compare_rows_precision self).
Qed.

(** X7: with a precision from 0 to [INT_MAX] = 2147483647 [_compare]
    raises nothing
    and adds, for every pair of records it is given, one row without
    property when [diff] (with the default tolerance) finds no difference,
    and otherwise one [changed] row per differing field, in the order of
    the fields, whose old value has the class [removed] and whose new
    value the class [added]; the first row of a pair shows what, name, id
    and both line numbers unless the row before it is for the same name
    and id. *)
Theorem _compare_adds_rows (self : PDLDiffTable) (A B : list Particle) :
  0 <= precision self < 2147483648 ->
  _compare self A B
  = Ok (push_rows self
          (compare_rows self (_lastparticle self) (zip A B))
          (last_record (_lastparticle self) (zip A B).*1)).
Proof.
  intros Hp. unfold _compare. by apply _compare_pairs_rows.
Qed.
End CompareRowsFacts.

Lemma _compare_adds_rows_witness :
  @_compare small_runtime sample_table [pi_plus] [pi_plus_heavy]
  = Ok (push_rows sample_table
          (@compare_rows small_runtime sample_table None
             [(pi_plus, pi_plus_heavy)])
          (Some ("pi+", 211))).
Proof. apply (@_compare_adds_rows small_runtime sample_table). simpl. lia. Defined.

(** ** Lists with the same ids *)

Section SameKeys.
Local Open Scope nat_scope.
Context {E K : Type} `{Countable K} (key : E -> K).

Lemma NoDup_keys_count (b : list E) (k : K) :
  NoDup (key <$> b) -> length (filter (fun y => key y = k) b) <= 1.
Proof.
  induction b as [|y b IH]; [simpl; lia|].
  cbn [fmap list_fmap]. intros [Hy Hb]%NoDup_cons. rewrite filter_cons.
  destruct (decide (key y = k)) as [<-|Hne]; [|by apply IH].
  assert (filter (fun y0 => key y0 = key y) b = []) as ->; [|simpl; lia].
  destruct (filter _ b) as [|z l] eqn:Hf; [done|]. exfalso. apply Hy.
  assert (z ∈ filter (fun y0 => key y0 = key y) b) as [Hz Hin]%list_elem_of_filter
    by (rewrite Hf; apply elem_of_cons; by left).
  rewrite <- Hz. by apply list_elem_of_fmap_2.
Qed.

Lemma NoDup_keys_no_popular (b : list E) :
  NoDup (key <$> b) -> no_popular key b.
Proof.
  intros Hnd. right. intros k. pose proof (NoDup_keys_count b k Hnd). lia.
Qed.

Lemma matching_loop_nil (a b : list E) b2j fuel blocks :
  Difflib.matching_loop key a b b2j fuel [] blocks = Some blocks.
Proof. by destruct fuel. Qed.

(** Two lists with the same keys match as a whole. *)
Lemma find_longest_match_same_keys (a b : list E) :
  key <$> a = key <$> b -> NoDup (key <$> b) ->
  Difflib.find_longest_match key a b (Difflib.chain_b key b true)
    0 (length a) 0 (length b)
  = (0, 0, length a).
Proof.
  intros Hkeys Hnd.
  assert (length a = length b) as Hlen
    by by rewrite <- (length_fmap key a), Hkeys, length_fmap.
  destruct (find_longest_match_longest key a b (Difflib.chain_b key b true)
              0 (length a) 0 (length b)) as (Hwin & _ & Hmax);
    [by apply chain_b_complete, NoDup_keys_no_popular|lia|lia|].
  destruct (Difflib.find_longest_match _ _ _ _ _ _ _ _) as [[i j] k].
  destruct (Hmax (0, 0, length a)) as [Hle _].
  - simpl. lia.
  - intros d Hd. unfold Difflib.elt_eq. simpl.
    pose proof (f_equal (fun l => l !! d) Hkeys) as Hd'. simpl in Hd'.
    rewrite !list_lookup_fmap in Hd'.
    destruct (a !! d) as [x|] eqn:Ha;
      [|apply lookup_ge_None in Ha; lia].
    destruct (b !! d) as [y|]; [|done].
    injection Hd' as Hxy. by apply bool_decide_eq_true.
  - simpl in Hwin, Hle. destruct Hwin as (_ & ? & _ & ?).
    f_equal; [f_equal|]; lia.
Qed.

Lemma get_opcodes_same_keys (a b : list E) :
  key <$> a = key <$> b -> NoDup (key <$> b) ->
  Difflib.get_opcodes key a b (Difflib.chain_b key b true)
  = Some (if decide (a = []) then []
          else [(Difflib.equal, 0, length a, 0, length b)]).
Proof.
  intros Hkeys Hnd.
  assert (length a = length b) as Hlen
    by by rewrite <- (length_fmap key a), Hkeys, length_fmap.
  unfold Difflib.get_opcodes, Difflib.get_matching_blocks.
  replace (2 * length a + 1) with (S (2 * length a)) by lia.
  cbn [Difflib.matching_loop].
  rewrite find_longest_match_same_keys by done.
  destruct a as [|x a']; cbn [length] in *.
  - destruct b; [|done]. by rewrite matching_loop_nil.
  - rewrite decide_False by done.
    change (0 <? S (length a')) with true. cbv iota.
    rewrite !Nat.add_0_l, !Nat.ltb_irrefl. cbn [andb].
    rewrite matching_loop_nil. cbn [mbind option_bind app].
    rewrite <- Hlen. cbn [sorted foldr insert_sorted Difflib.collapse].
    rewrite !Nat.add_0_l, !Nat.eqb_refl. cbn [andb Difflib.collapse].
    change (0 <? S (length a')) with true. cbv iota.
    cbn [app foldl Difflib.opcode_step].
    rewrite !Nat.ltb_irrefl. cbn [andb].
    change (0 <? S (length a')) with true. cbv iota. reflexivity.
Qed.

(** X8: two lists that hold the same keys in the same order, each key
    once, are aligned as a whole: the matcher returns the single opcode
    [equal] over both lists (and no opcode for empty lists). *)
Theorem opcodes_same_keys (a b : list E) :
  key <$> a = key <$> b -> NoDup (key <$> b) ->
  Difflib.opcodes key a b
  = Some (if decide (a = []) then []
          else [(Difflib.equal, 0, length a, 0, length b)]).
Proof. intros Hkeys Hnd. by apply get_opcodes_same_keys. Qed.
End SameKeys.

Lemma opcodes_same_keys_witness :
  Difflib.opcodes id [pi_plus; K_plus] [pi_plus_heavy; K_plus]
  = Some [(Difflib.equal, 0, 2, 0, 2)%nat].
Proof.
  apply (opcodes_same_keys id [pi_plus; K_plus] [pi_plus_heavy; K_plus]
           eq_refl).
  apply (bool_decide_unpack _). vm_compute. exact I.
Defined.

(** ** A file compared with itself *)

Lemma first_occurrences_NoDup (l : list Z) :
  NoDup l -> first_occurrences l = l.
Proof.
  induction 1 as [|x l Hx Hl IH]; [done|]. cbn [first_occurrences].
  rewrite IH. f_equal. clear IH Hl.
  induction l as [|y l IH]; [done|]. apply not_elem_of_cons in Hx as [? ?].
  rewrite filter_cons, decide_True by done. f_equal. by apply IH.
Qed.

Lemma find_id_not_in (i : Z) (B : list Particle) :
  i ∉ id <$> B -> find_id i B = None.
Proof.
  induction B as [|b B IH]; [done|]. cbn [fmap list_fmap find_id].
  intros [? ?]%not_elem_of_cons. rewrite decide_False by done. by apply IH.
Qed.

Lemma omap_find_id_self (B : list Particle) :
  NoDup (id <$> B) -> omap (fun i => find_id i B) (id <$> B) = B.
Proof.
  induction B as [|b B IH]; [done|]. cbn [fmap list_fmap].
  intros [Hb HB]%NoDup_cons. rewrite omap_cons_match. cbn [find_id].
  rewrite decide_True by done. f_equal.
  rewrite <- (IH HB) at 2.
  apply list_omap_ext, Forall2_same_length_lookup_2; [done|].
  intros n i i' Hi Hi'. assert (i' = i) as -> by congruence.
  rewrite decide_False; [done|]. intros ->. apply Hb.
  by eapply list_elem_of_lookup_2.
Qed.

Lemma _sort_by_self (A : list Particle) :
  NoDup (id <$> A) -> _sort_by A A = A.
Proof.
  intros Hnd. rewrite (_sort_by_as_lists A A Hnd).
  rewrite first_occurrences_NoDup, omap_find_id_self by done.
  assert (filter (fun b => id b ∉ id <$> A) A = []) as ->.
  { assert (forall (l : list Particle) (ids : list Z),
              Forall (fun b => id b ∈ ids) l ->
              filter (fun b => id b ∉ ids) l = []) as Hnone.
    { intros l ids. induction 1 as [|b l' Hb Hl IH]; [done|].
      rewrite filter_cons, decide_False; [done|]. by intros Hn. }
    apply Hnone, Forall_forall. intros b Hb. by apply list_elem_of_fmap_2. }
  by rewrite app_nil_r.
Qed.

Lemma reorder_self (o : string) (ps : list Particle) :
  NoDup (id <$> ps) ->
  (reorder o ps ps).2 = (reorder o ps ps).1 /\ (reorder o ps ps).1 ≡ₚ ps.
Proof.
  intros Hnd. unfold reorder.
  destruct (String.eqb o "name"); [split; [done|apply sorted_perm]|].
  destruct (String.eqb o "id"); [split; [done|apply sorted_perm]|].
  destruct (String.eqb o "a"); [by rewrite _sort_by_self|].
  destruct (String.eqb o "b"); [by rewrite _sort_by_self|].
  done.
Qed.

Section SameFile.
Context `{!PyRuntime}.

Lemma diff_of_self (a : Particle) : has_no_nan a = true -> diff_of a a = [].
Proof.
  unfold has_no_nan. rewrite !andb_true_iff, !negb_true_iff.
  intros [[[? ?] ?] ?]. unfold diff_of, diff.
  cbn [as_tuple _fields but_last length Nat.sub take zip zip_with
       diff_comprehension].
  rewrite !isclose_refl_float by done.
  cbn [isclose py_eq]. by rewrite String.eqb_refl, !Z.eqb_refl.
Qed.

Lemma _compare_same (L : list Particle) : forall self,
  Forall (fun p => has_no_nan p = true) L ->
  _compare self L L
  = Ok (push_rows self
          (records_rows
             (fun last a =>
                [if bool_decide (last = Some (name a, id a))
                 then cont_row "" "" "" "" else unchanged_row a])
             (_lastparticle self) L)
          (last_record (_lastparticle self) L)).
Proof.
  unfold _compare.
  induction L as [|a L IH]; intros self HL.
  - cbn. by rewrite push_rows_nil.
  - apply Forall_cons in HL as [Ha HL]. cbn [zip zip_with].
    rewrite _compare_pairs_cons. cbn [_compare_pairs].
    rewrite diff_default_ok, diff_of_self by done.
    cbn [mbind result_bind]. rewrite bool_decide_eq_true_2 by done.
    rewrite _add_row_unchanged. cbn [mbind result_bind _compare_changed].
    fold (zip L L). rewrite IH by done.
    rewrite push_row_first, push_rows_push_rows. reflexivity.
Qed.

Lemma unchanged_rows_NoDup (L : list Particle) : forall last,
  NoDup (id <$> L) ->
  (forall nm i, last = Some (nm, i) -> i ∉ id <$> L) ->
  records_rows
    (fun last a =>
       [if bool_decide (last = Some (name a, id a))
        then cont_row "" "" "" "" else unchanged_row a])
    last L
  = unchanged_row <$> L.
Proof.
  induction L as [|a L IH]; intros last Hnd Hlast; [done|].
  cbn [fmap list_fmap] in *. apply NoDup_cons in Hnd as [Ha Hnd].
  cbn [records_rows app]. rewrite bool_decide_eq_false_2.
  - f_equal. apply IH; [done|]. by intros nm i [= <- <-].
  - intros Heq. apply (Hlast _ _ Heq). apply elem_of_cons. by left.
Qed.

(** X9: a file compared with itself, or with a file of the same lines,
    shows no difference: when the ids of its records are pairwise
    distinct and no float field is a NaN, the script builds, under every
    valid order, a table with exactly one row per record, in the order
    chosen, that shows the name, the id and twice the line number and
    neither a property nor a value; both files have been read, and the
    lines that were not understood have been logged twice. *)
Theorem build_table_same_file (fA fB sort : string) (tol : float) (prec : Z)
    (w : world) (lines : list string) (log : list log_record)
    (ps : list Particle) :
  bool_decide (lower sort ∈ ["id"; "name"; "a"; "b"]) = true ->
  files w !! fA = Some lines -> files w !! fB = Some lines ->
  parse_loop 0 lines [] [] = (log, Ok ps) ->
  NoDup (id <$> ps) -> Forall (fun p => has_no_nan p = true) ps ->
  let L := (reorder (lower sort) ps ps).1 in
  build_table fA fB sort tol prec w
  = (Ok (push_rows (new_table fA fB sort tol prec) (unchanged_row <$> L)
           (last_record None L)),
     mkWorld (files w) (opened w ++ [fA; fB]) (logged w ++ log ++ log)).
Proof.
  intros Hsort HfA HfB Hparse Hnd Hnan L. subst L.
  unfold build_table, io_lift, PDLDiffTable__init__. rewrite Hsort.
  cbn [negb]. fold (new_table fA fB sort tol prec).
  unfold fill, mbind, io_bind. cbv beta iota.
  change (fileA (new_table fA fB sort tol prec)) with fA.
  change (fileB (new_table fA fB sort tol prec)) with fB.
  change (order (new_table fA fB sort tol prec)) with (lower sort).
  unfold parse_evtpdl at 1. rewrite HfA, Hparse.
  unfold parse_evtpdl at 1. cbn [files]. rewrite HfB, Hparse.
  cbn [opened logged].
  destruct (reorder_self (lower sort) ps Hnd) as [Hsame Hperm].
  destruct (reorder (lower sort) ps ps) as [L L2].
  cbn [fst snd] in *. subst L2.
  assert (NoDup (id <$> L)) as HndL by by rewrite Hperm.
  assert (Forall (fun p => has_no_nan p = true) L) as HnanL
    by by rewrite Hperm.
  unfold Difflib.opcodes. rewrite (get_opcodes_same_keys id L L eq_refl HndL).
  unfold io_lift. rewrite <- !app_assoc. cbn [app]. f_equal.
  destruct (decide (L = [])) as [->|HL]; [by cbn; rewrite push_rows_nil|].
  cbn [fill_opcodes fill_opcode].
  rewrite (bool_decide_eq_true_2 (Difflib.equal = Difflib.equal)) by done.
  rewrite !slice_all, _compare_same by done. cbn [mbind result_bind].
  rewrite unchanged_rows_NoDup; [|done|done].
  change (bool_decide (Difflib.equal ∈ [Difflib.delete; Difflib.replace]))
    with false.
  change (bool_decide (Difflib.equal ∈ [Difflib.insert; Difflib.replace]))
    with false.
  reflexivity.
Qed.
End SameFile.

Lemma build_table_same_file_witness :
  exists L,
    @build_table small_runtime "B.pdl" "B.pdl" "ID" default_tolerance 5
      sample_world
    = (Ok (push_rows (new_table "B.pdl" "B.pdl" "ID" default_tolerance 5)
             (unchanged_row <$> L) (last_record None L)),
       mkWorld (files sample_world)
         (opened sample_world ++ ["B.pdl"; "B.pdl"])
         (logged sample_world ++ [] ++ [])) /\
    name <$> L = ["mu-"; "pi+"].
Proof.
  eexists. split.
  - eapply (@build_table_same_file small_runtime "B.pdl" "B.pdl" "ID"
              default_tolerance 5 sample_world other_lines).
    + reflexivity.
    + vm_compute; reflexivity.
    + vm_compute; reflexivity.
    + vm_compute; reflexivity.
    + apply (bool_decide_unpack _). vm_compute. exact I.
    + apply (bool_decide_unpack _). vm_compute. exact I.
  - vm_compute. reflexivity.
Defined.

(** ** The rows of a filled table *)

Section TableRowsFacts.
Context `{!PyRuntime}.

Lemma fill_opcode_rows (self : PDLDiffTable) (A B : list Particle)
    (op : Difflib.opcode) trs last :
  0 <= precision self < 2147483648 ->
  fill_opcode A B (push_rows self trs last) op
  = Ok (push_rows self (opcode_rows self A B (trs, last) op).1
          (opcode_rows self A B (trs, last) op).2).
Proof.
  intros Hp. destruct op as [[[[tag i1] i2] j1] j2].
  unfold fill_opcode, opcode_rows.
  assert (0 <= precision (push_rows self trs last) < 2147483648) as Hp'
    by done.
  destruct tag.
  - change (bool_decide (Difflib.replace = Difflib.equal)) with false.
    change (bool_decide (Difflib.replace ∈ [Difflib.delete; Difflib.replace]))
      with true.
    change (bool_decide (Difflib.replace ∈ [Difflib.insert; Difflib.replace]))
      with true.
    cbn [mbind result_bind]. rewrite _removed_rows by done.
    cbn [mbind result_bind]. rewrite push_rows_push_rows.
    rewrite _added_rows by done. rewrite push_rows_push_rows.
    by rewrite <- app_assoc.
  - change (bool_decide (Difflib.delete = Difflib.equal)) with false.
    change (bool_decide (Difflib.delete ∈ [Difflib.delete; Difflib.replace]))
      with true.
    change (bool_decide (Difflib.delete ∈ [Difflib.insert; Difflib.replace]))
      with false.
    cbn [mbind result_bind]. rewrite _removed_rows by done.
    cbn [mbind result_bind]. by rewrite push_rows_push_rows.
  - change (bool_decide (Difflib.insert = Difflib.equal)) with false.
    change (bool_decide (Difflib.insert ∈ [Difflib.delete; Difflib.replace]))
      with false.
    change (bool_decide (Difflib.insert ∈ [Difflib.insert; Difflib.replace]))
      with true.
    cbn [mbind result_bind]. rewrite _added_rows by done.
    by rewrite push_rows_push_rows.
  - change (bool_decide (Difflib.equal = Difflib.equal)) with true.
    change (bool_decide (Difflib.equal ∈ [Difflib.delete; Difflib.replace]))
      with false.
    change (bool_decide (Difflib.equal ∈ [Difflib.insert; Difflib.replace]))
      with false.
    unfold _compare. rewrite _compare_pairs_rows by done.
    cbn [mbind result_bind]. rewrite push_rows_push_rows.
    by rewrite (compare_rows_precision self).
Qed.

Lemma fill_opcodes_rows (self : PDLDiffTable) (A B : list Particle)
    (ops : list Difflib.opcode) : forall st,
  0 <= precision self < 2147483648 ->
  fill_opcodes A B (push_rows self st.1 st.2) ops
  = Ok (push_rows self (foldl (opcode_rows self A B) st ops).1
          (foldl (opcode_rows self A B) st ops).2).
Proof.
  induction ops as [|op ops IH]; intros [trs last] Hp; [done|].
  cbn [fill_opcodes foldl fst snd]. rewrite fill_opcode_rows by done.
  cbn [mbind result_bind]. by rewrite IH.
Qed.

(** X10: when the order is valid, the precision is one at which floats
    can be formatted, from 0 to [INT_MAX] = 2147483647, and both
    files exist and parse, the script succeeds: both files are read, A
    first, what their lines have logged is kept in this order, and the
    body of the table is, opcode after opcode of the matcher on the
    reordered lists, the rows of [_compare] for an equal span, those of
    [_removed] for a deleted span, those of [_added] for an inserted span
    and, for a replaced span, those of [_removed] followed by those of
    [_added]. *)
Theorem build_table_rows (fA fB sort : string) (tol : float) (prec : Z)
    (w : world) (linesA linesB : list string) (logA logB : list log_record)
    (A B : list Particle) :
  bool_decide (lower sort ∈ ["id"; "name"; "a"; "b"]) = true ->
  0 <= prec < 2147483648 ->
  files w !! fA = Some linesA -> files w !! fB = Some linesB ->
  parse_loop 0 linesA [] [] = (logA, Ok A) ->
  parse_loop 0 linesB [] [] = (logB, Ok B) ->
  let AB := reorder (lower sort) A B in
  let self := new_table fA fB sort tol prec in
  exists ops,
    Difflib.opcodes id AB.1 AB.2 = Some ops /\
    build_table fA fB sort tol prec w
    = (Ok (push_rows self (table_rows self AB.1 AB.2 ops).1
             (table_rows self AB.1 AB.2 ops).2),
       mkWorld (files w) (opened w ++ [fA; fB]) (logged w ++ logA ++ logB)).
Proof.
  intros Hsort Hp HfA HfB HA HB AB self. subst AB self.
  destruct (get_opcodes_cover id (reorder (lower sort) A B).1
              (reorder (lower sort) A B).2
              (Difflib.chain_b id (reorder (lower sort) A B).2 true))
    as (ops & Hops & _).
  exists ops. split; [exact Hops|].
  unfold build_table, io_lift, PDLDiffTable__init__. rewrite Hsort.
  cbn [negb]. fold (new_table fA fB sort tol prec).
  unfold fill, mbind, io_bind. cbv beta iota.
  change (fileA (new_table fA fB sort tol prec)) with fA.
  change (fileB (new_table fA fB sort tol prec)) with fB.
  change (order (new_table fA fB sort tol prec)) with (lower sort).
  unfold parse_evtpdl at 1. rewrite HfA, HA.
  unfold parse_evtpdl at 1. cbn [files]. rewrite HfB, HB.
  cbn [opened logged].
  destruct (reorder (lower sort) A B) as [A' B']. cbn [fst snd] in *.
  unfold Difflib.opcodes. rewrite Hops.
  unfold io_lift. rewrite <- !app_assoc. cbn [app]. f_equal.
  etrans;
    [|exact (fill_opcodes_rows (new_table fA fB sort tol prec) A' B' ops
               ([], None) Hp)].
  reflexivity.
Qed.
End TableRowsFacts.

Lemma build_table_rows_witness :
  exists t,
    @build_table small_runtime "A.pdl" "B.pdl" "name" default_tolerance 5
      sample_world
    = (Ok t, mkWorld (files sample_world) ["A.pdl"; "B.pdl"]
               (logged sample_world
                ++ (@parse_loop small_runtime 0 sample_lines [] []).1
                ++ [])) /\
    length (_tbody t) = 15%nat.
Proof.
  edestruct (@build_table_rows small_runtime "A.pdl" "B.pdl" "name"
               default_tolerance 5 sample_world sample_lines other_lines)
    as (ops & Hops & Hb).
  - reflexivity.
  - lia.
  - vm_compute; reflexivity.
  - vm_compute; reflexivity.
  - vm_compute; reflexivity.
  - vm_compute; reflexivity.
  - vm_compute in Hops. injection Hops as <-.
    eexists. split; [exact Hb|]. vm_compute. reflexivity.
Defined.

(** ** A negative precision *)

Section NegativePrecision.
Context `{!PyRuntime}.

(** X11: with a negative precision no float can be shown: [_removed] and
    [_added] raise the [ValueError] of the format specification at the
    first field, the mass, of the first record they are given, and add
    nothing to the table; for no record they return the table as it is. *)
Theorem negative_precision_raises (self : PDLDiffTable) (P : list Particle) :
  precision self < 0 ->
  let e := ValueError "Format specifier missing precision" in
  _removed self P = (if decide (P = []) then Ok self else Raise e) /\
  _added self P = (if decide (P = []) then Ok self else Raise e).
Proof.
  intros Hp e. destruct P as [|p P]; [done|].
  rewrite decide_False by done.
  assert ((precision self <? 0)%Z = true) as Hlt by by apply Z.ltb_lt.
  split.
  - cbn [_removed shown_fields _fields but_last length Nat.sub take drop
         as_tuple zip zip_with _removed_fields].
    unfold _add_row. cbn [format_value]. by rewrite Hlt.
  - cbn [_added shown_fields _fields but_last length Nat.sub take drop
         as_tuple zip zip_with _added_fields].
    unfold _add_row. cbn [format_value mbind result_bind]. by rewrite Hlt.
Qed.
End NegativePrecision.

Lemma negative_precision_raises_witness :
  let self := new_table "A.pdl" "B.pdl" "name" default_tolerance (-1) in
  let e := ValueError "Format specifier missing precision" in
  @_removed small_runtime self [pi_plus] = Raise e /\
  @_added small_runtime self [pi_plus] = Raise e.
Proof.
  apply (@negative_precision_raises small_runtime
           (new_table "A.pdl" "B.pdl" "name" default_tolerance (-1))
           [pi_plus]).
  simpl. lia.
Defined.

(** ** The lists [fill] sorts *)

Section SortedStable.
Context {A K : Type} `{EqDecision K} (key : A -> K) (le : K -> K -> bool).
Hypothesis le_total : forall x y, le x y = true \/ le y x = true.

Lemma insert_sorted_filter (x : A) (l : list A) (k : K) :
  filter (fun y => key y = k) (insert_sorted key le x l)
  = filter (fun y => key y = k) (x :: l).
Proof.
  induction l as [|y l IH]; [done|]. cbn [insert_sorted].
  destruct (le (key x) (key y)) eqn:Hxy; [done|].
  rewrite filter_cons, IH, !filter_cons.
  destruct (decide (key y = k)) as [Hy|Hy]; [|done].
  destruct (decide (key x = k)) as [Hx|Hx]; [|done].
  destruct (le_total (key x) (key x)); congruence.
Qed.

Lemma sorted_filter (l : list A) (k : K) :
  filter (fun y => key y = k) (sorted key le l)
  = filter (fun y => key y = k) l.
Proof.
  induction l as [|x l IH]; [done|]. cbn [sorted foldr].
  fold (sorted key le l). rewrite insert_sorted_filter, !filter_cons.
  by rewrite IH.
Qed.
End SortedStable.

Lemma string_compare_trans (s1 : string) : forall s2 s3,
  String.compare s1 s2 <> Gt -> String.compare s2 s3 <> Gt ->
  String.compare s1 s3 <> Gt.
Proof.
  induction s1 as [|c1 s1 IH]; intros [|c2 s2] [|c3 s3]; cbn;
    try done.
  unfold Ascii.compare.
  destruct (N.compare_spec (Ascii.N_of_ascii c1) (Ascii.N_of_ascii c2));
    destruct (N.compare_spec (Ascii.N_of_ascii c2) (Ascii.N_of_ascii c3));
    destruct (N.compare_spec (Ascii.N_of_ascii c1) (Ascii.N_of_ascii c3));
    try done; try lia.
  apply IH.
Qed.

Lemma string_leb_trans (s1 s2 s3 : string) :
  String.leb s1 s2 = true -> String.leb s2 s3 = true ->
  String.leb s1 s3 = true.
Proof.
  unfold String.leb. intros H12 H23.
  pose proof (string_compare_trans s1 s2 s3) as Ht.
  destruct (String.compare s1 s2), (String.compare s2 s3),
    (String.compare s1 s3); try done; exfalso; by apply Ht.
Qed.

Lemma sorted_stable_sort_of {K : Type} `{EqDecision K}
    (key : Particle -> K) (le : K -> K -> bool) (l : list Particle) :
  (forall x y, le x y = true \/ le y x = true) ->
  (forall x y z, le x y = true -> le y z = true -> le x z = true) ->
  stable_sort_of key (fun x y => le x y = true) l (sorted key le l).
Proof.
  intros Htotal Htrans. split; [apply sorted_perm|]. split.
  - by apply sorted_StronglySorted.
  - intros k. by apply sorted_filter.
Qed.

(** X12: under the order [id] both lists go to the matcher sorted by
    ascending id, under the order [name] sorted by ascending name; each is
    a permutation of the parsed list in which the records of equal key
    keep the order of the file. *)
Theorem reorder_sorted (A B : list Particle) :
  stable_sort_of id Z.le A (reorder "id" A B).1 /\
  stable_sort_of id Z.le B (reorder "id" A B).2 /\
  stable_sort_of name (fun s t => String.leb s t = true) A
    (reorder "name" A B).1 /\
  stable_sort_of name (fun s t => String.leb s t = true) B
    (reorder "name" A B).2.
Proof.
  assert (forall l, stable_sort_of id Z.le l (sorted id Z.leb l)) as Hid.
  { intros l.
    destruct (sorted_stable_sort_of id Z.leb l) as (Hp & Hs & Hf).
    - intros x y. rewrite !Z.leb_le. lia.
    - intros x y z. rewrite !Z.leb_le. lia.
    - split; [done|]. split; [|done].
      eapply StronglySorted_mono; [|exact Hs].
      intros u v. apply Z.leb_le. }
  assert (forall l, stable_sort_of name (fun s t => String.leb s t = true) l
                      (sorted name String.leb l)) as Hname.
  { intros l. apply sorted_stable_sort_of.
    - apply String.leb_total.
    - apply string_leb_trans. }
  repeat split; first [apply Hid | apply Hname].
Qed.

(** ** The matcher: equal spans hold the same keys *)

Section MatchesSound.
Local Open Scope nat_scope.
Context {E K : Type} `{Countable K} (key : E -> K) (a b : list E).

Lemma matches_empty i j : matches key a b (i, j, 0).
Proof. intros d Hd. lia. Qed.

Lemma matches_snoc i j k :
  matches key a b (i, j, k) -> Difflib.elt_eq key a b (i + k) (j + k) = true ->
  matches key a b (i, j, k + 1).
Proof.
  intros Hm He d Hd. destruct (decide (d = k)) as [->|]; [done|].
  apply Hm. lia.
Qed.

Lemma matches_cons i j k :
  Difflib.elt_eq key a b i j = true -> matches key a b (S i, S j, k) ->
  matches key a b (i, j, k + 1).
Proof.
  intros He Hm [|d] Hd; [by rewrite !Nat.add_0_r|].
  replace (i + S d) with (S i + d) by lia.
  replace (j + S d) with (S j + d) by lia. apply Hm. lia.
Qed.

Lemma matches_app i j k1 k2 :
  matches key a b (i, j, k1) -> matches key a b (i + k1, j + k1, k2) ->
  matches key a b (i, j, k1 + k2).
Proof.
  intros H1 H2 d Hd. destruct (decide (d < k1)); [by apply H1|].
  replace (i + d) with (i + k1 + (d - k1)) by lia.
  replace (j + d) with (j + k1 + (d - k1)) by lia. apply H2. lia.
Qed.

Lemma chain_b_sound autojunk : b2j_sound key b (Difflib.chain_b key b autojunk).
Proof.
  intros k j. unfold Difflib.chain_b.
  destruct (filter _ _ !! k) as [js|] eqn:Hjs;
    cbn [default from_option Datatypes.id]; [|by intros ?%elem_of_nil].
  apply map_lookup_filter_Some in Hjs as [Hjs _].
  destruct (b2j_all_spec key b k) as (_ & Hmem & _).
  rewrite Hjs in Hmem. cbn [default from_option Datatypes.id] in Hmem.
  apply Hmem.
Qed.

Section Scan.
Context (b2j : gmap K (list nat)) (alo ahi blo bhi : nat).

Lemma j2len_sound_step i j j2len :
  j2len_sound key a b i j2len ->
  Difflib.elt_eq key a b i j = true ->
  let k := Difflib.j2lenget j2len j + 1 in
  0 < k /\ k <= i + 1 /\ k <= j + 1 /\
  matches key a b (i + 1 - k, j + 1 - k, k).
Proof.
  intros Hold He k. subst k.
  destruct j as [|j']; cbn [Difflib.j2lenget].
  - split; [lia|]. split; [lia|]. split; [lia|].
    replace (i + 1 - (0 + 1)) with i by lia.
    replace (0 + 1 - (0 + 1)) with 0 by lia.
    intros d Hd. by replace d with 0 by lia; rewrite !Nat.add_0_r.
  - destruct (j2len !! j') as [k'|] eqn:Hk';
      cbn [default from_option Datatypes.id].
    + destruct (Hold _ _ Hk') as (Hpos & Hi & Hj & Hm).
      split; [lia|]. split; [lia|]. split; [lia|].
      replace (i + 1 - (k' + 1)) with (i - k') by lia.
      replace (S j' + 1 - (k' + 1)) with (j' + 1 - k') by lia.
      apply matches_snoc; [done|].
      by replace (i - k' + k') with i by lia;
        replace (j' + 1 - k' + k') with (S j') by lia.
    + split; [lia|]. split; [lia|]. split; [lia|].
      replace (i + 1 - (0 + 1)) with i by lia.
      replace (S j' + 1 - (0 + 1)) with (S j') by lia.
      intros d Hd. by replace d with 0 by lia; rewrite !Nat.add_0_r.
Qed.

Lemma scan_row_sound i js j2len : forall newj2len best,
  Forall (fun j => Difflib.elt_eq key a b i j = true) js ->
  j2len_sound key a b i j2len ->
  j2len_sound key a b (i + 1) newj2len ->
  matches key a b best ->
  j2len_sound key a b (i + 1)
    (Difflib.scan_row blo bhi i js j2len newj2len best).1 /\
  matches key a b (Difflib.scan_row blo bhi i js j2len newj2len best).2.
Proof.
  induction js as [|j js IH]; intros newj2len best Hjs Hold Hnew Hbest;
    simpl; [done|].
  apply Forall_cons in Hjs as [Hj Hjs].
  destruct (j <? blo); [by apply IH|].
  destruct (bhi <=? j); [done|].
  pose proof (j2len_sound_step i j j2len Hold Hj) as (Hpos & Hi & Hjk & Hm).
  apply IH; [done|done| |].
  - intros j' k'. rewrite lookup_insert_Some.
    intros [[<- <-]|[_ Hj']]; [done|by apply Hnew].
  - by destruct (best.2 <? Difflib.j2lenget j2len j + 1).
Qed.

Lemma scan_step_sound st i :
  b2j_sound key b b2j ->
  j2len_sound key a b i st.1 -> matches key a b st.2 ->
  j2len_sound key a b (i + 1) (Difflib.scan_step key a b2j blo bhi st i).1 /\
  matches key a b (Difflib.scan_step key a b2j blo bhi st i).2.
Proof.
  intros Hb2j Hj Hb. unfold Difflib.scan_step.
  apply scan_row_sound; [|done| |done].
  - destruct (a !! i) as [x|] eqn:Hx; [|constructor].
    apply Forall_forall. intros j Hin. apply Hb2j in Hin.
    unfold Difflib.elt_eq. rewrite Hx.
    destruct (b !! j) as [y|]; [|done].
    injection Hin as Hy. by apply bool_decide_eq_true.
  - intros j k Hk. by apply lookup_empty_Some in Hk.
Qed.

Lemma scan_fold_sound n : forall i st,
  b2j_sound key b b2j ->
  j2len_sound key a b i st.1 -> matches key a b st.2 ->
  matches key a b (foldl (Difflib.scan_step key a b2j blo bhi) st (seq i n)).2.
Proof.
  induction n as [|n IH]; intros i st Hb2j Hj Hb; simpl; [done|].
  destruct (scan_step_sound st i) as [Hj' Hb']; [done..|].
  apply IH; [done| |done]. by replace (S i) with (i + 1) by lia.
Qed.

Lemma scan_sound :
  b2j_sound key b b2j ->
  matches key a b (Difflib.scan key a b2j alo ahi blo bhi).
Proof.
  intros Hb2j. unfold Difflib.scan. apply scan_fold_sound; [done| |].
  - intros j k Hk. cbn [fst] in Hk. by apply lookup_empty_Some in Hk.
  - apply matches_empty.
Qed.

Lemma extend_left_sound junk besti : forall bestj bestsize,
  matches key a b (besti, bestj, bestsize) ->
  matches key a b
    (Difflib.extend_left key a b alo blo junk besti bestj bestsize).
Proof.
  induction besti as [|i' IH]; intros bestj bestsize Hm; simpl; [done|].
  destruct bestj as [|j']; [done|].
  destruct (_ && _) eqn:Hc; [|done].
  apply IH. apply andb_prop in Hc as [_ He]. by apply matches_cons.
Qed.

Lemma extend_right_sound junk n : forall besti bestj bestsize,
  matches key a b (besti, bestj, bestsize) ->
  matches key a b
    (besti, bestj,
     Difflib.extend_right key a b ahi bhi junk n besti bestj bestsize).
Proof.
  induction n as [|n IH]; intros besti bestj bestsize Hm; simpl; [done|].
  destruct (_ && _) eqn:Hc; [|done].
  apply IH. apply andb_prop in Hc as [_ He]. by apply matches_snoc.
Qed.

(** The block [find_longest_match] returns is a match, also when popular
    elements have been left out of [b2j]. *)
Lemma find_longest_match_sound :
  b2j_sound key b b2j ->
  matches key a b (Difflib.find_longest_match key a b b2j alo ahi blo bhi).
Proof.
  intros Hb2j. unfold Difflib.find_longest_match.
  pose proof (scan_sound Hb2j) as Hm.
  destruct (Difflib.scan _ _ _ _ _ _ _) as [[i0 j0] k0].
  apply (extend_left_sound false) in Hm.
  destruct (Difflib.extend_left _ _ _ _ _ false _ _ _) as [[i1 j1] k1].
  apply (extend_right_sound false (ahi - (i1 + k1))) in Hm.
  apply (extend_left_sound true) in Hm.
  destruct (Difflib.extend_left _ _ _ _ _ true _ _ _) as [[i2 j2] k2].
  by apply (extend_right_sound true (ahi - (i2 + k2))) in Hm.
Qed.
End Scan.

Section BlocksSound.
Context (b2j : gmap K (list nat)).
Hypothesis b2j_ok : b2j_sound key b b2j.

Lemma matching_loop_sound fuel : forall queue blocks res,
  Forall (matches key a b) blocks ->
  Difflib.matching_loop key a b b2j fuel queue blocks = Some res ->
  Forall (matches key a b) res.
Proof.
  induction fuel as [|fuel IH]; intros queue blocks res Hb;
    destruct queue as [|[[[alo ahi] blo] bhi] queue]; simpl;
    [by intros [= <-]|done|by intros [= <-]|].
  pose proof (find_longest_match_sound b2j alo ahi blo bhi b2j_ok) as Hm.
  destruct (Difflib.find_longest_match _ _ _ _ _ _ _ _) as [[i j] k].
  destruct (0 <? k); [|by apply IH].
  apply IH. apply Forall_app. split; [done|by constructor].
Qed.

Lemma collapse_sound blocks : forall cur non_adjacent,
  matches key a b cur -> Forall (matches key a b) blocks ->
  Forall (matches key a b) non_adjacent ->
  Forall (matches key a b) (Difflib.collapse cur blocks non_adjacent).
Proof.
  induction blocks as [|[[i2 j2] k2] blocks IH];
    intros [[i1 j1] k1] non_adjacent Hcur Hb Hna; simpl.
  - destruct (0 <? k1); [|done]. apply Forall_app. by split; [|constructor].
  - apply Forall_cons in Hb as [H2 Hb].
    destruct (_ && _) eqn:Hadj.
    + apply andb_prop in Hadj as [<-%Nat.eqb_eq <-%Nat.eqb_eq].
      apply IH; [by apply matches_app|done|done].
    + apply IH; [done|done|].
      destruct (0 <? k1); [|done]. apply Forall_app. by split; [|constructor].
Qed.

Lemma get_matching_blocks_sound blocks :
  Difflib.get_matching_blocks key a b b2j = Some blocks ->
  Forall (matches key a b) blocks.
Proof.
  unfold Difflib.get_matching_blocks.
  destruct (Difflib.matching_loop _ _ _ _ _ _ _) as [res|] eqn:Hres;
    [|done].
  cbn [mbind option_bind]. intros [= <-].
  apply matching_loop_sound in Hres; [|constructor].
  apply Forall_app. split; [|constructor; [apply matches_empty|constructor]].
  apply collapse_sound; [apply matches_empty| |constructor].
  by rewrite sorted_perm.
Qed.

Lemma matches_equal_span i j k :
  matches key a b (i, j, k) ->
  equal_span_ok key a b (Difflib.equal, i, i + k, j, j + k).
Proof.
  intros Hm _. unfold Difflib.slice.
  replace (i + k - i) with k by lia. replace (j + k - j) with k by lia.
  assert (forall d, d < k ->
            exists x y, a !! (i + d) = Some x /\ b !! (j + d) = Some y /\
                        key x = key y) as Hd.
  { intros d Hlt. specialize (Hm d Hlt). unfold Difflib.elt_eq in Hm.
    destruct (a !! (i + d)) as [x|]; [|done].
    destruct (b !! (j + d)) as [y|]; [|done].
    exists x, y. repeat split. by apply bool_decide_eq_true in Hm. }
  assert (k = 0 \/ (i + k <= length a /\ j + k <= length b)) as Hlen.
  { destruct k as [|k']; [by left|right].
    destruct (Hd k') as (x & y & Hx & Hy & _); [lia|].
    apply lookup_lt_Some in Hx, Hy. lia. }
  split; [done|]. rewrite !length_take, !length_drop.
  split; [lia|]. split; [lia|].
  apply list_eq. intros d. rewrite !list_lookup_fmap, !lookup_take.
  case_decide; [|done]. rewrite !lookup_drop.
  destruct (Hd d) as (x & y & -> & -> & Hxy); [done|].
  simpl. by rewrite Hxy.
Qed.

Lemma opcode_step_sound st m :
  Forall (equal_span_ok key a b) st.2 -> matches key a b m ->
  Forall (equal_span_ok key a b) (Difflib.opcode_step st m).2.
Proof.
  destruct st as [[i j] answer], m as [[ai bj] size]. cbn [snd].
  intros Hans Hm. unfold Difflib.opcode_step.
  assert (forall t i1 i2 j1 j2, t <> Difflib.equal ->
            Forall (equal_span_ok key a b) (answer ++ [(t, i1, i2, j1, j2)]))
    as Hother.
  { intros t i1 i2 j1 j2 Ht. apply Forall_app. split; [done|].
    constructor; [|constructor]. by intros ?. }
  set (answer' := if (i <? ai) && (j <? bj) then _ else _).
  assert (Forall (equal_span_ok key a b) answer') as Hans'.
  { subst answer'. destruct (_ && _); [by apply Hother|].
    destruct (i <? ai); [by apply Hother|].
    destruct (j <? bj); [by apply Hother|done]. }
  cbn [snd]. destruct (0 <? size); [|done].
  apply Forall_app. split; [done|].
  constructor; [|constructor]. by apply matches_equal_span.
Qed.

Lemma opcodes_fold_sound blocks : forall st,
  Forall (equal_span_ok key a b) st.2 ->
  Forall (matches key a b) blocks ->
  Forall (equal_span_ok key a b) (foldl Difflib.opcode_step st blocks).2.
Proof.
  induction blocks as [|m blocks IH]; intros st Hst Hb; [done|].
  apply Forall_cons in Hb as [Hm Hb]. cbn [foldl].
  apply IH; [|done]. by apply opcode_step_sound.
Qed.

Lemma get_opcodes_sound ops :
  Difflib.get_opcodes key a b b2j = Some ops ->
  Forall (equal_span_ok key a b) ops.
Proof.
  unfold Difflib.get_opcodes.
  destruct (Difflib.get_matching_blocks _ _ _ _) as [blocks|] eqn:Hb;
    [|done].
  cbn [mbind option_bind]. intros [= <-].
  apply opcodes_fold_sound; [constructor|].
  by apply get_matching_blocks_sound.
Qed.
End BlocksSound.
End MatchesSound.

(** X13: the matcher returns opcodes for every two lists of records, and
    the two spans of each [equal] opcode, the lists [_compare] is given,
    have the same length and hold records with the same ids, in the same
    order, also when the records of a popular id have been left out of
    the index. *)
Theorem equal_opcodes_same_ids (A B : list Particle) :
  exists ops,
    Difflib.opcodes id A B = Some ops /\
    Forall (equal_span_ok id A B) ops.
Proof.
  destruct (get_opcodes_cover id A B (Difflib.chain_b id B true))
    as (ops & Hops & _).
  exists ops. split; [exact Hops|].
  eapply get_opcodes_sound; [|exact Hops]. apply chain_b_sound.
Qed.

(** ** The differences seen from the other record *)

Lemma key_compare_antisym k1 k2 :
  key_compare k1 k2 = CompOpp (key_compare k2 k1).
Proof.
  unfold key_compare.
  rewrite (Z.compare_antisym k2.1.1 k1.1.1), (Z.compare_antisym k2.1.2 k1.1.2),
    (Z.compare_antisym k2.2 k1.2).
  destruct (k2.1.1 ?= k1.1.1)%Z; cbn [CompOpp]; try done.
  by destruct (k2.1.2 ?= k1.1.2)%Z.
Qed.

Lemma Float64_eqb_sym (x y : float) : Float64.eqb x y = Float64.eqb y x.
Proof.
  unfold Float64.eqb, SFeqb.
  destruct (Float64.is_nan x) eqn:Hx.
  { destruct x; try done. by destruct y. }
  destruct (Float64.is_nan y) eqn:Hy.
  { destruct y; try done. by destruct x. }
  rewrite !SFcompare_key by done.
  rewrite (key_compare_antisym (order_key y)).
  by destruct (key_compare (order_key x) (order_key y)).
Qed.

Lemma math_isclose_sym (a b rel_tol abs_tol : float) :
  math_isclose a b rel_tol abs_tol = math_isclose b a rel_tol abs_tol.
Proof.
  unfold math_isclose.
  rewrite (Float64_eqb_sym b a), (abs_sub_comm a b),
    (orb_comm (Float64.is_infinity b)).
  rewrite (orb_comm
             (Float64.leb (Float64.abs (Float64.sub b a))
                (Float64.abs (Float64.mul rel_tol a)))).
  reflexivity.
Qed.

Lemma dict_set_swapped f x y (d : dict string (value * value)) :
  swapped (dict_set f (x, y) d) = dict_set f (y, x) (swapped d).
Proof.
  unfold swapped. induction d as [|[f' [x' y']] d IH]; [done|].
  cbn [dict_set fmap list_fmap fst snd].
  destruct (decide (f = f')); cbn [fmap list_fmap fst snd]; [done|].
  by rewrite IH.
Qed.

Lemma diff_comprehension_swapped tol l : forall acc,
  Forall (fun fxy => isclose tol fxy.2.2 fxy.2.1
                     = isclose tol fxy.2.1 fxy.2.2) l ->
  diff_comprehension tol (swapped l) (swapped acc)
  = match diff_comprehension tol l acc with
    | Ok d => Ok (swapped d)
    | Raise e => Raise e
    end.
Proof.
  induction l as [|[f [x y]] l IH]; intros acc Hl; [done|].
  apply Forall_cons in Hl as [Hxy Hl]. cbn [fst snd] in Hxy.
  cbn [swapped fmap list_fmap fst snd diff_comprehension].
  rewrite Hxy. destruct (isclose tol x y) as [c|e];
    cbn [mbind result_bind]; [|done].
  destruct c; cbn [negb]; [by apply IH|].
  rewrite <- dict_set_swapped. by apply IH.
Qed.

(** X14: [diff] is symmetric: seen from the other record it raises the
    same exception or reports the same fields, in the same order, with
    the two values of each field exchanged, whatever the floats and the
    tolerance are. *)
Theorem diff_swapped (a b : Particle) (tolerance : float) :
  diff b a tolerance
  = match diff a b tolerance with
    | Ok d => Ok (swapped d)
    | Raise e => Raise e
    end.
Proof.
  unfold diff.
  rewrite <- (diff_comprehension_swapped tolerance _ []).
  - reflexivity.
  - cbn [as_tuple _fields but_last length Nat.sub take zip zip_with].
    repeat (constructor;
            [cbn [fst snd isclose as_double mbind result_bind py_eq];
             first [ by rewrite math_isclose_sym
                   | by rewrite String.eqb_sym
                   | by rewrite Z.eqb_sym ]|]).
    constructor.
Qed.

(** ** Files that cannot be read *)

Section ReadErrors.
Context `{!PyRuntime}.

(** X15: the script stops at the first file that cannot be read.  When
    file A does not exist nothing is opened or logged; when a line of A
    does not convert, or when file B does not exist, file B is not opened
    and what A has logged is kept; when a line of B does not convert both
    files have been opened and both logs are kept.  In all these cases
    the exception is the one of the file, and no table is returned. *)
Theorem build_table_read_errors (fA fB sort : string) (tol : float)
    (prec : Z) (w : world) :
  bool_decide (lower sort ∈ ["id"; "name"; "a"; "b"]) = true ->
  let missing := OSError "No such file or directory" in
  (files w !! fA = None ->
   build_table fA fB sort tol prec w = (Raise missing, w)) /\
  (forall linesA logA rA,
     files w !! fA = Some linesA ->
     parse_loop 0 linesA [] [] = (logA, rA) ->
     let wA := mkWorld (files w) (opened w ++ [fA]) (logged w ++ logA) in
     (forall e, rA = Raise e ->
                build_table fA fB sort tol prec w = (Raise e, wA)) /\
     (forall A, rA = Ok A -> files w !! fB = None ->
                build_table fA fB sort tol prec w = (Raise missing, wA)) /\
     (forall A linesB logB e,
        rA = Ok A -> files w !! fB = Some linesB ->
        parse_loop 0 linesB [] [] = (logB, Raise e) ->
        build_table fA fB sort tol prec w
        = (Raise e,
           mkWorld (files w) (opened w ++ [fA; fB])
             (logged w ++ logA ++ logB)))).
Proof.
  intros Hsort missing.
  assert (build_table fA fB sort tol prec w
          = fill (new_table fA fB sort tol prec) w) as ->.
  { unfold build_table, io_lift, PDLDiffTable__init__. rewrite Hsort.
    reflexivity. }
  unfold fill, mbind, io_bind. cbv beta iota.
  change (fileA (new_table fA fB sort tol prec)) with fA.
  change (fileB (new_table fA fB sort tol prec)) with fB.
  split.
  { intros HfA. unfold parse_evtpdl at 1. by rewrite HfA. }
  intros linesA logA rA HfA HA.
  assert (parse_evtpdl fA w
          = (rA, mkWorld (files w) (opened w ++ [fA]) (logged w ++ logA)))
    as -> by (unfold parse_evtpdl; by rewrite HfA, HA).
  split; [by intros e ->|]. split.
  - intros A -> HfB. unfold parse_evtpdl. cbn [files]. by rewrite HfB.
  - intros A linesB logB e -> HfB HB. unfold parse_evtpdl.
    cbn [files opened logged]. rewrite HfB, HB.
    by rewrite <- !app_assoc.
Qed.
End ReadErrors.

Lemma build_table_read_errors_witness :
  let missing := OSError "No such file or directory" in
  @build_table small_runtime "C.pdl" "B.pdl" "name" default_tolerance 5
    sample_world = (Raise missing, sample_world) /\
  @build_table small_runtime "B.pdl" "C.pdl" "name" default_tolerance 5
    sample_world
  = (Raise missing,
     mkWorld (files sample_world) (opened sample_world ++ ["B.pdl"])
       (logged sample_world ++ [])).
Proof.
  split.
  - apply (@build_table_read_errors small_runtime "C.pdl" "B.pdl" "name"
             default_tolerance 5 sample_world); reflexivity.
  - eapply (proj2 (@build_table_read_errors small_runtime "B.pdl" "C.pdl"
                     "name" default_tolerance 5 sample_world eq_refl)
              other_lines).
    + vm_compute; reflexivity.
    + vm_compute; reflexivity.
    + reflexivity.
    + vm_compute; reflexivity.
Defined.

(** ** The id of compared records *)

Lemma diff_comprehension_keys tol l : forall acc d f,
  diff_comprehension tol l acc = Ok d ->
  f ∈ d.*1 ->
  f ∈ acc.*1 \/
  exists x y, (f, (x, y)) ∈ l /\ isclose tol x y = Ok false.
Proof.
  induction l as [|[g [x y]] l IH]; intros acc d f; cbn [diff_comprehension].
  - intros [= <-] Hf. by left.
  - destruct (isclose tol x y) as [c|e] eqn:Hc; cbn [mbind result_bind];
      [|done].
    intros Hd Hf. destruct (IH _ _ _ Hd Hf) as [Hacc|(x' & y' & Hin & Hxy)].
    + destruct c; cbn [negb] in Hacc; [by left|].
      destruct (decide (f = g)) as [->|Hne].
      * right. exists x, y. split; [apply elem_of_cons; by left|done].
      * left. clear -Hacc Hne. induction acc as [|[g' v'] acc IHacc].
        { cbn in Hacc. apply elem_of_cons in Hacc as [?|Hacc]; [done|].
          by apply elem_of_nil in Hacc. }
        cbn [dict_set] in Hacc. cbn [fmap list_fmap fst].
        destruct (decide (g = g')) as [<-|Hgg'];
          cbn [fmap list_fmap fst] in Hacc;
          apply elem_of_cons in Hacc as [?|Hacc]; try done.
        -- apply elem_of_cons. by right.
        -- apply elem_of_cons. by left.
        -- apply elem_of_cons. right. by apply IHacc.
    + right. exists x', y'. split; [|done]. apply elem_of_cons. by right.
Qed.

Lemma diff_of_same_id (a b : Particle) :
  id a = id b -> "id" ∉ (diff_of a b).*1.
Proof.
  intros Hid Hin. pose proof (diff_default_ok a b) as Hd. unfold diff in Hd.
  destruct (diff_comprehension_keys _ _ _ _ _ Hd Hin)
    as [Hnil|(x & y & Hxy & Hclose)]; [by apply elem_of_nil in Hnil|].
  cbn [as_tuple _fields but_last length Nat.sub take zip zip_with] in Hxy.
  repeat (apply elem_of_cons in Hxy as [Hxy|Hxy]; [try done|]);
    [|by apply elem_of_nil in Hxy].
  injection Hxy as -> ->. cbn [isclose py_eq] in Hclose.
  rewrite Hid, Z.eqb_refl in Hclose. done.
Qed.

(** X16: the records [_compare] is given in pairs have the same id: for
    every [equal] opcode of the matcher, each pair of the two spans is a
    pair of records of equal id, and [diff] never reports the id of such
    a pair as changed. *)
Theorem equal_spans_pair_equal_ids (A B : list Particle) :
  exists ops,
    Difflib.opcodes id A B = Some ops /\
    forall i1 i2 j1 j2 a b,
      (Difflib.equal, i1, i2, j1, j2) ∈ ops ->
      (a, b) ∈ zip (Difflib.slice A i1 i2) (Difflib.slice B j1 j2) ->
      id a = id b /\ dict_get "id" (diff_of a b) = None.
Proof.
  destruct (get_opcodes_cover id A B (Difflib.chain_b id B true))
    as (ops & Hops & _).
  exists ops. split; [exact Hops|].
  intros i1 i2 j1 j2 a b Hop Hab.
  pose proof (get_opcodes_sound id A B _ (chain_b_sound id B true) ops Hops)
    as Hall.
  rewrite Forall_forall in Hall. specialize (Hall _ Hop eq_refl).
  destruct Hall as (_ & _ & _ & Hkeys).
  apply list_elem_of_lookup in Hab as [n Hn].
  apply lookup_zip_with_Some in Hn as (a' & b' & [= <- <-] & Ha & Hb).
  assert (id a = id b) as Hid.
  { pose proof (f_equal (fun l => l !! n) Hkeys) as Hk. cbn beta in Hk.
    rewrite !list_lookup_fmap, Ha, Hb in Hk. by injection Hk. }
  split; [done|]. apply dict_get_None. by apply diff_of_same_id.
Qed.

(** ** The matcher: elements in the same order are all matched *)

Section AlignedFacts.
Local Open Scope nat_scope.
Context {E K : Type} `{Countable K} (key : E -> K) (a b : list E).
Hypothesis b_keys : NoDup (key <$> b).
Hypothesis a_b_order : in_order key a b.

Lemma elt_eq_same_b i j j' :
  Difflib.elt_eq key a b i j = true -> Difflib.elt_eq key a b i j' = true ->
  j = j'.
Proof.
  unfold Difflib.elt_eq. destruct (a !! i) as [x|]; [|done].
  destruct (b !! j) as [y|] eqn:Hy; [|done].
  destruct (b !! j') as [y'|] eqn:Hy'; [|done].
  intros Hxy%bool_decide_eq_true Hxy'%bool_decide_eq_true.
  eapply (NoDup_lookup _ _ _ (key y) b_keys);
    rewrite list_lookup_fmap; [by rewrite Hy|rewrite Hy'; simpl; congruence].
Qed.

(** A pair of a window is a pair of the block found in it, or of the
    window to its left, or of the window to its right. *)
Lemma window_pair_split alo ahi blo bhi bi bj k i j :
  is_longest_match key a b alo ahi blo bhi (bi, bj, k) ->
  in_region i j (alo, ahi, blo, bhi) ->
  Difflib.elt_eq key a b i j = true ->
  0 < k /\
  (in_block i j (bi, bj, k)
   \/ ((alo <? bi) && (blo <? bj) = true /\ in_region i j (alo, bi, blo, bj))
   \/ ((bi + k <? ahi) && (bj + k <? bhi) = true
       /\ in_region i j (bi + k, ahi, bj + k, bhi))).
Proof.
  intros (Hwin & Hm & Hmax) [Hi Hj] He.
  assert (0 < k) as Hk.
  { destruct (Hmax (i, j, 1)) as [Hle _]; [simpl; lia| |simpl in Hle; lia].
    intros d Hd. by replace d with 0 by lia; rewrite !Nat.add_0_r. }
  split; [done|]. simpl in Hwin.
  destruct (decide (i < bi)) as [Hlt|Hge].
  - right. left.
    assert (j < bj) as Hjlt.
    { apply (a_b_order i bi j bj); [done| |done].
      specialize (Hm 0 Hk). by rewrite !Nat.add_0_r in Hm. }
    split; [|simpl; lia].
    apply andb_true_intro. split; apply Nat.ltb_lt; lia.
  - destruct (decide (i < bi + k)) as [Hin|Hout].
    + left. split; [lia|].
      apply (elt_eq_same_b i); [done|].
      specialize (Hm (i - bi) ltac:(lia)).
      by replace (bi + (i - bi)) with i in Hm by lia.
    + right. right.
      assert (bj + (k - 1) < j) as Hjgt.
      { apply (a_b_order (bi + (k - 1)) i (bj + (k - 1)) j);
          [apply Hm; lia|done|lia]. }
      split; [|simpl; lia].
      apply andb_true_intro. split; apply Nat.ltb_lt; lia.
Qed.

Section Loop.
Context (b2j : gmap K (list nat)).
Hypothesis b2j_ok : b2j_complete key b b2j.

Lemma matching_loop_covers la lb fuel : forall queue blocks res,
  Forall (region_ok la lb) queue ->
  (forall i j, Difflib.elt_eq key a b i j = true ->
               Exists (in_block i j) blocks \/ Exists (in_region i j) queue) ->
  Difflib.matching_loop key a b b2j fuel queue blocks = Some res ->
  forall i j, Difflib.elt_eq key a b i j = true -> Exists (in_block i j) res.
Proof.
  assert (forall blocks res,
            (forall i j, Difflib.elt_eq key a b i j = true ->
                         Exists (in_block i j) blocks
                         \/ Exists (in_region i j) []) ->
            Some blocks = Some res ->
            forall i j, Difflib.elt_eq key a b i j = true ->
                        Exists (in_block i j) res) as Hdone.
  { intros blocks res Hinv [= <-] i j He.
    destruct (Hinv i j He) as [?|Hq]; [done|]. by apply Exists_nil in Hq. }
  induction fuel as [|fuel IH]; intros queue blocks res Hq Hinv;
    destruct queue as [|[[[alo ahi] blo] bhi] queue]; simpl;
    [by apply Hdone|done|by apply Hdone|].
  apply Forall_cons in Hq as [(Ha & Hla & Hb & Hlb) Hq].
  pose proof (find_longest_match_longest key a b b2j alo ahi blo bhi b2j_ok
                Ha Hb) as Hlong.
  destruct (Difflib.find_longest_match _ _ _ _ _ _ _ _) as [[bi bj] k].
  pose proof Hlong as (Hwin & _ & _). simpl in Hwin.
  destruct (Nat.ltb_spec 0 k) as [Hk|Hk].
  - set (c1 := (alo <? bi) && (blo <? bj)).
    set (c2 := (bi + k <? ahi) && (bj + k <? bhi)).
    set (news := (if c2 then [(bi + k, ahi, bj + k, bhi)] else [])
                 ++ (if c1 then [(alo, bi, blo, bj)] else [])).
    replace (if c2 then _ else _) with (news ++ queue)
      by (unfold news; by destruct c1, c2).
    apply IH.
    + apply Forall_app. split; [|done].
      unfold news. destruct c1, c2; repeat constructor; simpl; lia.
    + intros i j He. destruct (Hinv i j He) as [Hblk|Hreg].
      { left. apply Exists_app. by left. }
      apply Exists_cons in Hreg as [Hreg|Hreg].
      * destruct (window_pair_split _ _ _ _ _ _ _ i j Hlong Hreg He)
          as (_ & [Hin|[[Hc Hin]|[Hc Hin]]]).
        -- left. apply Exists_app. right. by constructor.
        -- right. apply Exists_app. left. unfold news. fold c1 in Hc.
           rewrite Hc. apply Exists_app. right. by constructor.
        -- right. apply Exists_app. left. unfold news. fold c2 in Hc.
           rewrite Hc. apply Exists_app. left. by constructor.
      * right. apply Exists_app. by right.
  - apply IH; [done|]. intros i j He.
    destruct (Hinv i j He) as [Hblk|Hreg]; [by left|].
    apply Exists_cons in Hreg as [Hreg|Hreg]; [|by right].
    destruct (window_pair_split _ _ _ _ _ _ _ i j Hlong Hreg He) as [? _].
    lia.
Qed.

Lemma collapse_covers i j blocks : forall cur non_adjacent,
  Exists (in_block i j) (non_adjacent ++ cur :: blocks) ->
  Exists (in_block i j) (Difflib.collapse cur blocks non_adjacent).
Proof.
  induction blocks as [|[[i2 j2] k2] blocks IH];
    intros [[i1 j1] k1] non_adjacent; simpl.
  - destruct (Nat.ltb_spec 0 k1); [done|].
    rewrite Exists_app, Exists_cons, Exists_nil. simpl.
    intros [?|[?|?]]; [done|lia|done].
  - destruct (_ && _) eqn:Hadj.
    + apply andb_prop in Hadj as [<-%Nat.eqb_eq <-%Nat.eqb_eq].
      intros Hex. apply IH. revert Hex.
      rewrite !Exists_app, !Exists_cons. simpl.
      intros [?|[?|[?|?]]]; [by left|right; left; lia|right; left; lia|].
      by right; right.
    + intros Hex. apply IH. revert Hex.
      destruct (Nat.ltb_spec 0 k1).
      * rewrite <- app_assoc. done.
      * rewrite !Exists_app, !Exists_cons. simpl.
        intros [?|[?|[?|?]]]; [by left|lia|by right; left|by right; right].
Qed.

Lemma get_matching_blocks_covers blocks :
  Difflib.get_matching_blocks key a b b2j = Some blocks ->
  forall i j, Difflib.elt_eq key a b i j = true ->
              Exists (in_block i j) blocks.
Proof.
  unfold Difflib.get_matching_blocks.
  destruct (Difflib.matching_loop _ _ _ _ _ _ _) as [res|] eqn:Hres;
    [|done].
  cbn [mbind option_bind]. intros [= <-] i j He.
  apply Exists_app. left. apply collapse_covers. cbn [app].
  apply Exists_cons. right.
  eapply (matching_loop_covers (length a) (length b)) in Hres;
    [| |..|exact He].
  - apply Exists_exists in Hres as (m & Hin & Hm).
    apply Exists_exists. exists m. split; [|done]. by rewrite sorted_perm.
  - repeat constructor; simpl; lia.
  - intros i' j' He'. right. apply elt_eq_bounds in He'. constructor.
    simpl. lia.
Qed.

Lemma opcode_step_equal st m :
  exists ops,
    (Difflib.opcode_step st m).2 = st.2 ++ ops /\
    (0 < m.2 ->
     (Difflib.equal, m.1.1, m.1.1 + m.2, m.1.2, m.1.2 + m.2) ∈ ops).
Proof.
  destruct st as [[i j] answer], m as [[ai bj] size].
  unfold Difflib.opcode_step. cbn [fst snd].
  destruct (Nat.ltb_spec 0 size) as [Hs|Hs].
  - destruct ((i <? ai) && (j <? bj)), (i <? ai), (j <? bj);
      rewrite <- ?app_assoc; eexists; (split; [reflexivity|]); intros _;
      set_solver.
  - destruct ((i <? ai) && (j <? bj)), (i <? ai), (j <? bj);
      first [ by exists []; rewrite app_nil_r; split; [|lia]
            | eexists; split; [reflexivity|lia] ].
Qed.

Lemma opcodes_fold_equal blocks : forall st,
  exists ops,
    (foldl Difflib.opcode_step st blocks).2 = st.2 ++ ops /\
    forall m, m ∈ blocks -> 0 < m.2 ->
      (Difflib.equal, m.1.1, m.1.1 + m.2, m.1.2, m.1.2 + m.2) ∈ ops.
Proof.
  induction blocks as [|m blocks IH]; intros st; cbn [foldl].
  - exists []. rewrite app_nil_r. split; [done|].
    by intros m ?%elem_of_nil.
  - destruct (opcode_step_equal st m) as (ops1 & H1 & Hm1).
    destruct (IH (Difflib.opcode_step st m)) as (ops2 & H2 & Hm2).
    exists (ops1 ++ ops2). rewrite H2, H1, <- app_assoc. split; [done|].
    intros m' [->|Hin]%elem_of_cons Hpos; apply elem_of_app; auto.
Qed.

Lemma get_opcodes_covers ops :
  Difflib.get_opcodes key a b b2j = Some ops ->
  forall i j, Difflib.elt_eq key a b i j = true ->
              Exists (in_equal_span i j) ops.
Proof.
  unfold Difflib.get_opcodes.
  destruct (Difflib.get_matching_blocks _ _ _ _) as [blocks|] eqn:Hb;
    [|done].
  cbn [mbind option_bind]. intros [= <-] i j He.
  pose proof (get_matching_blocks_covers blocks Hb i j He) as Hex.
  apply Exists_exists in Hex as ([[bi bj] k] & Hin & [Hi Hj]).
  destruct (opcodes_fold_equal blocks (0, 0, [])) as (ops & -> & Hops).
  apply Exists_exists. eexists. split; [apply (Hops _ Hin); simpl; lia|].
  simpl. repeat split; lia.
Qed.
End Loop.

(** Elements that come in the same order in both lists, the keys of [b]
    being pairwise distinct, are all matched: each pair of equal key is a
    pair of the two spans of an [equal] opcode. *)
Lemma opcodes_align :
  exists ops,
    Difflib.opcodes key a b = Some ops /\
    forall i j, Difflib.elt_eq key a b i j = true ->
                Exists (in_equal_span i j) ops.
Proof.
  destruct (get_opcodes_cover key a b (Difflib.chain_b key b true))
    as (ops & Hops & _).
  exists ops. split; [exact Hops|].
  eapply get_opcodes_covers; [|exact Hops].
  by apply chain_b_complete, NoDup_keys_no_popular.
Qed.
End AlignedFacts.

(** ** Records that both files hold *)

Section InOrder.
Local Open Scope nat_scope.
Context {E K : Type} `{Countable K} (key : E -> K).

Lemma elt_eq_lookup (a b : list E) i j :
  Difflib.elt_eq key a b i j = true
  <-> exists x y, a !! i = Some x /\ b !! j = Some y /\ key x = key y.
Proof.
  unfold Difflib.elt_eq. split.
  - destruct (a !! i) as [x|]; [|done]. destruct (b !! j) as [y|]; [|done].
    intros Hxy%bool_decide_eq_true. by exists x, y.
  - intros (x & y & -> & -> & Hxy). by apply bool_decide_eq_true.
Qed.

Lemma NoDup_keys_lookup (l : list E) i i' x x' :
  NoDup (key <$> l) -> l !! i = Some x -> l !! i' = Some x' ->
  key x = key x' -> i = i'.
Proof.
  intros Hnd Hi Hi' Hk.
  apply (NoDup_lookup _ _ _ (key x) Hnd); rewrite list_lookup_fmap.
  - by rewrite Hi.
  - by rewrite Hi', Hk.
Qed.

(** With keys that are pairwise distinct in both lists, it is enough
    that the order of [b] is that of [a]. *)
Lemma in_order_flip (a b : list E) :
  NoDup (key <$> a) -> NoDup (key <$> b) ->
  (forall i i' j j' x x' y y',
     a !! i = Some x -> a !! i' = Some x' ->
     b !! j = Some y -> b !! j' = Some y' ->
     key x = key y -> key x' = key y' -> j < j' -> i < i') ->
  in_order key a b.
Proof.
  intros Ha Hb Hord i i' j j'.
  intros (x & y & Hx & Hy & Hxy)%elt_eq_lookup
    (x' & y' & Hx' & Hy' & Hxy')%elt_eq_lookup Hlt.
  destruct (Nat.lt_trichotomy j j') as [?|[->|Hgt]]; [done| |].
  - assert (y' = y) as -> by congruence.
    assert (i = i'); [|lia].
    eapply (NoDup_keys_lookup a); [done..|congruence].
  - pose proof (Hord i' i j' j x' x y' y Hx' Hx Hy' Hy Hxy' Hxy Hgt). lia.
Qed.

Lemma in_equal_span_zip (a b : list E) i j x y tag i1 i2 j1 j2 :
  in_equal_span i j (tag, i1, i2, j1, j2) ->
  a !! i = Some x -> b !! j = Some y ->
  tag = Difflib.equal /\
  (x, y) ∈ zip (Difflib.slice a i1 i2) (Difflib.slice b j1 j2).
Proof.
  intros (-> & Hi & -> & Hlen) Hx Hy. split; [done|].
  apply list_elem_of_lookup. exists (i - i1).
  apply lookup_zip_Some. unfold Difflib.slice.
  rewrite !lookup_take_lt, !lookup_drop by lia.
  by replace (i1 + (i - i1)) with i by lia.
Qed.
End InOrder.

Lemma StronglySorted_lookup_lt {A} (R : A -> A -> Prop) (l : list A) :
  StronglySorted R l ->
  forall i j x y, (i < j)%nat -> l !! i = Some x -> l !! j = Some y -> R x y.
Proof.
  induction 1 as [|z l Hl IH Hz]; intros i j x y Hlt Hi Hj; [done|].
  destruct j as [|j]; [lia|]. cbn in Hj.
  destruct i as [|i]; cbn in Hi.
  - injection Hi as ->. rewrite Forall_forall in Hz. apply Hz.
    by eapply list_elem_of_lookup_2.
  - apply (IH i j); [lia|done|done].
Qed.

Lemma omap_lookup_order {X Y} (f : X -> option Y) (g : Y -> X) (l : list X) :
  (forall x y, f x = Some y -> g y = x) ->
  forall j j' y y',
    omap f l !! j = Some y -> omap f l !! j' = Some y' -> (j < j')%nat ->
    exists n n', (n < n')%nat /\ l !! n = Some (g y) /\ l !! n' = Some (g y').
Proof.
  intros Hfg. induction l as [|x l IH]; intros j j' y y' Hj Hj' Hlt; [done|].
  rewrite omap_cons_match in Hj, Hj'. destruct (f x) as [y0|] eqn:Hx.
  - destruct j' as [|j']; [lia|]. cbn in Hj'. destruct j as [|j]; cbn in Hj.
    + injection Hj as ->.
      assert (y' ∈ omap f l) as (x' & Hin & Hx')%list_elem_of_omap
        by by eapply list_elem_of_lookup_2.
      apply list_elem_of_lookup in Hin as [n' Hn'].
      exists 0%nat, (S n'). split; [lia|]. cbn.
      by rewrite (Hfg _ _ Hx), (Hfg _ _ Hx').
    + destruct (IH j j' y y' Hj Hj') as (n & n' & ? & ? & ?); [lia|].
      exists (S n), (S n'). split; [lia|done].
  - destruct (IH j j' y y' Hj Hj' Hlt) as (n & n' & ? & ? & ?).
    exists (S n), (S n'). split; [lia|done].
Qed.

Lemma _sort_by_Permutation (A B : list Particle) :
  NoDup (id <$> B) -> _sort_by A B ≡ₚ B.
Proof.
  intros Hnd. unfold _sort_by.
  rewrite (Bdict_NoDup B []) by done. cbn [app].
  pose proof (_sort_by_loop_perm A ((fun b => (id b, b)) <$> B) []) as Hperm.
  destruct (_sort_by_loop A _ []) as [B' d'].
  unfold dict_values. rewrite sorted_perm. cbn [fst snd app] in Hperm.
  rewrite Hperm, <- list_fmap_compose. apply reflexive_eq, list_fmap_id.
Qed.

Lemma in_order_sort_by (A B : list Particle) :
  NoDup (id <$> A) -> NoDup (id <$> B) -> in_order id A (_sort_by A B).
Proof.
  intros HA HB.
  assert (NoDup (id <$> _sort_by A B)) as HS
    by by rewrite _sort_by_Permutation.
  apply in_order_flip; [done|done|].
  intros i i' j j' x x' y y' Hx Hx' Hy Hy' Hxy Hxy' Hlt.
  rewrite _sort_by_as_lists, first_occurrences_NoDup in Hy, Hy' by done.
  set (M := omap (fun i => find_id i B) (id <$> A)) in *.
  assert (forall n z, (M ++ sorted line Z.leb
                              (filter (fun b => id b ∉ id <$> A) B)) !! n
                      = Some z ->
                      id z ∈ id <$> A -> M !! n = Some z) as Hfront.
  { intros n z [?|[_ Hr]]%lookup_app_Some Hin; [done|]. exfalso.
    apply list_elem_of_lookup_2 in Hr. rewrite sorted_perm in Hr.
    by apply list_elem_of_filter in Hr as [Hr _]. }
  apply Hfront in Hy;
    [|rewrite <- Hxy; apply list_elem_of_fmap_2;
      by eapply list_elem_of_lookup_2].
  apply Hfront in Hy';
    [|rewrite <- Hxy'; apply list_elem_of_fmap_2;
      by eapply list_elem_of_lookup_2].
  destruct (omap_lookup_order (fun i => find_id i B) id (id <$> A)
              ltac:(intros k z Hz; by apply find_id_Some in Hz as [? _])
              j j' y y' Hy Hy' Hlt) as (n & n' & Hnn' & Hn & Hn').
  assert ((id <$> A) !! i = Some (id y)) as Hi
    by by rewrite list_lookup_fmap, Hx, <- Hxy.
  assert ((id <$> A) !! i' = Some (id y')) as Hi'
    by by rewrite list_lookup_fmap, Hx', <- Hxy'.
  assert (n = i) as -> by exact (NoDup_lookup _ _ _ _ HA Hn Hi).
  assert (n' = i') as -> by exact (NoDup_lookup _ _ _ _ HA Hn' Hi').
  done.
Qed.

Lemma in_order_sorted_id (A B : list Particle) :
  NoDup (id <$> A) -> NoDup (id <$> B) ->
  in_order id (sorted id Z.leb A) (sorted id Z.leb B).
Proof.
  intros HA HB.
  assert (forall l, StronglySorted (fun u v => (id u <= id v)%Z)
                      (sorted id Z.leb l)) as Hsorted.
  { intros l. eapply StronglySorted_mono;
      [|apply (sorted_StronglySorted id Z.leb)].
    - intros u v. apply Z.leb_le.
    - intros x y. rewrite !Z.leb_le. lia.
    - intros x y z. rewrite !Z.leb_le. lia. }
  assert (NoDup (id <$> sorted id Z.leb A)) as HA' by by rewrite sorted_perm.
  assert (NoDup (id <$> sorted id Z.leb B)) as HB' by by rewrite sorted_perm.
  apply in_order_flip; [done|done|].
  intros i i' j j' x x' y y' Hx Hx' Hy Hy' Hxy Hxy' Hlt.
  pose proof (StronglySorted_lookup_lt _ _ (Hsorted B) j j' y y' Hlt Hy Hy')
    as Hle.
  assert (id y <> id y') as Hne.
  { intros Heq. pose proof (NoDup_keys_lookup id _ j j' y y' HB' Hy Hy' Heq).
    lia. }
  destruct (Nat.lt_trichotomy i i') as [?|[->|Hgt]]; [done| |].
  - assert (x' = x) as -> by congruence. congruence.
  - pose proof (StronglySorted_lookup_lt _ _ (Hsorted A) i' i x' x Hgt Hx' Hx)
      as Hle'.
    cbv beta in Hle, Hle'. lia.
Qed.

Lemma in_order_sym (A B : list Particle) :
  NoDup (id <$> A) -> NoDup (id <$> B) -> in_order id A B -> in_order id B A.
Proof.
  intros HA HB Hord. apply in_order_flip; [done|done|].
  intros i i' j j' x x' y y' Hx Hx' Hy Hy' Hxy Hxy' Hlt.
  apply (Hord j j' i i'); [apply elt_eq_lookup..|done]; eauto 6.
Qed.

(** X17: when the ids are pairwise distinct in each file, the orders
    [id], [a] and [b] lose no match: every record of file A whose id is
    also in file B is compared with the record of B of this id: the two
    are a pair of the two spans of an [equal] opcode, the lists
    [_compare] zips. *)
Theorem common_records_are_compared (order : string) (A B : list Particle) :
  bool_decide (order ∈ ["id"; "a"; "b"]) = true ->
  NoDup (id <$> A) -> NoDup (id <$> B) ->
  let AB := reorder order A B in
  exists ops,
    Difflib.opcodes id AB.1 AB.2 = Some ops /\
    forall x y, x ∈ A -> y ∈ B -> id x = id y ->
      exists i1 i2 j1 j2,
        (Difflib.equal, i1, i2, j1, j2) ∈ ops /\
        (x, y) ∈ zip (Difflib.slice AB.1 i1 i2) (Difflib.slice AB.2 j1 j2).
Proof.
  intros Horder%bool_decide_eq_true HA HB AB.
  assert (AB.1 ≡ₚ A /\ AB.2 ≡ₚ B /\ in_order id AB.1 AB.2)
    as (HpA & HpB & Hord).
  { subst AB.
    repeat (apply elem_of_cons in Horder as [->|Horder]);
      [| | |by apply elem_of_nil in Horder]; cbn [reorder String.eqb
        Ascii.eqb Bool.eqb fst snd].
    - split; [apply sorted_perm|]. split; [apply sorted_perm|].
      by apply in_order_sorted_id.
    - split; [done|]. split; [by apply _sort_by_Permutation|].
      by apply in_order_sort_by.
    - split; [by apply _sort_by_Permutation|]. split; [done|].
      apply in_order_sym; [done|by rewrite _sort_by_Permutation|].
      by apply in_order_sort_by. }
  destruct (opcodes_align id AB.1 AB.2) as (ops & Hops & Hall);
    [by rewrite HpB|done|].
  exists ops. split; [done|]. intros x y Hx Hy Hxy.
  rewrite <- HpA in Hx. rewrite <- HpB in Hy.
  apply list_elem_of_lookup in Hx as [i Hi].
  apply list_elem_of_lookup in Hy as [j Hj].
  assert (Difflib.elt_eq id AB.1 AB.2 i j = true) as He
    by (apply elt_eq_lookup; eauto).
  apply Hall in He.
  apply Exists_exists in He as ([[[[tag i1] i2] j1] j2] & Hin & Hspan).
  destruct (in_equal_span_zip AB.1 AB.2 i j x y _ _ _ _ _ Hspan Hi Hj)
    as [-> Hzip].
  by exists i1, i2, j1, j2.
Qed.

Lemma common_records_are_compared_witness :
  exists ops,
    Difflib.opcodes id (reorder "a" [pi_plus; K_plus] [K_plus; pi_plus_heavy]).1
      (reorder "a" [pi_plus; K_plus] [K_plus; pi_plus_heavy]).2 = Some ops /\
    forall x y, x ∈ [pi_plus; K_plus] -> y ∈ [K_plus; pi_plus_heavy] ->
      id x = id y ->
      exists i1 i2 j1 j2,
        (Difflib.equal, i1, i2, j1, j2) ∈ ops /\
        (x, y) ∈ zip (Difflib.slice
                        (reorder "a" [pi_plus; K_plus]
                           [K_plus; pi_plus_heavy]).1 i1 i2)
                     (Difflib.slice
                        (reorder "a" [pi_plus; K_plus]
                           [K_plus; pi_plus_heavy]).2 j1 j2).
Proof.
  apply (common_records_are_compared "a" [pi_plus; K_plus]
           [K_plus; pi_plus_heavy]).
  - reflexivity.
  - apply (bool_decide_unpack _). vm_compute. exact I.
  - apply (bool_decide_unpack _). vm_compute. exact I.
Defined.

(** ** A precision that is too big *)

Section BigPrecision.
Context `{!PyRuntime}.

(** X18: with a precision above [INT_MAX] = 2147483647 no float can be
    shown either: [_removed] and [_added] raise a [ValueError] at the
    first field, the mass, of the first record they are given, and add
    nothing to the table; the message is that of the float formatter up
    to the largest [Py_ssize_t], of 64 bits, and that of the reader of
    the format specification above it. *)
Theorem too_big_precision_raises (self : PDLDiffTable) (P : list Particle) :
  2147483647 < precision self -> P <> [] ->
  let e := ValueError
             (if (9223372036854775807 <? precision self)%Z
              then "Too many decimal digits in format string"
              else "precision too big") in
  _removed self P = Raise e /\ _added self P = Raise e.
Proof.
  intros Hp HP e. destruct P as [|p P]; [done|].
  assert ((precision self <? 0)%Z = false) as Hneg by (apply Z.ltb_ge; lia).
  assert ((2147483647 <? precision self)%Z = true) as Hbig
    by by apply Z.ltb_lt.
  assert (format_value self (VFloat (mass p)) = Raise e) as Hraise.
  { unfold format_value. rewrite Hneg, Hbig. subst e.
    by destruct (9223372036854775807 <? precision self)%Z. }
  split.
  - cbn [_removed shown_fields _fields but_last length Nat.sub take drop
         as_tuple zip zip_with _removed_fields].
    unfold _add_row. by rewrite Hraise.
  - cbn [_added shown_fields _fields but_last length Nat.sub take drop
         as_tuple zip zip_with _added_fields].
    unfold _add_row.
    change (format_value self (VStr "--")) with (Ok (VStr "--")).
    cbn [mbind result_bind]. by rewrite Hraise.
Qed.
End BigPrecision.

Lemma too_big_precision_raises_witness :
  let self := new_table "A.pdl" "B.pdl" "name" default_tolerance 2147483648 in
  @_removed small_runtime self [pi_plus]
  = Raise (ValueError "precision too big") /\
  @_added small_runtime self [pi_plus]
  = Raise (ValueError "precision too big").
Proof.
  apply (@too_big_precision_raises small_runtime
           (new_table "A.pdl" "B.pdl" "name" default_tolerance 2147483648)
           [pi_plus]).
  - simpl. lia.
  - discriminate.
Defined.
